(** * Tool-orchestration engine of mcp_macos: protocol client, model gateway
      history and chat orchestrator

    Shallow embedding of
    - [MCPClient] (backend/src/services/mcpClient.ts),
    - [LocalMacOSClient] (backend/src/services/localMacOSClient.ts),
    - [LLMService.addToConversationContext] (backend/src/services/llmService.ts),
    - [ChatService] (backend/src/services/chatService.ts),
    and the properties of the specification stated over them. *)

From Stdlib Require Import ZArith NArith QArith Qcanon Qround Lia.
From Stdlib Require Import Strings.String Strings.Byte.
From stdpp Require Import gmap strings list fin_maps.

Set Default Proof Using "Type".

(* ===================================================================== *)
(** * Part I.  JavaScript values                                          *)
(* ===================================================================== *)

Module JS.

(** A JavaScript string is kept as its sequence of Unicode code points.
    The operations the sources use on strings ([split] on a line feed,
    [trim], [includes] and [===] against ASCII literals, concatenation) act
    the same on code points as on UTF-16 code units. *)
Abbreviation jsstring := (list N).

Definition REPLACEMENT : N := 65533.

(** ** [Buffer.prototype.toString()] : UTF-8 decoding

    Decoding follows the WHATWG UTF-8 decoder: an ill-formed or truncated
    sequence yields U+FFFD and the offending byte is looked at again. *)

(** A multi-byte sequence in progress: the code point bits read so far, the
    number of continuation bytes still to come and the interval the next
    byte has to lie in. *)
Record utf8_partial := {
  up_bits : N;
  up_needed : nat;
  up_lower : N;
  up_upper : N;
}.

Definition utf8_lead (b : N) : list N * option utf8_partial :=
  if (b <=? 127)%N then ([b], None)
  else if ((194 <=? b) && (b <=? 223))%N then
    ([], Some {| up_bits := N.land b 31; up_needed := 1; up_lower := 128; up_upper := 191 |})
  else if ((224 <=? b) && (b <=? 239))%N then
    ([], Some {| up_bits := N.land b 15; up_needed := 2;
                 up_lower := if (b =? 224)%N then 160 else 128;
                 up_upper := if (b =? 237)%N then 159 else 191 |})
  else if ((240 <=? b) && (b <=? 244))%N then
    ([], Some {| up_bits := N.land b 7; up_needed := 3;
                 up_lower := if (b =? 240)%N then 144 else 128;
                 up_upper := if (b =? 244)%N then 143 else 191 |})
  else ([REPLACEMENT], None).

Fixpoint utf8_run (st : option utf8_partial) (bs : list N) : list N :=
  match bs with
  | [] => match st with None => [] | Some _ => [REPLACEMENT] end
  | b :: bs' =>
    match st with
    | None => let '(out, st') := utf8_lead b in out ++ utf8_run st' bs'
    | Some p =>
      if ((up_lower p <=? b) && (b <=? up_upper p))%N then
        let bits := N.lor (N.shiftl (up_bits p) 6) (N.land b 63) in
        match up_needed p with
        | S (S n) =>
          utf8_run (Some {| up_bits := bits; up_needed := S n;
                            up_lower := 128; up_upper := 191 |}) bs'
        | _ => bits :: utf8_run None bs'
        end
      else
        let '(out, st') := utf8_lead b in REPLACEMENT :: out ++ utf8_run st' bs'
    end
  end.

(** [data.toString()] for a [Buffer] [data]. *)
Definition Buffer_toString (data : list byte) : jsstring :=
  utf8_run None (Byte.to_N <$> data).

(** A string literal of the sources, written in this file in UTF-8. *)
Definition lit (s : string) : jsstring :=
  Buffer_toString (list_byte_of_string s).

#[global] Arguments lit : simpl never.

Definition LF : N := 10.
Definition QUOTE : N := 34.

(** ** [String.prototype.split('\n')] *)
Fixpoint split_nl (s : jsstring) : list jsstring :=
  match s with
  | [] => [[]]
  | c :: s' =>
    if (c =? LF)%N then [] :: split_nl s'
    else match split_nl s' with
         | l :: ls => (c :: l) :: ls
         | [] => [[c]]
         end
  end.

(** ** [String.prototype.trim()] : WhiteSpace and LineTerminator of ECMA-262 *)
Definition is_js_space (c : N) : bool :=
  (((9 <=? c) && (c <=? 13)) || (c =? 32) || (c =? 160) || (c =? 5760)
   || ((8192 <=? c) && (c <=? 8202)) || (c =? 8232) || (c =? 8233)
   || (c =? 8239) || (c =? 8287) || (c =? 12288) || (c =? 65279))%N.

Fixpoint trimStart (s : jsstring) : jsstring :=
  match s with
  | c :: s' => if is_js_space c then trimStart s' else s
  | [] => []
  end.

Definition trim (s : jsstring) : jsstring :=
  rev (trimStart (rev (trimStart s))).

(** ** [String.prototype.includes] and [===] on strings *)
Fixpoint starts_with (p s : jsstring) : bool :=
  match p, s with
  | [], _ => true
  | a :: p', b :: s' => (a =? b)%N && starts_with p' s'
  | _ :: _, [] => false
  end.

Fixpoint includes (s p : jsstring) : bool :=
  starts_with p s || match s with [] => false | _ :: s' => includes s' p end.

Definition str_eqb (a b : jsstring) : bool := bool_decide (a = b).

(** [String.prototype.replace] of every occurrence of one character. *)
Definition replace_all (c : N) (by_ : jsstring) (s : jsstring) : jsstring :=
  s ≫= (fun x => if (x =? c)%N then by_ else [x]).

(** Decimal rendering of an integer, as template literals render integral
    numbers. *)
Fixpoint dec_digits (fuel : nat) (n : N) (acc : jsstring) : jsstring :=
  match fuel with
  | O => acc
  | S fuel' =>
    let acc' := (48 + n mod 10)%N :: acc in
    if (n <? 10)%N then acc' else dec_digits fuel' (n / 10)%N acc'
  end.

Definition dec (z : Z) : jsstring :=
  let n := Z.to_N (Z.abs z) in
  (if (z <? 0)%Z then [45%N] else []) ++ dec_digits (S (N.to_nat (N.log2 n))) n [].

(** ** Numbers

    A Number is a binary64 value.  The finite ones are kept as the rationals
    they are.  [-0] is not told apart from [0]: the sources compare numbers
    with [===], look them up as keys of a [Map] and test them for
    truthiness, and none of these tells the two apart.  [2^1024] and
    [-2^1024], which no finite binary64 value equals, stand for [Infinity]
    and [-Infinity].  [NaN] does not occur: [JSON.parse] never gives it, and
    neither does the sum of two finite numbers. *)

(** [n / d] rounded to the nearest integer, a tie to the even one. *)
Definition round_half_even (n : Z) (d : positive) : Z :=
  let q := (n / Z.pos d)%Z in
  match (2 * (n mod Z.pos d) ?= Z.pos d)%Z with
  | Lt => q
  | Gt => (q + 1)%Z
  | Eq => if Z.even q then q else (q + 1)%Z
  end.

(** [2^e <= a / d], for [a] positive. *)
Definition reaches (a : Z) (d : positive) (e : Z) : bool :=
  if (0 <=? e)%Z then (Z.pos d * 2 ^ e <=? a)%Z
  else (Z.pos d <=? a * 2 ^ (- e))%Z.

(** The exponent of a non-zero [n / d]: the [e] with
    [2^e <= |n / d| < 2^(e+1)]. *)
Definition exponent (n : Z) (d : positive) : Z :=
  let a := Z.abs n in
  let e := (Z.log2 a - Z.log2 (Z.pos d))%Z in
  if reaches a d e then e else (e - 1)%Z.

(** Round to nearest, ties to even, with 53 bits of precision down to the
    subnormal step [2^(-1074)]: [m] is the significand as an integer and
    [2^u] the unit in the last place. *)
Definition binary64 (x : Qc) : Qc :=
  let n := Qnum (this x) in
  let d := Qden (this x) in
  if (n =? 0)%Z then x
  else
    let u := Z.max (exponent n d - 52) (-1074) in
    if (0 <=? u)%Z then
      let m := round_half_even n (d * Z.to_pos (2 ^ u)) in
      Q2Qc (inject_Z (Z.max (- 2 ^ 1024) (Z.min (m * 2 ^ u) (2 ^ 1024))))
    else
      let m := round_half_even (n * 2 ^ (- u)) d in
      Q2Qc (m # Z.to_pos (2 ^ (- u))).

(** ** Values

    The values that [JSON.parse] produces; [undefined] is the [None] of
    [option json]. *)
#[local] Unset Elimination Schemes.
Inductive json :=
| JNull
| JBool (b : bool)
| JNum (q : Qc)
| JStr (s : jsstring)
| JArr (l : list json)
| JObj (m : list (jsstring * json)).
#[local] Set Elimination Schemes.

Abbreviation jsval := (option json).

Definition jnum (z : Z) : json := JNum (Q2Qc (inject_Z z)).
Definition jstr (s : string) : json := JStr (lit s).

(** ** [JSON.parse]

    The grammar of ECMA-404.  [None] stands for the [SyntaxError] the
    built-in throws.  A repeated key keeps its last value. *)
Definition is_json_ws (c : N) : bool :=
  ((c =? 32) || (c =? 9) || (c =? 10) || (c =? 13))%N.

Fixpoint skip_ws (s : jsstring) : jsstring :=
  match s with
  | c :: s' => if is_json_ws c then skip_ws s' else s
  | [] => []
  end.

Fixpoint strip_prefix (p s : jsstring) : option jsstring :=
  match p, s with
  | [], _ => Some s
  | a :: p', b :: s' => if (a =? b)%N then strip_prefix p' s' else None
  | _ :: _, [] => None
  end.

Definition is_digit (c : N) : bool := ((48 <=? c) && (c <=? 57))%N.

Definition hex_value (c : N) : option N :=
  if is_digit c then Some (c - 48)%N
  else if ((97 <=? c) && (c <=? 102))%N then Some (c - 87)%N
  else if ((65 <=? c) && (c <=? 70))%N then Some (c - 55)%N
  else None.

Definition hex4 (a b c d : N) : option N :=
  x ← hex_value a; y ← hex_value b; z ← hex_value c; w ← hex_value d;
  Some (((x * 16 + y) * 16 + z) * 16 + w)%N.

Definition simple_escape (e : N) : option N :=
  if (e =? 34)%N then Some 34%N
  else if (e =? 92)%N then Some 92%N
  else if (e =? 47)%N then Some 47%N
  else if (e =? 98)%N then Some 8%N
  else if (e =? 102)%N then Some 12%N
  else if (e =? 110)%N then Some 10%N
  else if (e =? 114)%N then Some 13%N
  else if (e =? 116)%N then Some 9%N
  else None.

(** The characters of a string after its opening quote, up to the closing
    one; [acc] holds the code units read so far, last one first. *)
Fixpoint parse_chars (s acc : jsstring) : option (jsstring * jsstring) :=
  match s with
  | [] => None
  | c :: s1 =>
    if (c =? 34)%N then Some (rev acc, s1)
    else if (c =? 92)%N then
      match s1 with
      | [] => None
      | e :: s2 =>
        if (e =? 117)%N then
          match s2 with
          | a :: s3 =>
            match s3 with
            | b :: s4 =>
              match s4 with
              | h :: s5 =>
                match s5 with
                | l :: s6 =>
                  match hex4 a b h l with
                  | Some u => parse_chars s6 (u :: acc)
                  | None => None
                  end
                | [] => None
                end
              | [] => None
              end
            | [] => None
            end
          | [] => None
          end
        else
          match simple_escape e with
          | Some u => parse_chars s2 (u :: acc)
          | None => None
          end
      end
    else if (c <? 32)%N then None
    else parse_chars s1 (c :: acc)
  end.

(** A high surrogate followed by a low one, both written as [\u] escapes,
    are one code point. *)
Fixpoint pair_surrogates (s : jsstring) : jsstring :=
  match s with
  | [] => []
  | c :: s' =>
    match pair_surrogates s' with
    | d :: t =>
      if ((55296 <=? c) && (c <=? 56319) && (56320 <=? d) && (d <=? 57343))%N
      then (65536 + (c - 55296) * 1024 + (d - 56320))%N :: t
      else c :: d :: t
    | [] => [c]
    end
  end.

Fixpoint take_digits (s acc : jsstring) : jsstring * jsstring :=
  match s with
  | c :: s' => if is_digit c then take_digits s' (c :: acc) else (rev acc, s)
  | [] => (rev acc, [])
  end.

Definition digits_value (ds : jsstring) : Z :=
  foldl (fun a c => (a * 10 + Z.of_N (c - 48))%Z) 0%Z ds.

(** The Number that the decimal [m * 10^e] denotes: the nearest binary64
    value. *)
Definition scale10 (m e : Z) : Qc :=
  binary64 (if (0 <=? e)%Z then Q2Qc (inject_Z (m * 10 ^ e))
            else Q2Qc (m # Z.to_pos (10 ^ (- e)))).

Definition parse_number (s : jsstring) : option (Qc * jsstring) :=
  let '(neg, s0) := match s with
                    | c :: s' => if (c =? 45)%N then (true, s') else (false, s)
                    | [] => (false, s)
                    end in
  let '(ip, s1) := take_digits s0 [] in
  match ip with
  | [] => None
  | d :: ip' =>
    if (d =? 48)%N && negb (bool_decide (ip' = [])) then None
    else
      let frac := match s1 with
                  | c :: s' =>
                    if (c =? 46)%N then
                      let '(fp, s2) := take_digits s' [] in
                      match fp with [] => None | _ => Some (fp, s2) end
                    else Some ([], s1)
                  | [] => Some ([], s1)
                  end in
      match frac with
      | None => None
      | Some (fp, s2) =>
        let expo := match s2 with
                    | c :: s' =>
                      if ((c =? 101) || (c =? 69))%N then
                        let '(eneg, s3) :=
                          match s' with
                          | g :: s'' =>
                            if (g =? 45)%N then (true, s'')
                            else if (g =? 43)%N then (false, s'')
                            else (false, s')
                          | [] => (false, s')
                          end in
                        let '(ep, s4) := take_digits s3 [] in
                        match ep with
                        | [] => None
                        | _ => Some (if eneg then (- digits_value ep)%Z
                                     else digits_value ep, s4)
                        end
                      else Some (0%Z, s2)
                    | [] => Some (0%Z, s2)
                    end in
        match expo with
        | None => None
        | Some (e, s4) =>
          let m := digits_value (ip ++ fp) in
          Some (scale10 (if neg then (- m)%Z else m) (e - Z.of_nat (length fp)), s4)
        end
      end
  end.

Fixpoint obj_set (k : jsstring) (v : json) (m : list (jsstring * json))
  : list (jsstring * json) :=
  match m with
  | [] => [(k, v)]
  | (k', v') :: m' =>
    if bool_decide (k = k') then (k, v) :: m' else (k', v') :: obj_set k v m'
  end.

Fixpoint parse_value (fuel : nat) (s : jsstring) : option (json * jsstring) :=
  match fuel with
  | O => None
  | S fuel' =>
    match skip_ws s with
    | [] => None
    | c :: rest =>
      if (c =? 123)%N then
        match skip_ws rest with
        | d :: rest' =>
          if (d =? 125)%N then Some (JObj [], rest')
          else parse_members fuel' (d :: rest') []
        | [] => None
        end
      else if (c =? 91)%N then
        match skip_ws rest with
        | d :: rest' =>
          if (d =? 93)%N then Some (JArr [], rest')
          else parse_elems fuel' (d :: rest') []
        | [] => None
        end
      else if (c =? 34)%N then
        '(str, rest') ← parse_chars rest [];
        Some (JStr (pair_surrogates str), rest')
      else if (c =? 45)%N || is_digit c then
        '(q, rest') ← parse_number (c :: rest);
        Some (JNum q, rest')
      else
        match strip_prefix [116; 114; 117; 101]%N (c :: rest) with
        | Some rest' => Some (JBool true, rest')
        | None =>
          match strip_prefix [102; 97; 108; 115; 101]%N (c :: rest) with
          | Some rest' => Some (JBool false, rest')
          | None =>
            match strip_prefix [110; 117; 108; 108]%N (c :: rest) with
            | Some rest' => Some (JNull, rest')
            | None => None
            end
          end
        end
    end
  end
with parse_elems (fuel : nat) (s : jsstring) (acc : list json)
  : option (json * jsstring) :=
  match fuel with
  | O => None
  | S fuel' =>
    '(v, rest) ← parse_value fuel' s;
    match skip_ws rest with
    | c :: rest' =>
      if (c =? 44)%N then parse_elems fuel' rest' (v :: acc)
      else if (c =? 93)%N then Some (JArr (rev (v :: acc)), rest')
      else None
    | [] => None
    end
  end
with parse_members (fuel : nat) (s : jsstring) (acc : list (jsstring * json))
  : option (json * jsstring) :=
  match fuel with
  | O => None
  | S fuel' =>
    match skip_ws s with
    | q :: s1 =>
      if (q =? 34)%N then
        '(k, s2) ← parse_chars s1 [];
        match skip_ws s2 with
        | c :: s3 =>
          if (c =? 58)%N then
            '(v, s4) ← parse_value fuel' s3;
            let acc' := obj_set (pair_surrogates k) v acc in
            match skip_ws s4 with
            | d :: s5 =>
              if (d =? 44)%N then parse_members fuel' s5 acc'
              else if (d =? 125)%N then Some (JObj acc', s5)
              else None
            | [] => None
            end
          else None
        | [] => None
        end
      else None
    | [] => None
    end
  end.

Definition JSON_parse (text : jsstring) : option json :=
  '(v, rest) ← parse_value (2 * length text + 2) text;
  match skip_ws rest with [] => Some v | _ => None end.

(** ToBoolean. *)
Definition truthy (v : jsval) : bool :=
  match v with
  | None | Some JNull => false
  | Some (JBool b) => b
  | Some (JNum q) => negb (bool_decide (q = Q2Qc 0))
  | Some (JStr s) => negb (bool_decide (s = []))
  | Some (JArr _) | Some (JObj _) => true
  end.

(** [v === s] for a string [s]. *)
Definition is_string (v : jsval) (s : jsstring) : bool :=
  match v with
  | Some (JStr s') => bool_decide (s' = s)
  | _ => false
  end.

(** [a || b]. *)
Definition or_else (a b : jsval) : jsval := if truthy a then a else b.

(** Errors thrown and caught: an [Error] object with its [message]. *)
Record Error := { message : jsstring }.

Abbreviation res A := (Error + A)%type.

#[global] Instance res_ret : MRet (sum Error) := fun _ x => inr x.
#[global] Instance res_bind : MBind (sum Error) :=
  fun _ _ f m => match m with inl e => inl e | inr x => f x end.

(** [try { m } catch (error) { h error }] when the handler cannot throw. *)
Definition try_catch {A} (m : res A) (h : Error -> A) : A :=
  match m with inl e => h e | inr x => x end.

(** Code that acts on a state [S] and may throw. *)
Definition Eff (S A : Type) : Type := S -> S * res A.

#[global] Instance Eff_ret {S} : MRet (Eff S) := fun _ x s => (s, inr x).
#[global] Instance Eff_bind {S} : MBind (Eff S) :=
  fun _ _ f m s =>
    match m s with
    | (s', inl e) => (s', inl e)
    | (s', inr x) => f x s'
    end.

Definition throw {S A} (e : Error) : Eff S A := fun s => (s, inl e).

(** [try { m } catch (error) { h error }]. *)
Definition catch {S A} (m : Eff S A) (h : Error -> Eff S A) : Eff S A :=
  fun s =>
    match m s with
    | (s', inl e) => h e s'
    | (s', inr x) => (s', inr x)
    end.

Definition describe (v : jsval) : jsstring :=
  match v with None => lit "undefined" | _ => lit "null" end.

(** The [TypeError] V8 raises for a property read on [undefined] or [null]. *)
Definition TypeError_read (v : jsval) (k : jsstring) : Error :=
  {| message := lit "Cannot read properties of " ++ describe v
                ++ lit " (reading '" ++ k ++ lit "')" |}.

Fixpoint assoc (k : jsstring) (m : list (jsstring * json)) : jsval :=
  match m with
  | [] => None
  | (k', v) :: m' => if bool_decide (k = k') then Some v else assoc k m'
  end.

(** [v.k] for a property name [k] that no prototype defines (the sources
    read [id], [error], [message], [result], [content], [type], [data] and
    [text]): own properties of objects, [undefined] on other values, a
    [TypeError] on [undefined] and [null]. *)
Definition prop (v : jsval) (k : jsstring) : res jsval :=
  match v with
  | None | Some JNull => inl (TypeError_read v k)
  | Some (JObj m) => inr (assoc k m)
  | Some _ => inr None
  end.

#[global] Arguments prop : simpl never.

(** ** Built-ins that are kept abstract

    Number arithmetic and rendering (binary64), conversion of values other
    than strings to a string, case mapping, and two library functions. *)
Class Builtins := {
  Num : Type;
  (** a number literal *)
  num_of_Z : Z -> Num;
  parseInt : jsstring -> Num;
  (** [Math.round((x / source) * actual)] *)
  round_scaled : jsval -> jsval -> Num -> Num;
  (** a number inside a template literal *)
  show_Num : Num -> jsstring;
  (** [String(v)] for a value that is not a string *)
  String_of : jsval -> jsstring;
  toLowerCase : jsstring -> jsstring;
  (** [buffer.toString('base64')] *)
  base64 : list byte -> jsstring;
  (** [path.join(a, b)] *)
  path_join : jsstring -> jsstring -> jsstring;
  (** [String(({})[k])] for a key [k] that [Object.prototype] defines *)
  inherited : jsstring -> option jsstring;
}.

(** [`${v}`]. *)
Definition to_String `{Builtins} (v : jsval) : jsstring :=
  match v with
  | Some (JStr s) => s
  | _ => String_of v
  end.

(** [v[0]]. *)
Definition index0 (v : jsval) : res jsval :=
  match v with
  | None | Some JNull => inl (TypeError_read v (lit "0"))
  | Some (JObj m) => inr (assoc (lit "0") m)
  | Some (JArr l) => inr (head l)
  | Some (JStr s) => inr ((fun c => JStr [c]) <$> head s)
  | Some _ => inr None
  end.

#[global] Arguments index0 : simpl never.

End JS.

(* ===================================================================== *)
(** * Part II.  Shared types (backend/src/types/mcp.ts)                   *)
(* ===================================================================== *)

Module MCP.
Import JS.

Record MCPTool := {
  name : jsstring;
  description : jsstring;
  inputSchema : json;
}.

Record MCPToolCall := {
  call_name : jsstring;
  call_arguments : json;
}.

(** Every field but [success] is optional in the interface; at run time a
    field holds whatever value the client stored, hence [jsval]. *)
Record MCPToolResult := {
  success : bool;
  data : jsval;
  error : jsval;
  imageData : jsval;
  toolName : option jsstring;
  content : jsval;
}.

(** A field is populated when it holds a value other than [undefined]. *)
Definition populated (f : jsval) : bool :=
  match f with Some _ => true | None => false end.

(** Of [content], [imageData] and [error], only [error] is populated. *)
Definition only_error (r : MCPToolResult) : bool :=
  populated (error r) && negb (populated (content r)) && negb (populated (imageData r)).

(** Exactly one of the three is populated: [content] or [imageData] when
    [success] is true, [error] when it is false. *)
Definition exactly_one_payload (r : MCPToolResult) : bool :=
  if success r
  then negb (populated (error r))
       && xorb (populated (content r)) (populated (imageData r))
  else only_error r.

(** [success] is true and none of the three is populated. *)
Definition no_payload (r : MCPToolResult) : bool :=
  success r && negb (populated (error r)) && negb (populated (content r))
  && negb (populated (imageData r)).

End MCP.

(* ===================================================================== *)
(** * Part III.  MCPClient (backend/src/services/mcpClient.ts)            *)
(* ===================================================================== *)

Module MCPClient.
Import JS MCP.

(** ** The client and the runtime around it *)

(** State of a promise created by [waitForResponse]. *)
Inductive Promise :=
| Pending
| Fulfilled (response : json)
| Rejected (reason : Error).

(** An entry of [pendingRequests].  [resolve] and [reject] are the two
    capabilities of one promise, kept here as its handle. *)
Record PendingRequest := {
  promise : nat;
  timeout : nat;
}.

(** A timer armed by [waitForResponse]: when it is due, and the [requestId]
    and [reject] its callback closes over. *)
Record Timer := {
  deadline : Z;
  timer_requestId : Qc;
  timer_reject : nat;
}.

Record ChildProcess := { pid : nat }.

(** What the client does to the subprocess.  [StdinWrite p request] stands for
    [p.stdin.write(JSON.stringify(request) + '\n')]. *)
Inductive IO :=
| StdinWrite (p : ChildProcess) (request : json)
| Kill (p : ChildProcess).

Record World := {
  (* the fields of the MCPClient instance *)
  mcpProcess : option ChildProcess;
  connected : bool;
  tools : list MCPTool;
  responseBuffer : jsstring;
  pendingRequests : gmap Qc PendingRequest;
  (* the event loop: promises, armed timers, current time in ms *)
  promises : gmap nat Promise;
  timers : gmap nat Timer;
  next_promise : nat;
  next_timer : nat;
  clock : Z;
  (* what has been done to the subprocess so far, oldest first *)
  io : list IO;
}.

(** [new MCPClient()] at time [now]. *)
Definition new (now : Z) : World :=
  {| mcpProcess := None; connected := false; tools := []; responseBuffer := [];
     pendingRequests := ∅; promises := ∅; timers := ∅;
     next_promise := 0; next_timer := 0; clock := now; io := [] |}.

Definition with_mcpProcess (v : option ChildProcess) (w : World) : World :=
  {| mcpProcess := v; connected := connected w; tools := tools w;
     responseBuffer := responseBuffer w; pendingRequests := pendingRequests w;
     promises := promises w; timers := timers w;
     next_promise := next_promise w; next_timer := next_timer w;
     clock := clock w; io := io w |}.

Definition with_connected (v : bool) (w : World) : World :=
  {| mcpProcess := mcpProcess w; connected := v; tools := tools w;
     responseBuffer := responseBuffer w; pendingRequests := pendingRequests w;
     promises := promises w; timers := timers w;
     next_promise := next_promise w; next_timer := next_timer w;
     clock := clock w; io := io w |}.

Definition with_tools (v : list MCPTool) (w : World) : World :=
  {| mcpProcess := mcpProcess w; connected := connected w; tools := v;
     responseBuffer := responseBuffer w; pendingRequests := pendingRequests w;
     promises := promises w; timers := timers w;
     next_promise := next_promise w; next_timer := next_timer w;
     clock := clock w; io := io w |}.

Definition with_responseBuffer (v : jsstring) (w : World) : World :=
  {| mcpProcess := mcpProcess w; connected := connected w; tools := tools w;
     responseBuffer := v; pendingRequests := pendingRequests w;
     promises := promises w; timers := timers w;
     next_promise := next_promise w; next_timer := next_timer w;
     clock := clock w; io := io w |}.

Definition with_pendingRequests (v : gmap Qc PendingRequest) (w : World) : World :=
  {| mcpProcess := mcpProcess w; connected := connected w; tools := tools w;
     responseBuffer := responseBuffer w; pendingRequests := v;
     promises := promises w; timers := timers w;
     next_promise := next_promise w; next_timer := next_timer w;
     clock := clock w; io := io w |}.

Definition with_promises (v : gmap nat Promise) (w : World) : World :=
  {| mcpProcess := mcpProcess w; connected := connected w; tools := tools w;
     responseBuffer := responseBuffer w; pendingRequests := pendingRequests w;
     promises := v; timers := timers w;
     next_promise := next_promise w; next_timer := next_timer w;
     clock := clock w; io := io w |}.

Definition with_timers (v : gmap nat Timer) (w : World) : World :=
  {| mcpProcess := mcpProcess w; connected := connected w; tools := tools w;
     responseBuffer := responseBuffer w; pendingRequests := pendingRequests w;
     promises := promises w; timers := v;
     next_promise := next_promise w; next_timer := next_timer w;
     clock := clock w; io := io w |}.

Definition with_clock (v : Z) (w : World) : World :=
  {| mcpProcess := mcpProcess w; connected := connected w; tools := tools w;
     responseBuffer := responseBuffer w; pendingRequests := pendingRequests w;
     promises := promises w; timers := timers w;
     next_promise := next_promise w; next_timer := next_timer w;
     clock := v; io := io w |}.

Definition do_io (a : IO) (w : World) : World :=
  {| mcpProcess := mcpProcess w; connected := connected w; tools := tools w;
     responseBuffer := responseBuffer w; pendingRequests := pendingRequests w;
     promises := promises w; timers := timers w;
     next_promise := next_promise w; next_timer := next_timer w;
     clock := clock w; io := io w ++ [a] |}.

(** [new Promise(...)] : a fresh pending promise. *)
Definition new_promise (w : World) : World * nat :=
  ({| mcpProcess := mcpProcess w; connected := connected w; tools := tools w;
      responseBuffer := responseBuffer w; pendingRequests := pendingRequests w;
      promises := <[next_promise w := Pending]> (promises w); timers := timers w;
      next_promise := S (next_promise w); next_timer := next_timer w;
      clock := clock w; io := io w |}, next_promise w).

(** [setTimeout(callback, delay)]. *)
Definition setTimeout (requestId : Qc) (reject : nat) (delay : Z) (w : World)
  : World * nat :=
  ({| mcpProcess := mcpProcess w; connected := connected w; tools := tools w;
      responseBuffer := responseBuffer w; pendingRequests := pendingRequests w;
      promises := promises w;
      timers := <[next_timer w := {| deadline := clock w + delay;
                                      timer_requestId := requestId;
                                      timer_reject := reject |}]> (timers w);
      next_promise := next_promise w; next_timer := S (next_timer w);
      clock := clock w; io := io w |}, next_timer w).

Definition clearTimeout (t : nat) (w : World) : World :=
  with_timers (delete t (timers w)) w.

(** Settling a promise has an effect only while it is pending. *)
Definition settle (p : nat) (s : Promise) (w : World) : World :=
  match promises w !! p with
  | Some Pending => with_promises (<[p := s]> (promises w)) w
  | _ => w
  end.

Definition resolve (p : nat) (response : json) : World -> World :=
  settle p (Fulfilled response).

Definition reject (p : nat) (reason : Error) : World -> World :=
  settle p (Rejected reason).

(** ** The methods *)

(** [pendingRequests.get(key)] for an arbitrary value [key]: the keys of
    the map are numbers, so only a number can be found. *)
Definition get_pending (key : jsval) (w : World) : option PendingRequest :=
  match key with
  | Some (JNum q) => pendingRequests w !! q
  | _ => None
  end.

Definition delete_pending (key : jsval) (w : World) : World :=
  match key with
  | Some (JNum q) => with_pendingRequests (delete q (pendingRequests w)) w
  | _ => w
  end.

Definition handleResponse (response : json) (w : World) : res World :=
  match prop (Some response) (lit "id") with
  | inl e => inl e
  | inr id =>
    inr (if truthy id then
           match get_pending id w with
           | Some request =>
             resolve (promise request) response
               (clearTimeout (timeout request) (delete_pending id w))
           | None => w
           end
         else w)
  end.

(** One turn of the loop over the complete lines: a line that does not
    parse, or whose handling throws, is logged and skipped. *)
Definition handleLine (w : World) (line : jsstring) : World :=
  if bool_decide (trim line = []) then w
  else match JSON_parse (trim line) with
       | None => w
       | Some response =>
         match handleResponse response w with
         | inl _ => w
         | inr w' => w'
         end
       end.

Definition handleProcessOutput (data : list byte) (w : World) : World :=
  let buffer := responseBuffer w ++ Buffer_toString data in
  let lines := split_nl buffer in
  foldl handleLine
        (with_responseBuffer (default [] (last lines)) w)
        (removelast lines).

(** The map is visited in the order of [map_to_list] rather than in
    insertion order; every turn touches the timer and the promise of its
    own entry only. *)
Definition rejectPendingRequests (e : Error) (w : World) : World :=
  with_pendingRequests ∅
    (foldl (fun w' entry => reject (promise entry.2) e
                              (clearTimeout (timeout entry.2) w'))
           w (map_to_list (pendingRequests w))).

Definition REQUEST_TIMEOUT_MS : Z := 45000.

Definition waitForResponse (requestId : Qc) (w : World) : World * nat :=
  let '(w1, p) := new_promise w in
  let '(w2, t) := setTimeout requestId p REQUEST_TIMEOUT_MS w1 in
  (with_pendingRequests
     (<[requestId := {| promise := p; timeout := t |}]> (pendingRequests w2)) w2,
   p).

(** The callback [waitForResponse] hands to [setTimeout], run for timer [t]. *)
Definition timer_fires (t : nat) (w : World) : World :=
  match timers w !! t with
  | Some tm =>
    reject (timer_reject tm) {| message := lit "MCP request timeout" |}
      (with_pendingRequests (delete (timer_requestId tm) (pendingRequests w))
         (with_timers (delete t (timers w)) w))
  | None => w
  end.

(** The event loop reaches time [now]: the timers due by then fire. *)
Definition due (now : Z) (w : World) : list nat :=
  (map_to_list (filter (fun tm => (deadline tm.2 <= now)%Z) (timers w))).*1.

Definition elapse (now : Z) (w : World) : World :=
  with_clock (Z.max (clock w) now) (foldl (fun w' t => timer_fires t w') w (due now w)).

(** The catalog [loadTools] installs. *)
Definition builtin_tools : list MCPTool :=
[
  {| name := lit "remote_macos_get_screen";
     description := lit "Take a screenshot of the remote macOS desktop to see what's currently displayed";
     inputSchema :=
       JObj [
         (lit "type", jstr "object");
         (lit "properties", JObj []);
         (lit "required", JArr [])] |};
  {| name := lit "remote_macos_mouse_click";
     description := lit "Click at specified coordinates on the remote macOS screen";
     inputSchema :=
       JObj [
         (lit "type", jstr "object");
         (lit "properties", JObj [
           (lit "x", JObj [
             (lit "type", jstr "integer");
             (lit "description", jstr "X coordinate to click")]);
           (lit "y", JObj [
             (lit "type", jstr "integer");
             (lit "description", jstr "Y coordinate to click")]);
           (lit "source_width", JObj [
             (lit "type", jstr "integer");
             (lit "description", jstr "Source screen width for coordinate scaling");
             (lit "default", jnum 1366)]);
           (lit "source_height", JObj [
             (lit "type", jstr "integer");
             (lit "description", jstr "Source screen height for coordinate scaling");
             (lit "default", jnum 768)]);
           (lit "button", JObj [
             (lit "type", jstr "integer");
             (lit "description", jstr "Mouse button: 1=left, 2=middle, 3=right");
             (lit "default", jnum 1)])]);
         (lit "required", JArr [jstr "x"; jstr "y"])] |};
  {| name := lit "remote_macos_mouse_double_click";
     description := lit "Double-click at specified coordinates on the remote macOS screen";
     inputSchema :=
       JObj [
         (lit "type", jstr "object");
         (lit "properties", JObj [
           (lit "x", JObj [
             (lit "type", jstr "integer");
             (lit "description", jstr "X coordinate to double-click")]);
           (lit "y", JObj [
             (lit "type", jstr "integer");
             (lit "description", jstr "Y coordinate to double-click")]);
           (lit "source_width", JObj [
             (lit "type", jstr "integer");
             (lit "description", jstr "Source screen width for coordinate scaling");
             (lit "default", jnum 1366)]);
           (lit "source_height", JObj [
             (lit "type", jstr "integer");
             (lit "description", jstr "Source screen height for coordinate scaling");
             (lit "default", jnum 768)])]);
         (lit "required", JArr [jstr "x"; jstr "y"])] |};
  {| name := lit "remote_macos_mouse_move";
     description := lit "Move the mouse cursor to specified coordinates";
     inputSchema :=
       JObj [
         (lit "type", jstr "object");
         (lit "properties", JObj [
           (lit "x", JObj [
             (lit "type", jstr "integer");
             (lit "description", jstr "X coordinate to move to")]);
           (lit "y", JObj [
             (lit "type", jstr "integer");
             (lit "description", jstr "Y coordinate to move to")]);
           (lit "source_width", JObj [
             (lit "type", jstr "integer");
             (lit "description", jstr "Source screen width for coordinate scaling");
             (lit "default", jnum 1366)]);
           (lit "source_height", JObj [
             (lit "type", jstr "integer");
             (lit "description", jstr "Source screen height for coordinate scaling");
             (lit "default", jnum 768)])]);
         (lit "required", JArr [jstr "x"; jstr "y"])] |};
  {| name := lit "remote_macos_mouse_scroll";
     description := lit "Scroll at specified coordinates in a given direction";
     inputSchema :=
       JObj [
         (lit "type", jstr "object");
         (lit "properties", JObj [
           (lit "x", JObj [
             (lit "type", jstr "integer");
             (lit "description", jstr "X coordinate to scroll at")]);
           (lit "y", JObj [
             (lit "type", jstr "integer");
             (lit "description", jstr "Y coordinate to scroll at")]);
           (lit "direction", JObj [
             (lit "type", jstr "string");
             (lit "description", jstr "Scroll direction: up, down, left, right");
             (lit "enum", JArr [jstr "up"; jstr "down"; jstr "left"; jstr "right"])]);
           (lit "clicks", JObj [
             (lit "type", jstr "integer");
             (lit "description", jstr "Number of scroll clicks");
             (lit "default", jnum 3)])]);
         (lit "required", JArr [jstr "x"; jstr "y"; jstr "direction"])] |};
  {| name := lit "remote_macos_mouse_drag_n_drop";
     description := lit "Drag from one location to another (drag and drop operation)";
     inputSchema :=
       JObj [
         (lit "type", jstr "object");
         (lit "properties", JObj [
           (lit "start_x", JObj [
             (lit "type", jstr "integer");
             (lit "description", jstr "Starting X coordinate")]);
           (lit "start_y", JObj [
             (lit "type", jstr "integer");
             (lit "description", jstr "Starting Y coordinate")]);
           (lit "end_x", JObj [
             (lit "type", jstr "integer");
             (lit "description", jstr "Ending X coordinate")]);
           (lit "end_y", JObj [
             (lit "type", jstr "integer");
             (lit "description", jstr "Ending Y coordinate")]);
           (lit "source_width", JObj [
             (lit "type", jstr "integer");
             (lit "description", jstr "Source screen width for coordinate scaling");
             (lit "default", jnum 1366)]);
           (lit "source_height", JObj [
             (lit "type", jstr "integer");
             (lit "description", jstr "Source screen height for coordinate scaling");
             (lit "default", jnum 768)])]);
         (lit "required", JArr [jstr "start_x"; jstr "start_y"; jstr "end_x"; jstr "end_y"])] |};
  {| name := lit "remote_macos_send_keys";
     description := lit "Send keyboard input to the remote macOS system - can type text, special keys, or key combinations";
     inputSchema :=
       JObj [
         (lit "type", jstr "object");
         (lit "properties", JObj [
           (lit "text", JObj [
             (lit "type", jstr "string");
             (lit "description", jstr "Text to type (use this for regular text input)")]);
           (lit "special_key", JObj [
             (lit "type", jstr "string");
             (lit "description", jstr "Special key to press");
             (lit "enum", JArr [jstr "enter"; jstr "return"; jstr "backspace"; jstr "delete";
                   jstr "tab"; jstr "space"; jstr "escape"; jstr "esc"; jstr "up";
                   jstr "down"; jstr "left"; jstr "right"; jstr "home"; jstr "end";
                   jstr "page_up"; jstr "page_down"; jstr "f1"; jstr "f2"; jstr "f3";
                   jstr "f4"; jstr "f5"; jstr "f6"; jstr "f7"; jstr "f8"; jstr "f9";
                   jstr "f10"; jstr "f11"; jstr "f12"])]);
           (lit "key_combination", JObj [
             (lit "type", jstr "string");
             (lit "description", jstr "Key combination like cmd+c, cmd+v, cmd+shift+4, ctrl+alt+delete, etc.");
             (lit "examples", JArr [jstr "cmd+c"; jstr "cmd+v"; jstr "cmd+a"; jstr "cmd+z";
                   jstr "cmd+shift+4"; jstr "cmd+space"; jstr "cmd+tab";
                   jstr "ctrl+alt+delete"])])]);
         (lit "required", JArr [])] |};
  {| name := lit "remote_macos_open_application";
     description := lit "Open or activate an application on the remote macOS system";
     inputSchema :=
       JObj [
         (lit "type", jstr "object");
         (lit "properties", JObj [
           (lit "application_name", JObj [
             (lit "type", jstr "string");
             (lit "description", jstr "Name of the application to open (e.g., Safari, Chrome, Terminal, Finder, etc.)");
             (lit "examples", JArr [jstr "Safari"; jstr "Google Chrome"; jstr "Terminal"; jstr "Finder";
                   jstr "System Preferences"; jstr "TextEdit"; jstr "Calculator"])])]);
         (lit "required", JArr [jstr "application_name"])] |}
].

Definition loadTools (w : World) : World := with_tools builtin_tools w.

Definition listTools (w : World) : list MCPTool := tools w.

Definition isConnected (w : World) : bool := connected w.

(** [connect] up to its [await] of the settling delay: [spawned] is what
    [spawn] gave (a process, or the error it threw); the handlers for
    [error], [exit] and [data] are the events below. *)
Definition connect_spawn (spawned : res ChildProcess) (w : World) : res World :=
  proc ← spawned; mret (with_mcpProcess (Some proc) w).

(** [connect] after the delay. *)
Definition connect_resume (w : World) : World :=
  with_connected true (loadTools w).

(** A whole [connect()] with nothing happening during the delay. *)
Definition connect (spawned : res ChildProcess) (w : World) : res World :=
  w' ← connect_spawn spawned w; mret (connect_resume w').

(** Where a call of [callTool] stands once it has run up to its [await]. *)
Inductive Started :=
| Threw (e : Error)
| Returned (r : MCPToolResult)
| Awaiting (requestId : Qc) (p : nat).

Definition failed (tool : jsstring) (e : jsval) : MCPToolResult :=
  {| success := false; data := None; error := e; imageData := None;
     toolName := Some tool; content := None |}.

Definition tools_call (tool : jsstring) (args : json) (requestId : Qc) : json :=
  JObj [(lit "jsonrpc", jstr "2.0");
        (lit "id", JNum requestId);
        (lit "method", jstr "tools/call");
        (lit "params", JObj [(lit "name", JStr tool); (lit "arguments", args)])].

(** [Date.now() + Math.random()]: the sum of two Numbers is their exact sum
    rounded to binary64. *)
Definition requestId_of (now : Z) (random : Qc) : Qc :=
  binary64 (Q2Qc (inject_Z now) + random)%Qc.

(** [callTool] up to [await this.waitForResponse(requestId)].  [now] and
    [random] are what [Date.now()] and [Math.random()] return, [writable]
    is [this.mcpProcess.stdin?.writable]. *)
Definition callTool_start (tool : jsstring) (args : json)
    (now : Z) (random : Qc) (writable : bool) (w : World) : World * Started :=
  match connected w, mcpProcess w with
  | true, Some proc =>
    let requestId := requestId_of now random in
    if writable then
      let '(w', p) :=
        waitForResponse requestId
          (do_io (StdinWrite proc (tools_call tool args requestId)) w) in
      (w', Awaiting requestId p)
    else
      (w, Returned (failed tool (Some (jstr "MCP process stdin not writable"))))
  | _, _ => (w, Threw {| message := lit "MCP client not connected" |})
  end.

(** The body of [callTool] after the [await], inside its [try]. *)
Definition translate (tool : jsstring) (response : json) : res MCPToolResult :=
  let succeeded (result : jsval) : MCPToolResult :=
    {| success := true; data := result; error := None; imageData := None;
       toolName := Some tool; content := Some (jstr "Tool executed successfully") |} in
  err ← prop (Some response) (lit "error");
  if truthy err then
    msg ← prop err (lit "message");
    mret (failed tool (or_else msg (Some (jstr "Unknown MCP error"))))
  else
    result ← prop (Some response) (lit "result");
    if truthy result then
      items ← prop result (lit "content");
      if truthy items then
        item ← index0 items;
        type ← prop item (lit "type");
        if is_string type (lit "image") then
          image ← prop item (lit "data");
          mret {| success := true; data := result; error := None;
                  imageData := image; toolName := Some tool; content := None |}
        else
          text ← prop item (lit "text");
          payload ← prop item (lit "data");
          mret {| success := true; data := result; error := None;
                  imageData := None; toolName := Some tool;
                  content := or_else (or_else text payload)
                                     (Some (jstr "Tool executed successfully")) |}
      else mret (succeeded result)
    else mret (succeeded result).

(** [callTool] from the [await] on: [outcome] is how the awaited promise
    settled. *)
Definition callTool_resume (tool : jsstring) (outcome : res json) : MCPToolResult :=
  try_catch (response ← outcome; translate tool response)
            (fun e => failed tool (Some (JStr (message e)))).

(** What the caller of [callTool] has got in world [w]: [None] while the
    call is suspended, [inl] an exception thrown to the caller. *)
Definition callTool_result (tool : jsstring) (st : Started) (w : World)
  : option (res MCPToolResult) :=
  match st with
  | Threw e => Some (inl e)
  | Returned r => Some (inr r)
  | Awaiting _ p =>
    match promises w !! p with
    | Some (Fulfilled response) => Some (inr (callTool_resume tool (inr response)))
    | Some (Rejected e) => Some (inr (callTool_resume tool (inl e)))
    | _ => None
    end
  end.

(** The handlers registered by [connect]. *)
Definition on_error (e : Error) (w : World) : World :=
  rejectPendingRequests e (with_connected false w).

Definition exit_code (code : option Z) : jsstring :=
  match code with Some c => dec c | None => lit "null" end.

Definition on_exit (code : option Z) (w : World) : World :=
  rejectPendingRequests
    {| message := lit "MCP process exited with code " ++ exit_code code |}
    (with_connected false w).

Definition disconnect (w : World) : World :=
  let w1 := match mcpProcess w with
            | Some proc => with_mcpProcess None (do_io (Kill proc) w)
            | None => w
            end in
  rejectPendingRequests {| message := lit "MCP client disconnected" |}
    (with_connected false w1).

(** [getScreenDimensions] is [callTool('remote_macos_get_screen', {})]
    up to the [await], and from the [await] on what follows: [outcome] is
    what [callTool] returned or threw, and [JNull] stands for the [null]
    the method returns. *)
Definition getScreenDimensions_start : Z -> Qc -> bool -> World -> World * Started :=
  callTool_start (lit "remote_macos_get_screen") (JObj []).

Definition getScreenDimensions_resume (outcome : res MCPToolResult) : json :=
  match outcome with
  | inr result =>
    if success result && truthy (data result) then
      match prop (data result) (lit "dimensions") with
      | inr dimensions => if truthy dimensions then default JNull dimensions else JNull
      | inl _ => JNull
      end
    else JNull
  | inl _ => JNull
  end.

(** What the caller of [getScreenDimensions] has got in world [w]: [None]
    while the call is suspended. *)
Definition getScreenDimensions_result (st : Started) (w : World) : option json :=
  getScreenDimensions_resume <$> callTool_result (lit "remote_macos_get_screen") st w.

(** ** Runs of the client *)

(** What happens to the client, one turn of the event loop at a time.  A
    call of [connect] takes two turns: [Connect] runs it up to the [await]
    of the settling delay, [ConnectResume] is its resumption after the
    delay ([loadTools] returns a settled promise, so nothing runs between it
    and [this.connected = true]).  Whatever happens in between are events
    of their own. *)
Inductive Event :=
| Connect (spawned : res ChildProcess)
| ConnectResume
| CallTool (tool : jsstring) (args : json) (now : Z) (random : Qc) (writable : bool)
| Stdout (data : list byte)
| Elapse (now : Z)
| ProcessError (e : Error)
| ProcessExit (code : option Z)
| Disconnect.

Definition step (w : World) (ev : Event) : World :=
  match ev with
  | Connect spawned => try_catch (connect_spawn spawned w) (fun _ => w)
  | ConnectResume => connect_resume w
  | CallTool tool args now random writable =>
    (callTool_start tool args now random writable w).1
  | Stdout data => handleProcessOutput data w
  | Elapse now => elapse now w
  | ProcessError e => on_error e w
  | ProcessExit code => on_exit code w
  | Disconnect => disconnect w
  end.

Definition run (w : World) (evs : list Event) : World := foldl step w evs.

(** The requests written to the subprocess. *)
Definition written (w : World) : list json :=
  omap (fun a => match a with StdinWrite _ request => Some request | Kill _ => None end)
       (io w).

Definition sends (method : string) (w : World) : bool :=
  existsb (fun request =>
             match prop (Some request) (lit "method") with
             | inr m => is_string m (lit method)
             | inl _ => false
             end)
          (written w).

(** ** Notions the properties are stated with *)

(** A Tool Result that [callTool] gives to its caller. *)
Definition produces (r : MCPToolResult) : Prop :=
  exists tool args now random writable w0 w,
    callTool_result tool (callTool_start tool args now random writable w0).2 w
    = Some (inr r).

(** A response that tells of no error and whose first content item is an
    image without data: [response.error] is falsy, [response.result] and
    [result.content] are truthy, [content[0].type] is ['image'] and
    [content[0].data] is [undefined]. *)
Definition image_without_data (response : json) : bool :=
  match (err ← prop (Some response) (lit "error");
         if truthy err then mret false
         else
           result ← prop (Some response) (lit "result");
           if truthy result then
             items ← prop result (lit "content");
             if truthy items then
               item ← index0 items;
               type ← prop item (lit "type");
               if is_string type (lit "image") then
                 image ← prop item (lit "data");
                 mret (negb (populated image))
               else mret false
             else mret false
           else mret false) with
  | inr b => b
  | inl _ => false
  end.

(** [try { this.handleResponse(response) } catch { }]. *)
Definition deliver (w : World) (response : json) : World :=
  try_catch (handleResponse response w) (fun _ => w).

(** The complete lines of [buffer], and the responses parsed from them. *)
Definition complete_lines (buffer : jsstring) : list jsstring :=
  removelast (split_nl buffer).

Definition parse_line (line : jsstring) : option json :=
  if bool_decide (trim line = []) then None else JSON_parse (trim line).

Definition responses_in (buffer : jsstring) : list json :=
  omap parse_line (complete_lines buffer).

(** The responses [handleProcessOutput data] hands to [handleResponse]. *)
Definition dispatched (w : World) (data : list byte) : list json :=
  responses_in (responseBuffer w ++ Buffer_toString data).

(** All the responses dispatched while the chunks of [chunks] arrive one
    after the other, and the buffer left at the end. *)
Fixpoint feed (buffer : jsstring) (chunks : list (list byte)) : list json * jsstring :=
  match chunks with
  | [] => ([], buffer)
  | data :: rest =>
    let text := buffer ++ Buffer_toString data in
    let '(later, final) := feed (default [] (last (split_nl text))) rest in
    (responses_in text ++ later, final)
  end.

(** [response.id]. *)
Definition id_of (response : json) : jsval :=
  match prop (Some response) (lit "id") with
  | inr v => v
  | inl _ => None
  end.

(** The bytes [line] hold no line feed and are read by [handleProcessOutput]
    as the response [response] once the line is complete. *)
Definition carries (line : list byte) (response : json) : Prop :=
  (LF ∉ Buffer_toString line) /\ parse_line (Buffer_toString line) = Some response.

(** The output that consists of the lines [lines], each ended by a line
    feed. *)
Definition stream_of (lines : list (list byte)) : list byte :=
  mjoin ((fun line => line ++ [x0a]) <$> lines).

(** No chunk ends inside a character: the chunks decoded one by one give
    the text of the whole output. *)
Definition whole_characters (chunks : list (list byte)) : Prop :=
  mjoin (Buffer_toString <$> chunks) = Buffer_toString (mjoin chunks).

(** The bookkeeping is consistent: an entry of [pendingRequests] owns a
    pending promise and an armed timer that points back to it, every armed
    timer belongs to an entry, no two entries share a promise, and handles
    are below the counters. *)
Record WF (w : World) : Prop := {
  wf_entry : forall id request,
    pendingRequests w !! id = Some request ->
    promises w !! promise request = Some Pending /\
    exists d, timers w !! timeout request =
              Some {| deadline := d; timer_requestId := id;
                      timer_reject := promise request |};
  wf_timer : forall t tm,
    timers w !! t = Some tm ->
    pendingRequests w !! timer_requestId tm =
    Some {| promise := timer_reject tm; timeout := t |};
  wf_promise : forall id1 id2 r1 r2,
    pendingRequests w !! id1 = Some r1 ->
    pendingRequests w !! id2 = Some r2 ->
    promise r1 = promise r2 -> id1 = id2;
  wf_next_promise : forall p, is_Some (promises w !! p) -> p < next_promise w;
  wf_next_timer : forall t, is_Some (timers w !! t) -> t < next_timer w;
}.

(** The request ids of a run are distinct: every call draws an id that is
    not in use when it is made. *)
Definition fresh_call (w : World) (ev : Event) : Prop :=
  match ev with
  | CallTool _ _ now random _ => pendingRequests w !! requestId_of now random = None
  | _ => True
  end.

Fixpoint along (P : World -> Event -> Prop) (w : World) (evs : list Event) : Prop :=
  match evs with
  | [] => True
  | ev :: rest => P w ev /\ along P (step w ev) rest
  end.

(** What one invocation of [callTool] is given: its arguments and what
    [Date.now()] and [Math.random()] return to it. *)
Record Invocation := {
  inv_tool : jsstring;
  inv_args : json;
  inv_now : Z;
  inv_random : Qc;
}.

Definition inv_id (c : Invocation) : Qc := requestId_of (inv_now c) (inv_random c).

Definition invoke (c : Invocation) (w : World) : World * Started :=
  callTool_start (inv_tool c) (inv_args c) (inv_now c) (inv_random c) true w.

(** Several callers enter [callTool] one after the other, each running up
    to its [await]. *)
Fixpoint invoke_all (cs : list Invocation) (w : World) : World * list Started :=
  match cs with
  | [] => (w, [])
  | c :: rest =>
    let '(w1, st) := invoke c w in
    let '(w2, sts) := invoke_all rest w1 in
    (w2, st :: sts)
  end.

(** An event that leaves the request [id], due at [due_at], unanswered: no
    response with that id is dispatched, the subprocess stays up, the
    deadline is not reached, and other calls draw ids not in use. *)
Definition unanswered (id : Qc) (due_at : Z) (w : World) (ev : Event) : Prop :=
  match ev with
  | CallTool _ _ now random _ => pendingRequests w !! requestId_of now random = None
  | Stdout data => Forall (fun r => id_of r <> Some (JNum id)) (dispatched w data)
  | Elapse now => (now < due_at)%Z
  | ProcessError _ | ProcessExit _ | Disconnect => False
  | Connect _ | ConnectResume => True
  end.

(** The error with which the handlers of [error] and [exit] reject. *)
Definition death (ev : Event) : option Error :=
  match ev with
  | ProcessError e => Some e
  | ProcessExit code =>
    Some {| message := lit "MCP process exited with code " ++ exit_code code |}
  | _ => None
  end.

End MCPClient.

(* ===================================================================== *)
(** * Part IV.  LocalMacOSClient (backend/src/services/localMacOSClient.ts) *)
(* ===================================================================== *)

Module LocalMacOSClient.
Import JS MCP.

Section Client.
Context `{Builtins} {W : Type}.

(** The operating system as the client meets it; [W] is its state. *)
Record Host := {
  (** [execAsync(command)] resolves with the standard output or rejects *)
  execAsync : jsstring -> Eff W jsstring;
  readFileSync : jsstring -> Eff W (list byte);
  unlinkSync : jsstring -> Eff W ();
  Date_now : W -> W * Z;
  tmpdir : jsstring;
}.

Context (host : Host).

Definition now : Eff W Z := fun w => let '(w', t) := Date_now host w in (w', inr t).

(** [throw new Error(prefix + error.message)] in a [catch (error)]. *)
Definition rethrow {A} (prefix : string) (suffix : string) (m : Eff W A) : Eff W A :=
  catch m (fun e => throw {| message := lit prefix ++ message e ++ lit suffix |}).

Definition PROFILER : string := "system_profiler SPDisplaysDataType | grep Resolution".

(** [stdout.match(/(\d+) x (\d+)/)] : the two groups of the leftmost match. *)
Fixpoint match_resolution (s : jsstring) : option (jsstring * jsstring) :=
  let here :=
    let '(w, r) := take_digits s [] in
    if bool_decide (w = []) then None
    else r' ← strip_prefix [32; 120; 32]%N r;
         let '(h, _) := take_digits r' [] in
         if bool_decide (h = []) then None else Some (w, h) in
  match here with
  | Some m => Some m
  | None => match s with [] => None | _ :: s' => match_resolution s' end
  end.

Definition takeScreenshot : Eff W MCPToolResult :=
  rethrow "Failed to take screenshot: " ""
    (t ← now;
     let filename := lit "screenshot_" ++ dec t ++ lit ".png" in
     let filepath := path_join (tmpdir host) filename in
     _ ← execAsync host (lit "screencapture -x " ++ [QUOTE] ++ filepath ++ [QUOTE]);
     imageData_ ← readFileSync host filepath;
     let base64Data := base64 imageData_ in
     _ ← unlinkSync host filepath;
     stdout ← execAsync host (lit PROFILER);
     let resolutionMatch := match_resolution stdout in
     let width := match resolutionMatch with Some m => parseInt m.1 | None => num_of_Z 1920 end in
     let height := match resolutionMatch with Some m => parseInt m.2 | None => num_of_Z 1080 end in
     mret {| success := true; data := None; error := None;
             imageData := Some (JStr base64Data); toolName := None;
             content := Some (JStr (lit "Screenshot taken successfully. Screen resolution: "
                                    ++ show_Num width ++ lit "x" ++ show_Num height)) |}).

Definition succeeded (text : jsstring) : MCPToolResult :=
  {| success := true; data := None; error := None; imageData := None;
     toolName := None; content := Some (JStr text) |}.

(** A binding [k = d] of [const { ... } = args]. *)
Definition destructure (args : json) (k : string) (d : jsval) : Eff W jsval :=
  match args with
  | JNull =>
    throw {| message := lit "Cannot destructure property '" ++ lit k
                        ++ lit "' of 'args' as it is null." |}
  | JObj m => mret (match assoc (lit k) m with None => d | v => v end)
  | _ => mret d
  end.

Definition mouseClick (args : json) : Eff W MCPToolResult :=
  x ← destructure args "x" None;
  y ← destructure args "y" None;
  source_width ← destructure args "source_width" (Some (jnum 1366));
  source_height ← destructure args "source_height" (Some (jnum 768));
  if bool_decide (x = None) || bool_decide (y = None) then
    throw {| message := lit "x and y coordinates are required" |}
  else
    catch
      (stdout ← execAsync host (lit PROFILER);
       let resolutionMatch := match_resolution stdout in
       let actualWidth := match resolutionMatch with Some m => parseInt m.1 | None => num_of_Z 1920 end in
       let actualHeight := match resolutionMatch with Some m => parseInt m.2 | None => num_of_Z 1080 end in
       let scaledX := round_scaled x source_width actualWidth in
       let scaledY := round_scaled y source_height actualHeight in
       _ ← execAsync host (lit "cliclick c:" ++ show_Num scaledX ++ lit "," ++ show_Num scaledY);
       mret (succeeded (lit "Mouse clicked at (" ++ show_Num scaledX ++ lit ", "
                        ++ show_Num scaledY ++ lit ") - scaled from source ("
                        ++ to_String x ++ lit ", " ++ to_String y ++ lit ")")))
      (fun error_ =>
         catch
           (let scaledX := round_scaled x source_width (num_of_Z 1920) in
            let scaledY := round_scaled y source_height (num_of_Z 1080) in
            _ ← execAsync host
                  (lit "osascript -e 'tell application " ++ [QUOTE] ++ lit "System Events"
                   ++ [QUOTE] ++ lit " to click at {" ++ show_Num scaledX ++ lit ", "
                   ++ show_Num scaledY ++ lit "}'");
            mret (succeeded (lit "Mouse clicked at (" ++ show_Num scaledX ++ lit ", "
                             ++ show_Num scaledY ++ lit ") using AppleScript fallback")))
           (fun _ =>
              throw {| message := lit "Failed to click mouse: " ++ message error_
                         ++ lit ". Try installing cliclick with: brew install cliclick" |})).

Definition keyMap : list (jsstring * jsstring) :=
  [(lit "enter", lit "return"); (lit "return", lit "return");
   (lit "backspace", lit "delete"); (lit "delete", lit "forward delete");
   (lit "tab", lit "tab"); (lit "space", lit "space"); (lit "escape", lit "escape");
   (lit "up", lit "up arrow"); (lit "down", lit "down arrow");
   (lit "left", lit "left arrow"); (lit "right", lit "right arrow")].

(** [`${keyMap[special_key] || special_key}`]. *)
Definition macKey (special_key : jsval) : jsstring :=
  let k := to_String special_key in
  match (list_to_map keyMap : gmap jsstring jsstring) !! k with
  | Some m => m
  | None =>
    match inherited k with
    | Some m => m
    | None => k
    end
  end.

(** A method of [String.prototype] called on [v]. *)
Definition as_string (v : jsval) (what : string) : Eff W jsstring :=
  match v with
  | Some (JStr s) => mret s
  | _ => throw {| message := lit what ++ lit " is not a function" |}
  end.

Definition keystroke (text : jsstring) : jsstring :=
  lit "osascript -e 'tell application " ++ [QUOTE] ++ lit "System Events" ++ [QUOTE]
  ++ lit " to keystroke " ++ [QUOTE] ++ text ++ [QUOTE] ++ lit "'".

Definition sendKeys (args : json) : Eff W MCPToolResult :=
  text ← destructure args "text" None;
  special_key ← destructure args "special_key" None;
  key_combo ← destructure args "key_combo" None;
  rethrow "Failed to send keys: " ""
    (if truthy text then
       str ← as_string text "text.replace";
       let escapedText := replace_all 92 [92; 92]%N (replace_all 34 [92; 34]%N str) in
       _ ← execAsync host (keystroke escapedText);
       mret (succeeded (lit "Typed text: " ++ [QUOTE] ++ str ++ [QUOTE]))
     else if truthy special_key then
       _ ← execAsync host
             (lit "osascript -e 'tell application " ++ [QUOTE] ++ lit "System Events"
              ++ [QUOTE] ++ lit " to key code (key code of " ++ [QUOTE]
              ++ macKey special_key ++ [QUOTE] ++ lit ")'");
       mret (succeeded (lit "Pressed special key: " ++ to_String special_key))
     else if truthy key_combo then
       str ← as_string key_combo "key_combo.toLowerCase";
       let combo := replace_all 43 [32]%N (toLowerCase str) in
       _ ← execAsync host (keystroke combo);
       mret (succeeded (lit "Pressed key combination: " ++ str))
     else
       throw {| message := lit "Either text, special_key, or key_combo must be provided" |}).

Definition openApplication (args : json) : Eff W MCPToolResult :=
  identifier ← destructure args "identifier" None;
  if truthy identifier then
    catch
      (_ ← execAsync host (lit "open -a " ++ [QUOTE] ++ to_String identifier ++ [QUOTE]);
       mret (succeeded (lit "Successfully opened application: " ++ to_String identifier)))
      (fun e =>
         throw {| message := lit "Failed to open application " ++ [QUOTE]
                    ++ to_String identifier ++ [QUOTE] ++ lit ": " ++ message e |})
  else throw {| message := lit "Application identifier is required" |}.

(** [callTool] of a client whose field [connected] holds [connected]. *)
Definition callTool (connected : bool) (tool : jsstring) (args : json)
  : Eff W MCPToolResult :=
  if negb connected then throw {| message := lit "Local macOS client not connected" |}
  else
    catch
      (if bool_decide (tool = lit "remote_macos_get_screen") then takeScreenshot
       else if bool_decide (tool = lit "remote_macos_mouse_click") then mouseClick args
       else if bool_decide (tool = lit "remote_macos_send_keys") then sendKeys args
       else if bool_decide (tool = lit "remote_macos_open_application") then openApplication args
       else throw {| message := lit "Unknown tool: " ++ tool |})
      (fun e =>
         mret {| success := false; data := None;
                 error := Some (JStr (lit "Error executing " ++ tool ++ lit ": " ++ message e));
                 imageData := None; toolName := None; content := None |}).

(** A Tool Result that [callTool] gives to its caller. *)
Definition produces (tool : jsstring) (r : MCPToolResult) : Prop :=
  exists connected args w w', callTool connected tool args w = (w', inr r).

(** ** The client as an object *)

(** The fields of a [LocalMacOSClient]. *)
Record Client := {
  connected : bool;
  tools : list MCPTool;
}.

(** [new LocalMacOSClient()]. *)
Definition new : Client := {| connected := false; tools := [] |}.

(** The catalog [loadTools] installs. *)
Definition catalog : list MCPTool :=
  let coordinate (what : string) : json :=
    JObj [(lit "type", jstr "integer"); (lit "description", jstr what)] in
  let scaling (what : string) (by_default : Z) : json :=
    JObj [(lit "type", jstr "integer"); (lit "description", jstr what);
          (lit "default", jnum by_default)] in
  let text (what : jsstring) : json :=
    JObj [(lit "type", jstr "string"); (lit "description", JStr what)] in
  [ {| name := lit "remote_macos_get_screen";
       description := lit "Take a screenshot of the local macOS desktop";
       inputSchema :=
         JObj [(lit "type", jstr "object"); (lit "properties", JObj []);
               (lit "required", JArr [])] |};
    {| name := lit "remote_macos_mouse_click";
       description := lit "Click at specified coordinates on the local macOS screen";
       inputSchema :=
         JObj [(lit "type", jstr "object");
               (lit "properties",
                JObj [(lit "x", coordinate "X coordinate to click");
                      (lit "y", coordinate "Y coordinate to click");
                      (lit "source_width",
                       scaling "Source screen width for coordinate scaling" 1366%Z);
                      (lit "source_height",
                       scaling "Source screen height for coordinate scaling" 768%Z);
                      (lit "button",
                       scaling "Mouse button: 1=left, 2=middle, 3=right" 1%Z)]);
               (lit "required", JArr [jstr "x"; jstr "y"])] |};
    {| name := lit "remote_macos_send_keys";
       description := lit "Send keyboard input to the local macOS system";
       inputSchema :=
         JObj [(lit "type", jstr "object");
               (lit "properties",
                JObj [(lit "text", text (lit "Text to type"));
                      (lit "special_key",
                       JObj [(lit "type", jstr "string");
                             (lit "description", jstr "Special key to press");
                             (lit "enum",
                              JArr [jstr "enter"; jstr "return"; jstr "backspace";
                                    jstr "delete"; jstr "tab"; jstr "space";
                                    jstr "escape"; jstr "up"; jstr "down";
                                    jstr "left"; jstr "right"])]);
                      (lit "key_combo",
                       text (lit "Key combination like " ++ [QUOTE] ++ lit "cmd+c"
                             ++ [QUOTE] ++ lit ", " ++ [QUOTE] ++ lit "cmd+v"
                             ++ [QUOTE] ++ lit ", etc."))])] |};
    {| name := lit "remote_macos_open_application";
       description := lit "Open an application on the local macOS system";
       inputSchema :=
         JObj [(lit "type", jstr "object");
               (lit "properties",
                JObj [(lit "identifier", text (lit "Application name or path"))]);
               (lit "required", JArr [jstr "identifier"])] |} ].

Definition loadTools (c : Client) : Client :=
  {| connected := connected c; tools := catalog |}.

(** [connect] on a machine whose [process.platform] is [platform].  Its
    [catch] logs and throws the same error again; when it throws, no field
    has been assigned yet. *)
Definition connect (platform : jsstring) (c : Client) : Eff W Client :=
  if negb (str_eqb platform (lit "darwin")) then
    throw {| message := lit "LocalMacOSClient only works on macOS" |}
  else
    _ ← execAsync host (lit "which screencapture");
    let c := loadTools c in
    mret {| connected := true; tools := tools c |}.

Definition listTools (c : Client) : list MCPTool := tools c.

Definition isConnected (c : Client) : bool := connected c.

Definition disconnect (c : Client) : Client :=
  {| connected := false; tools := tools c |}.

(** [width] and [height] of the object [getScreenDimensions] returns;
    [None] is its [null]. *)
Definition getScreenDimensions : Eff W (option (Num * Num)) :=
  catch
    (stdout ← execAsync host (lit PROFILER);
     match match_resolution stdout with
     | Some m => mret (Some (parseInt m.1, parseInt m.2))
     | None => mret (Some (num_of_Z 1920, num_of_Z 1080))
     end)
    (fun _ => mret None).

End Client.

(** The payload of a Tool Result of this client: [error] alone on failure;
    on success no [error], always [content], and [imageData] as well for
    the screenshot tool and for no other. *)
Definition payload_shape (tool : jsstring) (r : MCPToolResult) : bool :=
  if success r
  then negb (populated (error r)) && populated (content r)
       && eqb (populated (imageData r))
              (bool_decide (tool = lit "remote_macos_get_screen"))
  else only_error r.

End LocalMacOSClient.

(* ===================================================================== *)
(** * Part V.  LLMService: conversation history                           *)
(**   (backend/src/services/llmService.ts)                                *)
(* ===================================================================== *)

Module LLMService.
Import JS MCP.

Inductive Role := system | user | assistant.

Record ConversationMessage := {
  role : Role;
  content : jsstring;
  timestamp : Z;
}.

Record LLMResponse := {
  response_content : jsstring;
  toolCalls : option (list MCPToolCall);
  requiresTools : bool;
  streaming : option bool;
}.

Definition MAX_CONTEXT_MESSAGES : nat := 20.

(** The field [conversations]. *)
Abbreviation Conversations := (gmap jsstring (list ConversationMessage)).

Definition getConversationContext (sessionId : jsstring) (conversations : Conversations)
  : list ConversationMessage :=
  default [] (conversations !! sessionId).

(** [context.splice(0, n)] leaves [drop n context]. *)
Definition addToConversationContext (sessionId : jsstring)
    (message : ConversationMessage) (conversations : Conversations) : Conversations :=
  let context := default [] (conversations !! sessionId) ++ [message] in
  let context :=
    if MAX_CONTEXT_MESSAGES <? length context
    then drop (length context - MAX_CONTEXT_MESSAGES) context
    else context in
  <[sessionId := context]> conversations.

Definition clearConversationContext (sessionId : jsstring) (conversations : Conversations)
  : Conversations :=
  delete sessionId conversations.

(** ** Requests to the model

    The chat completions API as the OpenAI SDK types it. *)

Record ChatCompletionMessageParam := {
  param_role : Role;
  param_content : jsstring;
}.

(** [{type: 'function', function: {name, description, parameters}}]. *)
Record ChatCompletionTool := {
  function_name : jsstring;
  function_description : jsstring;
  function_parameters : json;
}.

Record ChatCompletionCreateParams := {
  model : jsstring;
  messages : list ChatCompletionMessageParam;
  temperature : Qc;
  max_tokens : Z;
  tools : option (list ChatCompletionTool);
  tool_choice : option jsstring;
}.

(** [{function: {name, arguments}}], the arguments being a JSON text. *)
Record ToolCall := {
  call_function_name : jsstring;
  call_function_arguments : jsstring;
}.

(** [content] is a string or [null]; [tool_calls] may be missing. *)
Record ChatCompletionMessage := {
  message_content : option jsstring;
  tool_calls : option (list ToolCall);
}.

Record Choice := { choice_message : option ChatCompletionMessage }.

Record ChatCompletion := { choices : list Choice }.

(** [config.llm]: [openrouterApiKey] is a string, empty when the variable
    is not set; [openaiApiKey] may be missing. *)
Record Config := {
  openrouterApiKey : jsstring;
  openaiApiKey : option jsstring;
}.

(** The client the constructor makes: [new OpenAI({apiKey, baseURL})] for
    OpenRouter, [new OpenAI({apiKey})] for OpenAI. *)
Inductive Client :=
| OpenRouterClient (apiKey : jsstring)
| OpenAIClient (apiKey : jsstring).

(** What is logged and called, one constructor for each place. *)
Inductive Entry :=
| Requested (client : Client) (params : ChatCompletionCreateParams)
| Slept (ms : Z)
| AttemptFailed (attempt : Z) (e : Error)
| ProcessingFailed (e : Error)
| FollowUpFailed (e : Error).

Definition MAX_RETRIES : Z := 3.
Definition RETRY_DELAY_MS : Z := 1000.

(** [a || b] for a string that may be [null] or missing. *)
Definition or_text (a : option jsstring) (b : string) : jsstring :=
  match a with
  | Some s => if bool_decide (s = []) then lit b else s
  | None => lit b
  end.

(** [parts.join(separator)]. *)
Fixpoint join_with (separator : jsstring) (parts : list jsstring) : jsstring :=
  match parts with
  | [] => []
  | [x] => x
  | x :: rest => x ++ separator ++ join_with separator rest
  end.

Definition getEnhancedSystemPrompt (availableTools : list MCPTool) : jsstring :=
  lit "You are an advanced AI assistant specialized in controlling macOS systems through natural language commands. You have access to powerful tools that allow you to:

🖥️ **Screen Control:**
- Take screenshots to see what's currently displayed
- Analyze UI elements and layout

🖱️ **Mouse & Interaction:**
- Click on specific coordinates or UI elements
- Perform double-clicks, right-clicks
- Drag and drop operations
- Scroll in any direction

⌨️ **Keyboard Control:**
- Type any text or special characters
- Send keyboard shortcuts (cmd+c, cmd+v, etc.)
- Press special keys (enter, tab, esc, etc.)

🚀 **Application Management:**
- Launch and switch between applications
- Open specific applications by name

**Available Tools:** "
  ++ join_with (lit ", ")
       ((fun t => name t ++ lit " - " ++ description t) <$> availableTools)
  ++ lit "

**CRITICAL: You CAN and SHOULD use tools to perform actions on the user's Mac. Do NOT give conversational responses when the user asks you to do something - USE THE TOOLS!**

**Multi-Step Task Handling:**
For complex requests with multiple steps (like "
  ++ [QUOTE]
  ++ lit "Take a screenshot, then open Finder, navigate to Applications..."
  ++ [QUOTE]
  ++ lit "):
1. If the request starts with "
  ++ [QUOTE]
  ++ lit "Take a screenshot"
  ++ [QUOTE]
  ++ lit " or similar, ONLY call the screenshot tool first
2. For continuation requests, identify the NEXT SPECIFIC ACTION needed and execute it using tools
3. Always use tools when the user requests actions - never give explanatory responses about what they "
  ++ [QUOTE]
  ++ lit "could"
  ++ [QUOTE]
  ++ lit " do

**Tool Usage Priority:**
- When asked to "
  ++ [QUOTE]
  ++ lit "open"
  ++ [QUOTE]
  ++ lit " something → USE remote_macos_open_application 
- When asked to "
  ++ [QUOTE]
  ++ lit "click"
  ++ [QUOTE]
  ++ lit " something → USE remote_macos_mouse_click
- When asked to "
  ++ [QUOTE]
  ++ lit "type"
  ++ [QUOTE]
  ++ lit " something → USE remote_macos_send_keys
- When asked to "
  ++ [QUOTE]
  ++ lit "take screenshot"
  ++ [QUOTE]
  ++ lit " → USE remote_macos_get_screen

**Best Practices:**
1. Always take a screenshot first if you need to see the current state
2. Be precise with coordinates when clicking
3. USE TOOLS to perform actions, don't just explain what to do
4. After using tools, acknowledge what you actually did
5. For multi-step tasks, execute the immediate next action using available tools

**Interaction Style:**
- EXECUTE actions using tools rather than explaining them
- Be direct about what you accomplished
- Use tools confidently when users request actions
- Only ask for clarification if the request is genuinely unclear

**Important:** When a user requests ANY action that can be performed with available tools, USE THE TOOLS immediately. Do not give instructions or explanations unless tools are not available or fail.

Remember: You're actively controlling the user's Mac. Use the tools to perform the requested actions!".

Definition convertMCPToolsToOpenAIFormat (availableTools : list MCPTool)
  : list ChatCompletionTool :=
  (fun tool => {| function_name := name tool;
                  function_description := description tool;
                  function_parameters := inputSchema tool |}) <$> availableTools.

Section Service.
Context `{Builtins} {W : Type}.

(** The world outside the service; [W] is its state. *)
Record Api := {
  (** [client.chat.completions.create(params)] resolves or rejects *)
  create : Client -> ChatCompletionCreateParams -> Eff W ChatCompletion;
  (** [await new Promise(resolve => setTimeout(resolve, ms))] *)
  sleep : Z -> W -> W;
  Date_now : W -> W * Z;
  (** the [SyntaxError] that [JSON.parse] throws on a text *)
  SyntaxError_of : jsstring -> Error;
}.

Context (api : Api) (config : Config).

(** The field [openai] as the constructor sets it. *)
Definition openai : option Client :=
  if negb (bool_decide (openrouterApiKey config = [])) then
    Some (OpenRouterClient (openrouterApiKey config))
  else
    match openaiApiKey config with
    | Some key =>
      if negb (bool_decide (key = [])) then Some (OpenAIClient key) else None
    | None => None
    end.

(** The service: its [conversations], the world behind the API, and the
    record of what it logged and called, oldest first. *)
Record State := {
  world : W;
  conversations : Conversations;
  trace : list Entry;
}.

Definition record (e : Entry) : Eff State () :=
  fun st => ({| world := world st; conversations := conversations st;
                trace := trace st ++ [e] |}, inr ()).

Definition request (client : Client) (params : ChatCompletionCreateParams)
  : Eff State ChatCompletion :=
  fun st =>
    let '(w, r) := create api client params (world st) in
    ({| world := w; conversations := conversations st;
        trace := trace st ++ [Requested client params] |}, r).

Definition wait (ms : Z) : Eff State () :=
  fun st => ({| world := sleep api ms (world st); conversations := conversations st;
                trace := trace st ++ [Slept ms] |}, inr ()).

Definition now : Eff State Z :=
  fun st =>
    let '(w, t) := Date_now api (world st) in
    ({| world := w; conversations := conversations st; trace := trace st |}, inr t).

Definition context_of (sessionId : jsstring) : Eff State (list ConversationMessage) :=
  fun st => (st, inr (getConversationContext sessionId (conversations st))).

Definition remember (sessionId : jsstring) (message : ConversationMessage)
  : Eff State () :=
  fun st =>
    ({| world := world st;
        conversations := addToConversationContext sessionId message (conversations st);
        trace := trace st |}, inr ()).

(** [response.choices[0]], then a property read on it. *)
Definition first_choice (response : ChatCompletion) : Eff State Choice :=
  match choices response with
  | choice :: _ => mret choice
  | [] => throw (TypeError_read None (lit "message"))
  end.

Definition model_of : jsstring :=
  if negb (bool_decide (openrouterApiKey config = []))
  then lit "openai/gpt-4-turbo-preview" else lit "gpt-4-turbo-preview".

Definition handleStreamingResponse (client : Client)
    (requestParams : ChatCompletionCreateParams) : Eff State LLMResponse :=
  response ← request client requestParams;
  choice ← first_choice response;
  mret {| response_content :=
            or_text (choice_message choice ≫= message_content)
                    "I'm not sure how to respond to that.";
          toolCalls := None; requiresTools := false; streaming := Some false |}.

(** [JSON.parse(call.function.arguments || '{}')]. *)
Definition parse_arguments (text : jsstring) : Eff State json :=
  let text := if bool_decide (text = []) then lit "{}" else text in
  match JSON_parse text with
  | Some v => mret v
  | None => throw (SyntaxError_of api text)
  end.

(** [calls.map(f)] for an [f] that may throw. *)
Fixpoint map_calls (calls : list ToolCall) : Eff State (list MCPToolCall) :=
  match calls with
  | [] => mret []
  | call :: rest =>
    arguments ← parse_arguments (call_function_arguments call);
    later ← map_calls rest;
    mret ({| call_name := call_function_name call; call_arguments := arguments |}
          :: later)
  end.

(** The [try] block of one turn of the loop of [callLLMWithRetry]. *)
Definition attempt (client : Client) (messages_ : list ChatCompletionMessageParam)
    (tools_ : list ChatCompletionTool) (streaming_ : bool) : Eff State LLMResponse :=
  let requestParams :=
    {| model := model_of; messages := messages_;
       temperature := Q2Qc (1 # 10); max_tokens := 2000;
       tools := if 0 <? length tools_ then Some tools_ else None;
       tool_choice := if 0 <? length tools_ then Some (lit "auto") else None |} in
  if streaming_ && (length tools_ =? 0) then
    handleStreamingResponse client requestParams
  else
    response ← request client requestParams;
    choice ← first_choice response;
    match choice_message choice with
    | None => throw {| message := lit "No response from LLM" |}
    | Some message_ =>
      match tool_calls message_ with
      | Some (call :: calls) =>
        toolCalls_ ← map_calls (call :: calls);
        mret {| response_content := or_text (message_content message_) "Executing tools...";
                toolCalls := Some toolCalls_; requiresTools := true;
                streaming := None |}
      | _ =>
        mret {| response_content :=
                  or_text (message_content message_)
                          "I'm not sure how to respond to that.";
                toolCalls := None; requiresTools := false; streaming := None |}
      end
    end.

(** The loop of [callLLMWithRetry] from turn [attempt_] on, with
    [remaining] turns to go. *)
Fixpoint retry (remaining : nat) (attempt_ : Z) (lastError : option Error)
    (turn : Eff State LLMResponse) : Eff State LLMResponse :=
  match remaining with
  | O =>
    throw (default {| message := lit "All LLM retry attempts failed" |} lastError)
  | S remaining' =>
    catch turn
      (fun e =>
         _ ← record (AttemptFailed attempt_ e);
         _ ← (if (attempt_ <? MAX_RETRIES)%Z then wait (RETRY_DELAY_MS * attempt_)
              else mret ());
         retry remaining' (attempt_ + 1) (Some e) turn)
  end.

Definition callLLMWithRetry (client : Client)
    (messages_ : list ChatCompletionMessageParam)
    (tools_ : list ChatCompletionTool) (streaming_ : bool) : Eff State LLMResponse :=
  retry (Z.to_nat MAX_RETRIES) 1 None (attempt client messages_ tools_ streaming_).

Definition processMessage (message_ : jsstring) (availableTools : list MCPTool)
    (sessionId : jsstring) (streaming_ : bool) : Eff State LLMResponse :=
  catch
    (match openai with
     | None => throw {| message := lit "No LLM provider configured" |}
     | Some client =>
       context ← context_of sessionId;
       let tools_ := convertMCPToolsToOpenAIFormat availableTools in
       let messages_ :=
         {| param_role := system;
            param_content := getEnhancedSystemPrompt availableTools |}
         :: ((fun msg => {| param_role := role msg; param_content := content msg |})
             <$> context)
         ++ [{| param_role := user; param_content := message_ |}] in
       t ← now;
       _ ← remember sessionId {| role := user; content := message_; timestamp := t |};
       response ← callLLMWithRetry client messages_ tools_ streaming_;
       t' ← now;
       _ ← remember sessionId {| role := assistant; content := response_content response;
                                 timestamp := t' |};
       mret response
     end)
    (fun e => _ ← record (ProcessingFailed e); throw e).

(** [`${r.toolName}`] and the same inside [join]. *)
Definition shown (toolName_ : option jsstring) : jsstring :=
  default (lit "undefined") toolName_.

Definition joined (toolName_ : option jsstring) : jsstring :=
  default [] toolName_.

Definition toolSummary (toolResults : list MCPToolResult) : jsstring :=
  let successfulTools := filter (fun r => success r = true) toolResults in
  let failedTools := filter (fun r => success r = false) toolResults in
  (if 0 <? length successfulTools then
     lit "✅ Successfully executed: "
     ++ join_with (lit ", ") ((fun r => joined (toolName r)) <$> successfulTools) ++ [LF]
   else [])
  ++ (if 0 <? length failedTools then
        lit "❌ Failed to execute: "
        ++ join_with (lit ", ")
             ((fun r => shown (toolName r) ++ lit " (" ++ to_String (error r) ++ lit ")")
              <$> failedTools) ++ [LF]
      else []).

Definition generateFollowUpResponse (originalMessage : jsstring)
    (toolResults : list MCPToolResult) (availableTools : list MCPTool)
    (sessionId : jsstring) : Eff State LLMResponse :=
  catch
    (match openai with
     | None => throw {| message := lit "No LLM provider configured" |}
     | Some client =>
       let messages_ :=
         [{| param_role := system;
             param_content := lit "You are an AI assistant that just executed tools to help the user. Provide a helpful summary of what was accomplished and offer relevant next steps or ask if the user needs anything else. Be conversational and supportive." |};
          {| param_role := user;
             param_content :=
               lit "Original request: " ++ [QUOTE] ++ originalMessage ++ [QUOTE] ++ lit "

Tool execution results:
" ++ toolSummary toolResults ++ lit "

Please provide a helpful summary and suggest what the user might want to do next." |}] in
       response ← request client
                    {| model := model_of; messages := messages_;
                       temperature := Q2Qc (3 # 10); max_tokens := 500;
                       tools := None; tool_choice := None |};
       choice ← first_choice response;
       let content_ := or_text (choice_message choice ≫= message_content)
                               "Task completed successfully!" in
       t ← now;
       _ ← remember sessionId {| role := assistant; content := content_; timestamp := t |};
       mret {| response_content := content_; toolCalls := None; requiresTools := false;
               streaming := None |}
     end)
    (fun e =>
       _ ← record (FollowUpFailed e);
       mret {| response_content := lit "Task completed."; toolCalls := None;
               requiresTools := false; streaming := None |}).

(** What was logged and called between two states. *)
Definition since (st st' : State) : list Entry :=
  drop (length (trace st)) (trace st').

End Service.

(** The requests made and the delays waited, oldest first. *)
Definition requests (tr : list Entry) : list ChatCompletionCreateParams :=
  omap (fun e => match e with Requested _ params => Some params | _ => None end) tr.

Definition delays (tr : list Entry) : list Z :=
  omap (fun e => match e with Slept ms => Some ms | _ => None end) tr.

Definition failures (tr : list Entry) : list Error :=
  omap (fun e => match e with AttemptFailed _ e => Some e | _ => None end) tr.

End LLMService.

(* ===================================================================== *)
(** * Part VI.  ChatService (backend/src/services/chatService.ts)         *)
(* ===================================================================== *)

Module ChatService.
Import JS.
Import LLMService (LLMResponse, response_content, toolCalls, requiresTools).
Import MCP (MCPTool, MCPToolCall, MCPToolResult, call_name, call_arguments).

Inductive ResponseType :=
| type_text | type_image | type_error | type_tool_execution | type_typing.

Record ChatResponse := {
  content : jsstring;
  type : ResponseType;
  imageData : jsval;
  toolName : option jsstring;
  sessionId : option jsstring;
  timestamp : option Z;
}.

Record ChatSession := {
  id : jsstring;
  createdAt : Z;
  lastActivity : Z;
  messageCount : Z;
}.

(** The calls of [logger], one constructor for each call in the methods
    below, with the values the message is built from. *)
Inductive LogEntry :=
| AvailableTools (tools : list MCPTool)
| ProcessingError (e : Error)
| ExecutingTool (toolCall : MCPToolCall)
| ToolSucceeded (tool : jsstring)
| ToolFailed (tool : jsstring) (e : jsval)
| ToolError (tool : jsstring) (e : Error)
| MultiStepDetected
| ContinuationPrompt (prompt : jsstring)
| ContinuationResponse (response : LLMResponse)
| ExecutingContinuationTool (toolCall : MCPToolCall)
| ContinuationToolSucceeded (tool : jsstring)
| ContinuationToolFailed (tool : jsstring) (e : jsval)
| ContinuationToolError (tool : jsstring) (e : Error)
| GeneratingFinal (total : nat)
| AnalysisWithoutTools (text : jsstring)
| ContinuationError (e : Error).

(** The calls made to the two collaborators. *)
Inductive Call :=
| ListTools
| CallTool (tool : jsstring) (args : json)
| LLMProcessMessage (message : jsstring) (tools : list MCPTool) (session : jsstring)
| GenerateFollowUp (message : jsstring) (results : list MCPToolResult)
                   (tools : list MCPTool) (session : jsstring).

Inductive Entry :=
| Logged (e : LogEntry)
| Called (c : Call).

Section Service.
Context `{Builtins} {W : Type}.

(** [mcpClient : MCPClientInterface] and [llmService : LLMService] as the
    service meets them; [W] is the state behind them. *)
Record Collaborators := {
  mcp_listTools : Eff W (list MCPTool);
  mcp_callTool : jsstring -> json -> Eff W MCPToolResult;
  llm_processMessage : jsstring -> list MCPTool -> jsstring -> Eff W LLMResponse;
  llm_generateFollowUpResponse :
    jsstring -> list MCPToolResult -> list MCPTool -> jsstring -> Eff W LLMResponse;
  Date_now : W -> W * Z;
}.

Context (env : Collaborators).

(** The service: its [sessions], the state behind its collaborators, and
    the record of what it logged and called, oldest first. *)
Record State := {
  world : W;
  sessions : gmap jsstring ChatSession;
  trace : list Entry;
}.

Definition record (e : Entry) : Eff State () :=
  fun st => ({| world := world st; sessions := sessions st;
                trace := trace st ++ [e] |}, inr ()).

Definition log (e : LogEntry) : Eff State () := record (Logged e).

Definition call {A} (c : Call) (op : Eff W A) : Eff State A :=
  fun st =>
    let '(w, r) := op (world st) in
    ({| world := w; sessions := sessions st; trace := trace st ++ [Called c] |}, r).

Definition now : Eff State Z :=
  fun st =>
    let '(w, t) := Date_now env (world st) in
    ({| world := w; sessions := sessions st; trace := trace st |}, inr t).

Definition listTools : Eff State (list MCPTool) :=
  call ListTools (mcp_listTools env).

Definition callTool (tool : jsstring) (args : json) : Eff State MCPToolResult :=
  call (CallTool tool args) (mcp_callTool env tool args).

Definition llmProcessMessage (message : jsstring) (tools : list MCPTool)
    (session : jsstring) : Eff State LLMResponse :=
  call (LLMProcessMessage message tools session)
       (llm_processMessage env message tools session).

Definition generateFollowUpResponse (message : jsstring)
    (results : list MCPToolResult) (tools : list MCPTool) (session : jsstring)
  : Eff State LLMResponse :=
  call (GenerateFollowUp message results tools session)
       (llm_generateFollowUpResponse env message results tools session).

(** [for (const x of l) { b = body(b, x) }]. *)
Fixpoint for_each {A B} (body : B -> A -> Eff State B) (l : list A) (b : B)
  : Eff State B :=
  match l with
  | [] => mret b
  | x :: l' => b' ← body b x; for_each body l' b'
  end.

Definition updateSessionActivity (session : jsstring) : Eff State () :=
  fun st =>
    let '(w, t) := Date_now env (world st) in
    let updated :=
      match sessions st !! session with
      | Some s => {| id := id s; createdAt := createdAt s; lastActivity := t;
                     messageCount := messageCount s + 1 |}
      | None => {| id := session; createdAt := t; lastActivity := t;
                   messageCount := 1 |}
      end in
    ({| world := w; sessions := <[session := updated]> (sessions st);
        trace := trace st |}, inr ()).

Definition SCREENSHOT : jsstring := lit "remote_macos_get_screen".

Definition failed (tool : jsstring) (e : Error) : MCPToolResult :=
  {| MCP.success := false; MCP.data := None;
     MCP.error := Some (JStr (message e)); MCP.imageData := None;
     MCP.toolName := Some tool; MCP.content := None |}.

(** The local variables of [executeTools]. *)
Record Batch := {
  toolResults : list MCPToolResult;
  hasScreenshot : bool;
  screenshotData : jsval;
}.

Definition executeTool (b : Batch) (toolCall : MCPToolCall) : Eff State Batch :=
  _ ← log (ExecutingTool toolCall);
  catch
    (result ← callTool (call_name toolCall) (call_arguments toolCall);
     let captured := bool_decide (call_name toolCall = SCREENSHOT)
                     && MCP.success result && truthy (MCP.imageData result) in
     _ ← log (if MCP.success result then ToolSucceeded (call_name toolCall)
              else ToolFailed (call_name toolCall) (MCP.error result));
     mret {| toolResults := toolResults b ++ [result];
             hasScreenshot := if captured then true else hasScreenshot b;
             screenshotData := if captured then MCP.imageData result
                               else screenshotData b |})
    (fun e =>
       _ ← log (ToolError (call_name toolCall) e);
       mret {| toolResults := toolResults b ++ [failed (call_name toolCall) e];
               hasScreenshot := hasScreenshot b;
               screenshotData := screenshotData b |}).

Definition multiStepIndicators : list jsstring :=
  [lit "then"; lit "after"; lit "next"; lit "and then"; lit "followed by";
   lit "subsequently"; lit "navigate to"; lit "open"; lit "find"; lit "explore";
   lit "multiple"; lit "steps"; lit "first"; lit "second"; lit "finally";
   lit ","; lit "and also"].

Definition isMultiStepRequest (message : jsstring) : bool :=
  let lowerMessage := toLowerCase message in
  existsb (fun indicator => includes lowerMessage indicator) multiStepIndicators.

Definition generateScreenshotMessage (results : list MCPToolResult) : jsstring :=
  let failed_ := length (filter (fun r => MCP.success r = false) results) in
  if bool_decide (failed_ = 0) then lit "📸 Here's a screenshot of your Mac desktop:"
  else lit "📸 Screenshot captured, but " ++ dec (Z.of_nat failed_)
       ++ lit " operation(s) had issues. Here's what I can see:".

Definition continuationPrompt (originalMessage : jsstring) : jsstring :=
  lit "I have successfully taken a screenshot and now need to continue with this multi-step request: "
  ++ [QUOTE] ++ originalMessage ++ [QUOTE] ++ lit "

COMPLETED STEPS:
- ✅ Screenshot captured

REMAINING STEPS TO EXECUTE:
From the original request, I still need to: open Finder, navigate to Applications, find an unused app, open it, and explore its menus.

Based on the screenshot, execute the NEXT ACTION to continue this workflow. Use the available tools to perform the next step.".

Definition executeContinuationTool (results : list MCPToolResult)
    (toolCall : MCPToolCall) : Eff State (list MCPToolResult) :=
  _ ← log (ExecutingContinuationTool toolCall);
  catch
    (result ← callTool (call_name toolCall) (call_arguments toolCall);
     _ ← log (if MCP.success result then ContinuationToolSucceeded (call_name toolCall)
              else ContinuationToolFailed (call_name toolCall) (MCP.error result));
     mret (results ++
           [{| MCP.success := MCP.success result; MCP.data := MCP.data result;
               MCP.error := MCP.error result; MCP.imageData := MCP.imageData result;
               MCP.toolName := Some (call_name toolCall);
               MCP.content := MCP.content result |}]))
    (fun e =>
       _ ← log (ContinuationToolError (call_name toolCall) e);
       mret (results ++ [failed (call_name toolCall) e])).

Definition describeAction (r : MCPToolResult) : jsstring :=
  let named tool := bool_decide (MCP.toolName r = Some (lit tool)) in
  if named "remote_macos_get_screen" then lit "📸 Screenshot captured"
  else if named "remote_macos_open_application" then
    lit "🚀 Opened " ++ to_String (or_else (MCP.content r) (Some (jstr "application")))
  else if named "remote_macos_mouse_click" then lit "🖱️ Clicked on interface"
  else if named "remote_macos_send_keys" then lit "⌨️ Typed text"
  else lit "✅ " ++ default (lit "undefined") (MCP.toolName r) ++ lit " executed".

(** [parts.join('\n')]. *)
Fixpoint join_lines (parts : list jsstring) : jsstring :=
  match parts with
  | [] => []
  | [x] => x
  | x :: rest => x ++ LF :: join_lines rest
  end.

Definition continueMultiStepWorkflow (originalMessage : jsstring)
    (previousResults : list MCPToolResult) (screenshotData_ : jsval)
    (session : jsstring) : Eff State ChatResponse :=
  catch
    (_ ← log (ContinuationPrompt (continuationPrompt originalMessage));
     availableTools ← listTools;
     continuationResponse ←
       llmProcessMessage (continuationPrompt originalMessage) availableTools session;
     _ ← log (ContinuationResponse continuationResponse);
     match requiresTools continuationResponse, toolCalls continuationResponse with
     | true, Some calls =>
       nextToolResults ← for_each executeContinuationTool calls [];
       let allResults := previousResults ++ nextToolResults in
       _ ← log (GeneratingFinal (length allResults));
       let successfulActions := filter (fun r => MCP.success r = true) allResults in
       let actionsSummary := join_lines (describeAction <$> successfulActions) in
       let responseContent :=
         lit "✅ **Multi-step workflow in progress!**

I've successfully executed these actions:
" ++ actionsSummary ++ lit "

" ++ (if 1 <? length allResults then lit "Let me continue with the next steps..."
      else lit "Ready for the next step in your workflow!") in
       t ← now;
       mret {| content := responseContent; type := type_text; imageData := None;
               toolName := None; sessionId := Some session; timestamp := Some t |}
     | _, _ =>
       _ ← log (AnalysisWithoutTools (response_content continuationResponse));
       t ← now;
       mret {| content := lit "✅ **Screenshot captured!** "
                          ++ response_content continuationResponse;
               type := type_text; imageData := None; toolName := None;
               sessionId := Some session; timestamp := Some t |}
     end)
    (fun e =>
       _ ← log (ContinuationError e);
       t ← now;
       mret {| content := lit "📸 I took a screenshot as requested, but encountered an issue continuing with the remaining steps. Please let me know what you'd like me to do next!";
               type := type_image;
               imageData := or_else screenshotData_ None;
               toolName := Some SCREENSHOT;
               sessionId := Some session; timestamp := Some t |}).

(** [toolResults = []], [hasScreenshot = false], [screenshotData = null]. *)
Definition no_results : Batch :=
  {| toolResults := []; hasScreenshot := false; screenshotData := Some JNull |}.

Definition executeTools (llmResponse : LLMResponse) (originalMessage : jsstring)
    (session : jsstring) : Eff State ChatResponse :=
  match toolCalls llmResponse with
  | None => throw {| message := lit "llmResponse.toolCalls is not iterable" |}
  | Some calls =>
    b ← for_each executeTool calls no_results;
    let wasMultiStepRequest := isMultiStepRequest originalMessage in
    let onlyScreenshotExecuted := (length (toolResults b) =? 1) && hasScreenshot b in
    if wasMultiStepRequest && onlyScreenshotExecuted then
      _ ← log MultiStepDetected;
      continueMultiStepWorkflow originalMessage (toolResults b) (screenshotData b) session
    else if hasScreenshot b && truthy (screenshotData b) && negb wasMultiStepRequest then
      t ← now;
      mret {| content := generateScreenshotMessage (toolResults b);
              type := type_image; imageData := screenshotData b;
              toolName := Some SCREENSHOT;
              sessionId := Some session; timestamp := Some t |}
    else
      availableTools ← listTools;
      followUpResponse ←
        generateFollowUpResponse originalMessage (toolResults b) availableTools session;
      t ← now;
      mret {| content := response_content followUpResponse; type := type_text;
              imageData := None; toolName := None;
              sessionId := Some session; timestamp := Some t |}
  end.

Definition APOLOGY : jsstring :=
  lit "Sorry, I encountered an error processing your request. Please try again.".

(** The [try] block of [processMessage]. *)
Definition processMessage_try (message_ : jsstring) (session : jsstring)
  : Eff State ChatResponse :=
  _ ← updateSessionActivity session;
  availableTools ← listTools;
  _ ← log (AvailableTools availableTools);
  llmResponse ← llmProcessMessage message_ availableTools session;
  if requiresTools llmResponse && bool_decide (is_Some (toolCalls llmResponse)) then
    executeTools llmResponse message_ session
  else
    t ← now;
    mret {| content := response_content llmResponse; type := type_text;
            imageData := None; toolName := None;
            sessionId := Some session; timestamp := Some t |}.

Definition processMessage (message_ : jsstring) (session : jsstring)
  : Eff State ChatResponse :=
  catch (processMessage_try message_ session)
    (fun e =>
       _ ← log (ProcessingError e);
       t ← now;
       mret {| content := APOLOGY; type := type_error; imageData := None;
               toolName := None; sessionId := Some session; timestamp := Some t |}).

(** ** Notions the properties are stated with *)

(** The call [toolCall] gave [result] and the loop of [executeTools] took
    it for a screenshot. *)
Definition captured (toolCall : MCPToolCall) (result : MCPToolResult) : bool :=
  bool_decide (call_name toolCall = SCREENSHOT)
  && MCP.success result && truthy (MCP.imageData result).

(** What was logged and called between two states. *)
Definition since (st st' : State) : list Entry :=
  drop (length (trace st)) (trace st').

End Service.

Definition is_continuation (e : Entry) : bool :=
  match e with Logged MultiStepDetected => true | _ => false end.

Definition is_decision (e : Entry) : bool :=
  match e with Called (LLMProcessMessage _ _ _) => true | _ => false end.

Definition is_follow_up (e : Entry) : bool :=
  match e with Called (GenerateFollowUp _ _ _ _) => true | _ => false end.

Definition is_tool_error (e : Entry) : bool :=
  match e with
  | Logged (ToolError _ _) | Logged (ContinuationToolError _ _)
  | Logged (ContinuationError _) => true
  | _ => false
  end.

(** How often the continuation branch was entered, the Model Gateway asked
    for a decision, and asked for a follow-up. *)
Definition continuations (tr : list Entry) : nat := length (filter is_continuation tr).
Definition decisions (tr : list Entry) : nat := length (filter is_decision tr).
Definition follow_ups (tr : list Entry) : nat := length (filter is_follow_up tr).

(** The tools called, oldest first. *)
Definition tools_called (tr : list Entry) : list jsstring :=
  omap (fun e => match e with Called (CallTool tool _) => Some tool | _ => None end) tr.

End ChatService.

(* ===================================================================== *)
(** * Part VII.  Sample inputs                                            *)
(* ===================================================================== *)

Module Samples.
Import JS MCP.

(** The bytes of a text that is written here with ['] for the double
    quote. *)
Definition quoted (s : string) : list byte :=
  (fun b => if Byte.eqb b "'"%byte then x22 else b) <$> list_byte_of_string s.

(** ** Built-ins, exact on the sample inputs: integers for numbers, ASCII
    for case mapping, RFC 4648 for base64. *)

Definition ascii_lower (s : jsstring) : jsstring :=
  (fun c => if ((65 <=? c) && (c <=? 90))%N then (c + 32)%N else c) <$> s.

Definition base64_digit (n : N) : N :=
  if (n <? 26)%N then (65 + n)%N
  else if (n <? 52)%N then (97 + (n - 26))%N
  else if (n <? 62)%N then (48 + (n - 52))%N
  else if (n =? 62)%N then 43%N else 47%N.

Fixpoint base64_groups (fuel : nat) (bs : list N) : jsstring :=
  match fuel with
  | O => []
  | S fuel' =>
    match bs with
    | [] => []
    | [a] =>
      [base64_digit (a / 4); base64_digit ((a mod 4) * 16); 61%N; 61%N]
    | [a; b] =>
      [base64_digit (a / 4); base64_digit ((a mod 4) * 16 + b / 16);
       base64_digit ((b mod 16) * 4); 61%N]
    | a :: b :: c :: rest =>
      [base64_digit (a / 4); base64_digit ((a mod 4) * 16 + b / 16);
       base64_digit ((b mod 16) * 4 + c / 64); base64_digit (c mod 64)]
      ++ base64_groups fuel' rest
    end
  end.

Definition base64_encode (data : list byte) : jsstring :=
  base64_groups (S (length data)) (Byte.to_N <$> data).

Definition render_number (q : Qc) : jsstring :=
  dec (Qfloor (this q)).

Definition render (v : jsval) : jsstring :=
  match v with
  | None => lit "undefined"
  | Some JNull => lit "null"
  | Some (JBool true) => lit "true"
  | Some (JBool false) => lit "false"
  | Some (JNum q) => render_number q
  | Some (JStr s) => s
  | Some (JArr _) => lit ""
  | Some (JObj _) => lit "[object Object]"
  end.

Definition scale (x source : jsval) (actual : Z) : Z :=
  match x, source with
  | Some (JNum a), Some (JNum b) =>
    Qfloor (this ((a / b) * Q2Qc (inject_Z actual) + Q2Qc (1 # 2))%Qc)
  | _, _ => 0%Z
  end.

#[export] Instance sample_builtins : Builtins := {|
  Num := Z;
  num_of_Z := fun z => z;
  parseInt := digits_value;
  round_scaled := scale;
  show_Num := dec;
  String_of := render;
  toLowerCase := ascii_lower;
  base64 := base64_encode;
  path_join := fun a b => a ++ lit "/" ++ b;
  inherited := fun _ => None;
|}.

(** ** A connected MCPClient with callers waiting *)

Definition connected_client : MCPClient.World :=
  MCPClient.connect_resume
    (MCPClient.with_mcpProcess (Some {| MCPClient.pid := 1 |}) (MCPClient.new 1000)).

Definition screenshot_call : MCPClient.Invocation :=
  {| MCPClient.inv_tool := lit "remote_macos_get_screen";
     MCPClient.inv_args := JObj [];
     MCPClient.inv_now := 1700; MCPClient.inv_random := Q2Qc (1 # 4) |}.

Definition click_call : MCPClient.Invocation :=
  {| MCPClient.inv_tool := lit "remote_macos_mouse_click";
     MCPClient.inv_args := JObj [(lit "x", jnum 10); (lit "y", jnum 20)];
     MCPClient.inv_now := 1700; MCPClient.inv_random := Q2Qc (1 # 2) |}.

Definition two_waiting : MCPClient.World :=
  (MCPClient.invoke_all [screenshot_call; click_call] connected_client).1.

Definition one_waiting : MCPClient.World :=
  (MCPClient.invoke screenshot_call connected_client).1.

(** The response to [screenshot_call] (id 1700.25) and to [click_call]
    (id 1700.5). *)
Definition screenshot_response : json :=
  JObj [(lit "jsonrpc", jstr "2.0"); (lit "id", JNum (Q2Qc (6801 # 4)));
        (lit "result",
         JObj [(lit "content",
                JArr [JObj [(lit "type", jstr "image"); (lit "data", jstr "iVBORw==")]])])].

Definition click_response : json :=
  JObj [(lit "jsonrpc", jstr "2.0"); (lit "id", JNum (Q2Qc (3401 # 2)));
        (lit "result",
         JObj [(lit "content",
                JArr [JObj [(lit "type", jstr "text"); (lit "text", jstr "clicked")]])])].

(** The lines that carry the two responses, as the subprocess writes
    them. *)
Definition screenshot_reply : list byte :=
  quoted "{'jsonrpc':'2.0','id':1700.25,'result':{'content':[{'type':'image','data':'iVBORw=='}]}}".

Definition click_reply : list byte :=
  quoted "{'jsonrpc':'2.0','id':1700.5,'result':{'content':[{'type':'text','text':'clicked'}]}}".

Definition click_line : list byte := click_reply ++ [x0a].

(** A response to [screenshot_call] whose image item has no [data]. *)
Definition bare_image_reply : list byte :=
  quoted "{'jsonrpc':'2.0','id':1700.25,'result':{'content':[{'type':'image'}]}}".

(** What [callTool] gives the caller of [screenshot_call] once the lines
    of [lines] have arrived. *)
Definition answer_to_screenshot_call (lines : list (list byte))
  : option (res MCPToolResult) :=
  let started := MCPClient.invoke screenshot_call connected_client in
  MCPClient.callTool_result (MCPClient.inv_tool screenshot_call) started.2
    (MCPClient.run started.1 [MCPClient.Stdout (MCPClient.stream_of lines)]).

(** A response line whose text holds a character of two bytes, [é] (C3 A9,
    the 78th and 79th byte), whole and cut between the two. *)
Definition cafe_line : list byte :=
  quoted "{'jsonrpc':'2.0','id':1700.25,'result':{'content':[{'type':'text','text':'Café'}]}}"
  ++ [x0a].

Definition cafe_whole : list (list byte) := [cafe_line].

Definition cafe_cut : list (list byte) := [take 78 cafe_line; drop 78 cafe_line].

(** What the caller of [screenshot_call] finds in [content] once the
    chunks of [chunks] have arrived. *)
Definition received (chunks : list (list byte)) : option jsval :=
  let started := MCPClient.invoke screenshot_call connected_client in
  match MCPClient.callTool_result (MCPClient.inv_tool screenshot_call) started.2
          (MCPClient.run started.1 (MCPClient.Stdout <$> chunks)) with
  | Some (inr r) => Some (content r)
  | _ => None
  end.

(** ** A Mac on which every command succeeds *)

Definition PNG : list byte := [x89; x50; x4e; x47].

Definition healthy_mac : LocalMacOSClient.Host (W := ()) :=
  {| LocalMacOSClient.execAsync := fun command w =>
       (w, inr (if includes command (lit "system_profiler")
                then lit "          Resolution: 1920 x 1080 (1080p FHD)"
                else []));
     LocalMacOSClient.readFileSync := fun _ w => (w, inr PNG);
     LocalMacOSClient.unlinkSync := fun _ w => (w, inr ());
     LocalMacOSClient.Date_now := fun w => (w, 1700%Z);
     LocalMacOSClient.tmpdir := lit "/tmp" |}.

(** A Mac on which no command can be run, and one on which only the
    display probe fails. *)
Definition broken_mac : LocalMacOSClient.Host (W := ()) :=
  {| LocalMacOSClient.execAsync := fun _ w =>
       (w, inl {| message := lit "command not found" |});
     LocalMacOSClient.readFileSync := fun _ w => (w, inr PNG);
     LocalMacOSClient.unlinkSync := fun _ w => (w, inr ());
     LocalMacOSClient.Date_now := fun w => (w, 1700%Z);
     LocalMacOSClient.tmpdir := lit "/tmp" |}.

Definition mac_without_profiler : LocalMacOSClient.Host (W := ()) :=
  {| LocalMacOSClient.execAsync := fun command w =>
       (w, if includes command (lit "system_profiler")
           then inl {| message := lit "Command failed: system_profiler" |}
           else inr []);
     LocalMacOSClient.readFileSync := fun _ w => (w, inr PNG);
     LocalMacOSClient.unlinkSync := fun _ w => (w, inr ());
     LocalMacOSClient.Date_now := fun w => (w, 1700%Z);
     LocalMacOSClient.tmpdir := lit "/tmp" |}.

(** ** Collaborators of the chat service

    The state counts the decisions the model was asked for.  The model
    answers the first request with [first] and every later one with
    [later]; a tool call gives what [tool_outcome] says. *)

Definition screenshot_tool : MCPTool :=
  {| name := lit "remote_macos_get_screen";
     description := lit "Take a screenshot of the local macOS desktop";
     inputSchema := JObj [(lit "type", jstr "object"); (lit "properties", JObj []);
                          (lit "required", JArr [])] |}.

Definition scripted (first later : res LLMService.LLMResponse)
    (tool_outcome : jsstring -> res MCPToolResult)
  : ChatService.Collaborators (W := nat) :=
  {| ChatService.mcp_listTools := fun w => (w, inr [screenshot_tool]);
     ChatService.mcp_callTool := fun tool _ w => (w, tool_outcome tool);
     ChatService.llm_processMessage := fun _ _ _ w =>
       (S w, match w with O => first | S _ => later end);
     ChatService.llm_generateFollowUpResponse := fun _ _ _ _ w =>
       (w, inr {| LLMService.response_content := lit "Done.";
                  LLMService.toolCalls := None;
                  LLMService.requiresTools := false;
                  LLMService.streaming := None |});
     ChatService.Date_now := fun w => (w, 1700%Z) |}.

Definition asks_for (calls : list MCPToolCall) : LLMService.LLMResponse :=
  {| LLMService.response_content := lit "Executing tools...";
     LLMService.toolCalls := Some calls;
     LLMService.requiresTools := true;
     LLMService.streaming := None |}.

Definition wants (calls : list MCPToolCall) : res LLMService.LLMResponse :=
  inr (asks_for calls).

Definition screenshot : MCPToolCall :=
  {| call_name := lit "remote_macos_get_screen"; call_arguments := JObj [] |}.

Definition click : MCPToolCall :=
  {| call_name := lit "remote_macos_mouse_click";
     call_arguments := JObj [(lit "x", jnum 100); (lit "y", jnum 200)] |}.

(** A subprocess-backed client answers the screenshot tool with an image
    and every other tool with a text. *)
Definition image_result : MCPToolResult :=
  {| success := true; data := None; error := None;
     imageData := Some (jstr "iVBORw=="); toolName := Some (lit "remote_macos_get_screen");
     content := None |}.

Definition text_result (tool : jsstring) : MCPToolResult :=
  {| success := true; data := None; error := None; imageData := None;
     toolName := Some tool; content := Some (jstr "Tool executed successfully") |}.

Definition tools_work (tool : jsstring) : res MCPToolResult :=
  if bool_decide (tool = lit "remote_macos_get_screen") then inr image_result
  else inr (text_result tool).

(** The screenshot tool answers with an image, every other tool throws. *)
Definition only_screenshot_works (tool : jsstring) : res MCPToolResult :=
  if bool_decide (tool = lit "remote_macos_get_screen") then inr image_result
  else inl {| message := lit "MCP client is not connected" |}.

(** The screenshot tool answers with a text. *)
Definition tools_answer_text (tool : jsstring) : res MCPToolResult :=
  inr (text_result tool).

(** ** A model that fails once

    The state counts the requests.  The first request is rejected; every
    later one is answered with a call of the screenshot tool. *)
Definition flaky_api : LLMService.Api (W := nat) :=
  {| LLMService.create := fun _ _ w =>
       (S w,
        match w with
        | O => inl {| message := lit "429 Too Many Requests" |}
        | S _ =>
          inr {| LLMService.choices :=
                   [{| LLMService.choice_message :=
                         Some {| LLMService.message_content := None;
                                 LLMService.tool_calls :=
                                   Some [{| LLMService.call_function_name :=
                                              lit "remote_macos_get_screen";
                                            LLMService.call_function_arguments := lit "{}" |}] |} |}] |}
        end);
     LLMService.sleep := fun _ w => w;
     LLMService.Date_now := fun w => (w, 1700%Z);
     LLMService.SyntaxError_of := fun _ => {| message := lit "Unexpected token" |} |}.

Definition openrouter : LLMService.Config :=
  {| LLMService.openrouterApiKey := lit "sk-or-v1"; LLMService.openaiApiKey := None |}.

Definition new_gateway : LLMService.State (W := nat) :=
  {| LLMService.world := 0; LLMService.conversations := ∅; LLMService.trace := [] |}.

Definition fresh_service : ChatService.State (W := nat) :=
  {| ChatService.world := 0; ChatService.sessions := ∅; ChatService.trace := [] |}.

End Samples.
(* ===================================================================== *)
(** * Part VII.  Properties of MCPClient                                  *)
(* ===================================================================== *)

Module MCPClientFacts.
Import JS MCP MCPClient.

Ltac unfold_world :=
  unfold resolve, reject, settle, clearTimeout, delete_pending, get_pending,
    with_mcpProcess, with_connected, with_tools, with_responseBuffer,
    with_pendingRequests, with_promises, with_timers, with_clock, do_io in *.

(** Taking an entry out of the books and settling its promise: what
    [handleResponse] and the timer callback have in common. *)
Definition take_out (id : Qc) (request : PendingRequest) (s : Promise) (w : World)
  : World :=
  settle (promise request) s
    (clearTimeout (timeout request)
       (with_pendingRequests (delete id (pendingRequests w)) w)).

Lemma take_out_fields id request s w :
  promises w !! promise request = Some Pending ->
  take_out id request s w =
  {| mcpProcess := mcpProcess w; connected := connected w; tools := tools w;
     responseBuffer := responseBuffer w;
     pendingRequests := delete id (pendingRequests w);
     promises := <[promise request := s]> (promises w);
     timers := delete (timeout request) (timers w);
     next_promise := next_promise w; next_timer := next_timer w;
     clock := clock w; io := io w |}.
Proof.
  intros Hp. unfold take_out. unfold_world. simpl. by rewrite Hp.
Qed.

Lemma take_out_WF id request s w :
  WF w -> pendingRequests w !! id = Some request ->
  WF (take_out id request s w).
Proof.
  intros Hwf Hid.
  destruct (wf_entry w Hwf id request Hid) as [Hp [d Ht]].
  rewrite take_out_fields by done.
  split; simpl.
  - intros id' r' Hr'.
    apply lookup_delete_Some in Hr' as [Hne Hr'].
    destruct (wf_entry w Hwf id' r' Hr') as [Hp' [d' Ht']].
    assert (promise r' <> promise request) as Hpne.
    { intros Heq. apply Hne. symmetry. by eapply (wf_promise w Hwf id' id). }
    assert (timeout r' <> timeout request) as Htne.
    { intros Heq. rewrite Heq in Ht'. rewrite Ht in Ht'. congruence. }
    split.
    + by rewrite lookup_insert_ne.
    + exists d'. by rewrite lookup_delete_ne.
  - intros t tm Htm.
    apply lookup_delete_Some in Htm as [Hne Htm].
    pose proof (wf_timer w Hwf t tm Htm) as Hback.
    rewrite lookup_delete_ne; [done|].
    intros Heq. rewrite <- Heq in Hback. rewrite Hid in Hback.
    inversion Hback; subst. simpl in Hne. done.
  - intros id1 id2 r1 r2 H1 H2.
    apply lookup_delete_Some in H1 as [_ H1].
    apply lookup_delete_Some in H2 as [_ H2].
    by apply (wf_promise w Hwf).
  - intros p [x Hx]. apply (wf_next_promise w Hwf).
    destruct (decide (p = promise request)) as [->|Hne]; [by eexists|].
    rewrite lookup_insert_ne in Hx by done. by eexists.
  - intros t [x Hx]. apply (wf_next_timer w Hwf).
    apply lookup_delete_Some in Hx as [_ Hx]. by eexists.
Qed.

(** A promise that has settled keeps its state. *)
Lemma settle_settled p s w q x :
  promises w !! q = Some x -> x <> Pending ->
  promises (settle p s w) !! q = Some x.
Proof.
  intros Hq Hx. unfold settle.
  destruct (promises w !! p) as [[]|] eqn:Hp; try done.
  simpl. rewrite lookup_insert_ne; [done|]. intros ->. congruence.
Qed.

Lemma take_out_settled id request s w q x :
  promises w !! q = Some x -> x <> Pending ->
  promises (take_out id request s w) !! q = Some x.
Proof. intros. unfold take_out. by apply settle_settled. Qed.

(** ** [handleResponse] *)

Lemma handleResponse_object response w w' :
  handleResponse response w = inr w' ->
  w' = w \/
  exists id request,
    id_of response = Some (JNum id) /\ id <> Q2Qc 0 /\
    pendingRequests w !! id = Some request /\
    w' = take_out id request (Fulfilled response) w.
Proof.
  unfold handleResponse, id_of.
  destruct (prop (Some response) (lit "id")) as [e|v]; [done|].
  intros [= <-].
  destruct (truthy v) eqn:Htruthy; [|by left].
  destruct (get_pending v w) as [request|] eqn:Hget; [|by left].
  right. destruct v as [[| |q| | |]|]; try done.
  simpl in Hget. exists q, request. split_and!; try done.
  simpl in Htruthy. apply negb_true_iff, bool_decide_eq_false in Htruthy. done.
Qed.

Lemma handleResponse_match response id request w :
  id_of response = Some (JNum id) -> id <> Q2Qc 0 ->
  pendingRequests w !! id = Some request ->
  handleResponse response w = inr (take_out id request (Fulfilled response) w).
Proof.
  unfold handleResponse, id_of.
  destruct (prop (Some response) (lit "id")) as [e|v]; [done|].
  intros -> Hnz Hreq. simpl.
  rewrite bool_decide_eq_false_2 by done. simpl. by rewrite Hreq.
Qed.

Lemma handleResponse_no_match response w :
  (forall id, id_of response = Some (JNum id) -> pendingRequests w !! id = None) ->
  deliver w response = w.
Proof.
  intros Hno. unfold deliver, handleResponse, id_of in *.
  destruct (prop (Some response) (lit "id")) as [e|v]; [done|]. simpl.
  destruct (truthy v); [|done].
  destruct v as [[| |q| | |]|]; try done. simpl. by rewrite Hno.
Qed.

Lemma deliver_cases response w :
  deliver w response = w \/
  exists id request,
    id_of response = Some (JNum id) /\ id <> Q2Qc 0 /\
    pendingRequests w !! id = Some request /\
    deliver w response = take_out id request (Fulfilled response) w.
Proof.
  unfold deliver.
  destruct (handleResponse response w) as [e|w'] eqn:Hh; [by left|].
  simpl. apply handleResponse_object in Hh as [->|(id & request & ? & ? & ? & ->)];
    [by left|right; eauto 10].
Qed.

Lemma deliver_WF response w : WF w -> WF (deliver w response).
Proof.
  intros Hwf. destruct (deliver_cases response w) as [->|(id & request & _ & _ & Hreq & ->)];
    [done|by apply take_out_WF].
Qed.


(** ** [handleProcessOutput] *)

Lemma handleLine_deliver w line :
  handleLine w line = from_option (deliver w) w (parse_line line).
Proof.
  unfold handleLine, parse_line, deliver.
  case_bool_decide; [done|].
  destruct (JSON_parse (trim line)) as [response|]; [|done]. simpl.
  by destruct (handleResponse response w).
Qed.

Lemma foldl_handleLine lines w :
  foldl handleLine w lines = foldl deliver w (omap parse_line lines).
Proof.
  revert w. induction lines as [|line lines IH]; intros w; [done|].
  simpl. rewrite handleLine_deliver.
  destruct (parse_line line); simpl; apply IH.
Qed.

(** The loop of [handleProcessOutput] hands exactly the responses parsed
    from the complete lines to [handleResponse], in their order. *)
Lemma handleProcessOutput_dispatched data w :
  handleProcessOutput data w =
  foldl deliver
    (with_responseBuffer
       (default [] (last (split_nl (responseBuffer w ++ Buffer_toString data)))) w)
    (dispatched w data).
Proof. unfold handleProcessOutput, dispatched, responses_in, complete_lines.
  apply foldl_handleLine. Qed.

(** [WF] reads the books only. *)
Lemma WF_books w w' :
  pendingRequests w' = pendingRequests w -> promises w' = promises w ->
  timers w' = timers w -> next_promise w' = next_promise w ->
  next_timer w' = next_timer w -> WF w -> WF w'.
Proof.
  intros H1 H2 H3 H4 H5 [A B C D E].
  split; rewrite ?H1, ?H2, ?H3, ?H4, ?H5; done.
Qed.

Lemma foldl_deliver_WF responses w : WF w -> WF (foldl deliver w responses).
Proof.
  revert w. induction responses as [|r rs IH]; intros w Hwf; [done|].
  simpl. by apply IH, deliver_WF.
Qed.

Lemma handleProcessOutput_WF data w : WF w -> WF (handleProcessOutput data w).
Proof.
  intros Hwf. rewrite handleProcessOutput_dispatched.
  apply foldl_deliver_WF. by eapply WF_books; [..|exact Hwf].
Qed.

(** ** [waitForResponse] and [callTool] *)

Lemma waitForResponse_fields id w :
  waitForResponse id w =
  ({| mcpProcess := mcpProcess w; connected := connected w; tools := tools w;
      responseBuffer := responseBuffer w;
      pendingRequests :=
        <[id := {| promise := next_promise w; timeout := next_timer w |}]>
          (pendingRequests w);
      promises := <[next_promise w := Pending]> (promises w);
      timers := <[next_timer w := {| deadline := clock w + REQUEST_TIMEOUT_MS;
                                      timer_requestId := id;
                                      timer_reject := next_promise w |}]> (timers w);
      next_promise := S (next_promise w); next_timer := S (next_timer w);
      clock := clock w; io := io w |}, next_promise w).
Proof. done. Qed.

Lemma WF_fresh_promise w : WF w -> promises w !! next_promise w = None.
Proof.
  intros Hwf. destruct (promises w !! next_promise w) eqn:Hp; [|done].
  pose proof (wf_next_promise w Hwf (next_promise w) (mk_is_Some _ _ Hp)). lia.
Qed.

Lemma WF_fresh_timer w : WF w -> timers w !! next_timer w = None.
Proof.
  intros Hwf. destruct (timers w !! next_timer w) eqn:Hp; [|done].
  pose proof (wf_next_timer w Hwf (next_timer w) (mk_is_Some _ _ Hp)). lia.
Qed.

Lemma waitForResponse_WF id w :
  WF w -> pendingRequests w !! id = None -> WF (waitForResponse id w).1.
Proof.
  intros Hwf Hfresh. rewrite waitForResponse_fields. simpl.
  pose proof (WF_fresh_promise w Hwf) as Hp.
  pose proof (WF_fresh_timer w Hwf) as Ht.
  split; simpl.
  - intros id' r' Hr'. apply lookup_insert_Some in Hr' as [[<- <-]|[Hne Hr']]; simpl.
    + rewrite !lookup_insert_eq. eauto.
    + destruct (wf_entry w Hwf id' r' Hr') as [Hp' [d' Ht']].
      rewrite !lookup_insert_ne by congruence. eauto.
  - intros t tm Htm. apply lookup_insert_Some in Htm as [[<- <-]|[Hne Htm]]; simpl.
    + by rewrite lookup_insert_eq.
    + pose proof (wf_timer w Hwf t tm Htm) as Hback.
      rewrite lookup_insert_ne; [done|]. congruence.
  - intros id1 id2 r1 r2 H1 H2 Heq.
    apply lookup_insert_Some in H1 as [[<- <-]|[Hne1 H1]];
      apply lookup_insert_Some in H2 as [[<- <-]|[Hne2 H2]]; simpl in *; try done.
    + destruct (wf_entry w Hwf id2 r2 H2) as [Hp2 _]. congruence.
    + destruct (wf_entry w Hwf id1 r1 H1) as [Hp1 _]. congruence.
    + by eapply (wf_promise w Hwf).
  - intros p [x Hx]. destruct (decide (p = next_promise w)) as [->|Hne]; [lia|].
    rewrite lookup_insert_ne in Hx by done.
    pose proof (wf_next_promise w Hwf p (mk_is_Some _ _ Hx)). lia.
  - intros t [x Hx]. destruct (decide (t = next_timer w)) as [->|Hne]; [lia|].
    rewrite lookup_insert_ne in Hx by done.
    pose proof (wf_next_timer w Hwf t (mk_is_Some _ _ Hx)). lia.
Qed.

Lemma callTool_start_WF tool args now random writable w :
  WF w -> pendingRequests w !! requestId_of now random = None ->
  WF (callTool_start tool args now random writable w).1.
Proof.
  intros Hwf Hfresh. unfold callTool_start.
  destruct (connected w); [|done]. destruct (mcpProcess w) as [proc|]; [|done].
  destruct writable; [|done].
  match goal with |- WF (let '(_, _) := ?c in _).1 =>
    change (WF c.1) end.
  apply waitForResponse_WF; [|done].
  by eapply WF_books; [..|exact Hwf].
Qed.

(** ** Timers *)

Lemma timer_fires_take_out t tm w :
  timers w !! t = Some tm ->
  timer_fires t w =
  take_out (timer_requestId tm) {| promise := timer_reject tm; timeout := t |}
           (Rejected {| message := lit "MCP request timeout" |}) w.
Proof. intros Ht. unfold timer_fires, take_out. rewrite Ht. done. Qed.

Lemma timer_fires_WF t w : WF w -> WF (timer_fires t w).
Proof.
  intros Hwf. destruct (timers w !! t) as [tm|] eqn:Ht.
  - rewrite (timer_fires_take_out t tm) by done.
    apply take_out_WF; [done|]. by apply (wf_timer w Hwf).
  - unfold timer_fires. by rewrite Ht.
Qed.

Lemma foldl_timer_fires_WF ts w :
  WF w -> WF (foldl (fun w' t => timer_fires t w') w ts).
Proof.
  revert w. induction ts as [|t ts IH]; intros w Hwf; [done|].
  simpl. by apply IH, timer_fires_WF.
Qed.

Lemma elapse_WF now w : WF w -> WF (elapse now w).
Proof.
  intros Hwf. unfold elapse.
  eapply WF_books; [..|apply (foldl_timer_fires_WF (due now w) w Hwf)]; done.
Qed.


(** ** [rejectPendingRequests] *)

Definition reject_entry (e : Error) (w : World) (entry : Qc * PendingRequest) : World :=
  reject (promise entry.2) e (clearTimeout (timeout entry.2) w).

Definition reject_entries (e : Error) (w : World) (l : list (Qc * PendingRequest))
  : World := foldl (reject_entry e) w l.

Lemma reject_entry_frame e w entry :
  let w' := reject_entry e w entry in
  mcpProcess w' = mcpProcess w /\ connected w' = connected w /\ tools w' = tools w /\
  responseBuffer w' = responseBuffer w /\ pendingRequests w' = pendingRequests w /\
  next_promise w' = next_promise w /\ next_timer w' = next_timer w /\
  clock w' = clock w /\ io w' = io w /\
  timers w' = delete (timeout entry.2) (timers w).
Proof.
  unfold reject_entry. unfold_world. simpl.
  destruct (promises w !! promise entry.2) as [[]|]; simpl; done.
Qed.

Lemma reject_entries_frame e l w :
  let w' := reject_entries e w l in
  mcpProcess w' = mcpProcess w /\ connected w' = connected w /\ tools w' = tools w /\
  responseBuffer w' = responseBuffer w /\ pendingRequests w' = pendingRequests w /\
  next_promise w' = next_promise w /\ next_timer w' = next_timer w /\
  clock w' = clock w /\ io w' = io w.
Proof.
  revert w. induction l as [|entry l IH]; intros w; simpl; [done|].
  destruct (IH (reject_entry e w entry)) as (A1&A2&A3&A4&A5&A6&A7&A8&A9).
  destruct (reject_entry_frame e w entry) as (B1&B2&B3&B4&B5&B6&B7&B8&B9&_).
  unfold reject_entries in *. simpl in *.
  rewrite A1, A2, A3, A4, A5, A6, A7, A8, A9. done.
Qed.

Lemma reject_entries_timers e l w t :
  timers (reject_entries e w l) !! t =
  if decide (t ∈ (fun entry : Qc * PendingRequest => timeout entry.2) <$> l)
  then None else timers w !! t.
Proof.
  revert w. induction l as [|entry l IH]; intros w; simpl; [done|].
  unfold reject_entries in *. simpl. rewrite IH.
  destruct (reject_entry_frame e w entry) as (_&_&_&_&_&_&_&_&_&->).
  destruct (decide (t = timeout entry.2)) as [->|Hne].
  - rewrite lookup_delete_eq. rewrite (decide_True (P := _ ∈ _ :: _)).
    + by case_decide.
    + apply elem_of_cons; by left.
  - rewrite lookup_delete_ne by done.
    destruct (decide (t ∈ (fun entry0 : Qc * PendingRequest => timeout entry0.2) <$> l))
      as [Hin|Hnin].
    + rewrite decide_True; [done|]. apply elem_of_cons; by right.
    + rewrite decide_False; [done|]. intros Hin. apply elem_of_cons in Hin as [?|?]; done.
Qed.

Lemma reject_entry_settled e w entry p x :
  promises w !! p = Some x -> x <> Pending ->
  promises (reject_entry e w entry) !! p = Some x.
Proof. intros. unfold reject_entry, reject. by apply settle_settled. Qed.

Lemma reject_entries_settled e l w p x :
  promises w !! p = Some x -> x <> Pending ->
  promises (reject_entries e w l) !! p = Some x.
Proof.
  revert w. induction l as [|entry l IH]; intros w Hp Hx; simpl; [done|].
  apply IH; [|done]. by apply reject_entry_settled.
Qed.

Lemma reject_entry_hit e w entry :
  promises w !! promise entry.2 = Some Pending ->
  promises (reject_entry e w entry) !! promise entry.2 = Some (Rejected e).
Proof.
  intros Hp. unfold reject_entry. unfold_world. simpl. rewrite Hp. simpl.
  by rewrite lookup_insert_eq.
Qed.

Lemma reject_entry_other e w entry p :
  p <> promise entry.2 ->
  promises (reject_entry e w entry) !! p = promises w !! p.
Proof.
  intros Hne. unfold reject_entry. unfold_world. simpl.
  destruct (promises w !! promise entry.2) as [[]|]; simpl; try done.
  by rewrite lookup_insert_ne.
Qed.

Lemma reject_entry_dom e w entry p :
  is_Some (promises (reject_entry e w entry) !! p) -> is_Some (promises w !! p).
Proof.
  unfold reject_entry. unfold_world. simpl.
  destruct (promises w !! promise entry.2) as [[]|] eqn:Hp; simpl; try done.
  destruct (decide (p = promise entry.2)) as [->|Hne]; [by eexists|].
  by rewrite lookup_insert_ne.
Qed.

Lemma reject_entries_rejected e l w p :
  promises w !! p = Some Pending ->
  p ∈ (fun entry : Qc * PendingRequest => promise entry.2) <$> l ->
  promises (reject_entries e w l) !! p = Some (Rejected e).
Proof.
  revert w. induction l as [|entry l IH]; intros w Hp Hin; simpl in *.
  { by apply elem_of_nil in Hin. }
  destruct (decide (p = promise entry.2)) as [->|Hne].
  - apply reject_entries_settled; [|done]. by apply reject_entry_hit.
  - apply IH.
    + by rewrite reject_entry_other.
    + apply elem_of_cons in Hin as [?|?]; done.
Qed.

Lemma reject_entries_dom e l w p :
  is_Some (promises (reject_entries e w l) !! p) -> is_Some (promises w !! p).
Proof.
  revert w. induction l as [|entry l IH]; intros w; simpl; [done|].
  intros Hs. apply IH in Hs. by eapply reject_entry_dom.
Qed.

Lemma rejectPendingRequests_unfold e w :
  rejectPendingRequests e w =
  with_pendingRequests ∅ (reject_entries e w (map_to_list (pendingRequests w))).
Proof. done. Qed.

(** All the outstanding requests are rejected with [e], and the books are
    left empty. *)
Lemma rejectPendingRequests_spec e w :
  WF w ->
  let w' := rejectPendingRequests e w in
  pendingRequests w' = ∅ /\ timers w' = ∅ /\
  (forall id request, pendingRequests w !! id = Some request ->
     promises w' !! promise request = Some (Rejected e)) /\
  (forall p x, promises w !! p = Some x -> x <> Pending -> promises w' !! p = Some x) /\
  mcpProcess w' = mcpProcess w /\ connected w' = connected w /\ io w' = io w /\
  clock w' = clock w /\ WF w'.
Proof.
  intros Hwf w'. subst w'. rewrite rejectPendingRequests_unfold.
  set (l := map_to_list (pendingRequests w)).
  destruct (reject_entries_frame e l w) as (A1&A2&A3&A4&A5&A6&A7&A8&A9).
  assert (timers (reject_entries e w l) = ∅) as Htimers.
  { apply map_eq. intros t. rewrite lookup_empty, reject_entries_timers.
    case_decide as Hin; [done|].
    destruct (timers w !! t) as [tm|] eqn:Ht; [|done].
    exfalso. apply Hin. apply list_elem_of_fmap.
    exists (timer_requestId tm, {| promise := timer_reject tm; timeout := t |}).
    split; [done|]. apply elem_of_map_to_list. by apply (wf_timer w Hwf). }
  simpl. split_and!; try done.
  - intros id request Hreq.
    apply reject_entries_rejected.
    + by apply (wf_entry w Hwf id).
    + apply list_elem_of_fmap. exists (id, request). split; [done|].
      by apply elem_of_map_to_list.
  - intros p x Hp Hx. by apply reject_entries_settled.
  - split; simpl.
    + intros ??. by rewrite lookup_empty.
    + intros ??. by rewrite Htimers, lookup_empty.
    + intros ????. by rewrite lookup_empty.
    + intros p Hp. rewrite A6. apply (wf_next_promise w Hwf).
      by eapply reject_entries_dom.
    + intros t [x Hx]. by rewrite Htimers, lookup_empty in Hx.
Qed.

Lemma with_connected_WF b w : WF w -> WF (with_connected b w).
Proof. intros. by eapply WF_books; [..|done]. Qed.

Lemma on_exit_WF code w : WF w -> WF (on_exit code w).
Proof. intros. apply rejectPendingRequests_spec. by apply with_connected_WF. Qed.

Lemma on_error_WF e w : WF w -> WF (on_error e w).
Proof. intros. apply rejectPendingRequests_spec. by apply with_connected_WF. Qed.

Lemma disconnect_WF w : WF w -> WF (disconnect w).
Proof.
  intros Hwf. apply rejectPendingRequests_spec. apply with_connected_WF.
  destruct (mcpProcess w); [|done]. by eapply WF_books; [..|done].
Qed.

(** ** Runs *)

Lemma new_WF now : WF (new now).
Proof.
  split; simpl; try done.
  - intros p [x Hx]. by rewrite lookup_empty in Hx.
  - intros t [x Hx]. by rewrite lookup_empty in Hx.
Qed.

Lemma connect_WF spawned w w' : WF w -> connect spawned w = inr w' -> WF w'.
Proof.
  intros Hwf. destruct spawned as [e|proc]; [done|]. intros [= <-].
  by eapply WF_books; [..|done].
Qed.

Lemma step_WF w ev : WF w -> fresh_call w ev -> WF (step w ev).
Proof.
  intros Hwf Hfresh. destruct ev as [[e|proc]| | | | | | |]; simpl.
  - done.
  - by eapply WF_books; [..|exact Hwf].
  - by eapply WF_books; [..|exact Hwf].
  - by apply callTool_start_WF.
  - by apply handleProcessOutput_WF.
  - by apply elapse_WF.
  - by apply on_error_WF.
  - by apply on_exit_WF.
  - by apply disconnect_WF.
Qed.

(** Every state the client reaches is consistent. *)
Lemma run_WF evs w : WF w -> along fresh_call w evs -> WF (run w evs).
Proof.
  revert w. induction evs as [|ev evs IH]; intros w Hwf Hfresh; [done|].
  destruct Hfresh as [H1 H2]. simpl. apply IH; [|done]. by apply step_WF.
Qed.


(** ** What the steps leave alone *)

Lemma take_out_link id request s w :
  let w' := take_out id request s w in
  connected w' = connected w /\ mcpProcess w' = mcpProcess w /\ io w' = io w /\
  clock w' = clock w.
Proof.
  unfold take_out. unfold_world. simpl.
  destruct (promises w !! promise request) as [[]|]; done.
Qed.

Lemma deliver_link response w :
  let w' := deliver w response in
  connected w' = connected w /\ mcpProcess w' = mcpProcess w /\ io w' = io w /\
  clock w' = clock w.
Proof.
  destruct (deliver_cases response w) as [->|(id & request & _ & _ & _ & ->)];
    [done|apply take_out_link].
Qed.

Lemma foldl_deliver_link responses w :
  let w' := foldl deliver w responses in
  connected w' = connected w /\ mcpProcess w' = mcpProcess w /\ io w' = io w /\
  clock w' = clock w.
Proof.
  revert w. induction responses as [|r rs IH]; intros w; simpl; [done|].
  destruct (IH (deliver w r)) as (->&->&->&->). apply deliver_link.
Qed.

Lemma timer_fires_link t w :
  let w' := timer_fires t w in
  connected w' = connected w /\ mcpProcess w' = mcpProcess w /\ io w' = io w /\
  clock w' = clock w.
Proof.
  destruct (timers w !! t) as [tm|] eqn:Ht.
  - rewrite (timer_fires_take_out t tm) by done. apply take_out_link.
  - unfold timer_fires. by rewrite Ht.
Qed.

Lemma foldl_timer_fires_link ts w :
  let w' := foldl (fun w' t => timer_fires t w') w ts in
  connected w' = connected w /\ mcpProcess w' = mcpProcess w /\ io w' = io w /\
  clock w' = clock w.
Proof.
  revert w. induction ts as [|t ts IH]; intros w; simpl; [done|].
  destruct (IH (timer_fires t w)) as (->&->&->&->). apply timer_fires_link.
Qed.

Lemma written_app w a :
  written (do_io a w) =
  written w ++ match a with StdinWrite _ request => [request] | Kill _ => [] end.
Proof.
  unfold written. simpl. rewrite omap_app. by destruct a.
Qed.

Lemma rejectPendingRequests_link e w :
  let w' := rejectPendingRequests e w in
  connected w' = connected w /\ mcpProcess w' = mcpProcess w /\ io w' = io w /\
  clock w' = clock w.
Proof.
  rewrite rejectPendingRequests_unfold.
  destruct (reject_entries_frame e (map_to_list (pendingRequests w)) w)
    as (?&?&_&_&_&_&_&?&?).
  done.
Qed.

(** A client that is not connected stays so whatever happens, and writes
    nothing, until a [connect] completes. *)
Lemma step_disconnected w ev :
  ev <> ConnectResume -> connected w = false ->
  connected (step w ev) = false /\ written (step w ev) = written w.
Proof.
  intros Hev Hc. unfold written. destruct ev as [[e|proc]| | | | | | |]; cbn [step].
  - done.
  - done.
  - done.
  - unfold callTool_start. by rewrite Hc.
  - rewrite handleProcessOutput_dispatched.
    match goal with |- context [foldl deliver ?w0 ?rs] =>
      destruct (foldl_deliver_link rs w0) as (->&_&->&_) end.
    done.
  - unfold elapse.
    destruct (foldl_timer_fires_link (due now w) w) as (Hcn&_&Hio&_).
    simpl. by rewrite Hcn, Hio.
  - unfold on_error.
    destruct (rejectPendingRequests_link e (with_connected false w)) as (->&_&->&_).
    done.
  - unfold on_exit.
    match goal with |- context [rejectPendingRequests ?e ?w0] =>
      destruct (rejectPendingRequests_link e w0) as (->&_&->&_) end.
    done.
  - unfold disconnect.
    match goal with |- context [rejectPendingRequests ?e ?w0] =>
      destruct (rejectPendingRequests_link e w0) as (->&_&->&_) end.
    split; [done|]. simpl.
    destruct (mcpProcess w); [|done]. simpl. rewrite omap_app. simpl.
    by rewrite app_nil_r.
Qed.

Lemma run_disconnected evs w :
  ConnectResume ∉ evs -> connected w = false ->
  connected (run w evs) = false /\ written (run w evs) = written w.
Proof.
  revert w. induction evs as [|ev evs IH]; intros w Hno Hc; [done|].
  apply not_elem_of_cons in Hno as [Hev Hno].
  destruct (step_disconnected w ev) as [Hc' Hw]; [done..|]. simpl.
  destruct (IH (step w ev) Hno Hc') as [-> ->]. done.
Qed.


(** ** A request that stays outstanding *)

(** The request [id] is in the books with promise [p] and a timer [t] due
    at [due_at]. *)
Definition armed (id : Qc) (p t : nat) (due_at : Z) (w : World) : Prop :=
  pendingRequests w !! id = Some {| promise := p; timeout := t |} /\
  timers w !! t = Some {| deadline := due_at; timer_requestId := id;
                          timer_reject := p |}.

(** The request [id] has timed out. *)
Definition timed_out (id : Qc) (p : nat) (w : World) : Prop :=
  pendingRequests w !! id = None /\
  promises w !! p = Some (Rejected {| message := lit "MCP request timeout" |}).

Section Outstanding.
Variables (id : Qc) (p t : nat) (due_at : Z).

Lemma take_out_armed id' request' s w :
  WF w -> armed id p t due_at w ->
  pendingRequests w !! id' = Some request' -> id' <> id ->
  armed id p t due_at (take_out id' request' s w).
Proof.
  intros Hwf [Hreq Htimer] Hreq' Hne.
  destruct (wf_entry w Hwf id' request' Hreq') as [Hp' [d' Ht']].
  rewrite take_out_fields by done. split; simpl.
  - by rewrite lookup_delete_ne.
  - rewrite lookup_delete_ne; [done|].
    intros Heq. rewrite Heq in Ht'. rewrite Htimer in Ht'. congruence.
Qed.

Lemma deliver_armed response w :
  WF w -> armed id p t due_at w -> id_of response <> Some (JNum id) ->
  armed id p t due_at (deliver w response).
Proof.
  intros Hwf Harmed Hid.
  destruct (deliver_cases response w) as [->|(id' & request' & Hid' & _ & Hreq' & ->)];
    [done|].
  apply take_out_armed; try done. intros ->. done.
Qed.

Lemma foldl_deliver_armed responses w :
  WF w -> armed id p t due_at w ->
  Forall (fun r => id_of r <> Some (JNum id)) responses ->
  armed id p t due_at (foldl deliver w responses).
Proof.
  revert w. induction responses as [|r rs IH]; intros w Hwf Harmed Hall; [done|].
  apply Forall_cons in Hall as [Hr Hrs]. simpl.
  apply IH; [by apply deliver_WF|by apply deliver_armed|done].
Qed.

Lemma timer_fires_armed t' w :
  WF w -> armed id p t due_at w -> t' <> t ->
  armed id p t due_at (timer_fires t' w).
Proof.
  intros Hwf Harmed Hne. destruct (timers w !! t') as [tm|] eqn:Ht'.
  - rewrite (timer_fires_take_out t' tm) by done.
    pose proof (wf_timer w Hwf t' tm Ht') as Hback.
    apply take_out_armed; try done.
    intros Heq. destruct Harmed as [Hreq _]. rewrite Heq, Hreq in Hback.
    congruence.
  - unfold timer_fires. by rewrite Ht'.
Qed.

Lemma foldl_timer_fires_armed ts w :
  WF w -> armed id p t due_at w -> t ∉ ts ->
  armed id p t due_at (foldl (fun w' t' => timer_fires t' w') w ts).
Proof.
  revert w. induction ts as [|t' ts IH]; intros w Hwf Harmed Hnin; [done|].
  apply not_elem_of_cons in Hnin as [Hne Hnin]. simpl.
  apply IH; [by apply timer_fires_WF|by apply timer_fires_armed|done].
Qed.

Lemma elem_of_due now w t' :
  t' ∈ due now w <-> exists tm, timers w !! t' = Some tm /\ (deadline tm <= now)%Z.
Proof.
  unfold due. rewrite list_elem_of_fmap. split.
  - intros [[t'' tm] [-> Hin]]. apply elem_of_map_to_list in Hin.
    apply map_lookup_filter_Some in Hin as [Htm Hd]. eauto.
  - intros (tm & Htm & Hd). exists (t', tm). split; [done|].
    apply elem_of_map_to_list. by apply map_lookup_filter_Some.
Qed.

Lemma elapse_books now w :
  let w' := foldl (fun w' t' => timer_fires t' w') w (due now w) in
  pendingRequests (elapse now w) = pendingRequests w' /\
  promises (elapse now w) = promises w' /\ timers (elapse now w) = timers w'.
Proof. done. Qed.

Lemma elapse_armed now w :
  WF w -> armed id p t due_at w -> (now < due_at)%Z ->
  armed id p t due_at (elapse now w).
Proof.
  intros Hwf Harmed Hlt.
  assert (t ∉ due now w) as Hnin.
  { intros Hin. apply elem_of_due in Hin as (tm & Htm & Hd).
    destruct Harmed as [_ Ht]. rewrite Ht in Htm. inversion Htm; subst.
    simpl in Hd. lia. }
  pose proof (foldl_timer_fires_armed (due now w) w Hwf Harmed Hnin) as [A B].
  split; simpl; done.
Qed.

Lemma callTool_start_armed tool args now random writable w :
  WF w -> armed id p t due_at w ->
  pendingRequests w !! requestId_of now random = None ->
  armed id p t due_at (callTool_start tool args now random writable w).1.
Proof.
  intros Hwf [Hreq Htimer] Hfresh. unfold callTool_start.
  destruct (connected w); [|done]. destruct (mcpProcess w) as [proc|]; [|done].
  destruct writable; [|done].
  match goal with |- armed _ _ _ _ (let '(_, _) := ?c in _).1 =>
    change (armed id p t due_at c.1) end.
  rewrite waitForResponse_fields. split; simpl.
  - rewrite lookup_insert_ne; [done|]. intros Heq. rewrite Heq in Hfresh. congruence.
  - rewrite lookup_insert_ne; [done|]. intros Heq.
    pose proof (WF_fresh_timer w Hwf) as Hf. rewrite Heq in Hf. congruence.
Qed.

Lemma unanswered_fresh w ev : unanswered id due_at w ev -> fresh_call w ev.
Proof. by destruct ev. Qed.

Lemma step_armed w ev :
  WF w -> armed id p t due_at w -> unanswered id due_at w ev ->
  armed id p t due_at (step w ev).
Proof.
  intros Hwf Harmed Hev.
  destruct ev as [[e|proc]| | | | | | |]; simpl in Hev; try done; cbn [step].
  - by apply callTool_start_armed.
  - rewrite handleProcessOutput_dispatched.
    apply foldl_deliver_armed; [by eapply WF_books; [..|exact Hwf]|done|done].
  - by apply elapse_armed.
Qed.

Lemma run_armed evs w :
  WF w -> armed id p t due_at w -> along (unanswered id due_at) w evs ->
  WF (run w evs) /\ armed id p t due_at (run w evs).
Proof.
  revert w. induction evs as [|ev evs IH]; intros w Hwf Harmed Hevs; [done|].
  destruct Hevs as [Hev Hevs]. simpl.
  apply IH; [apply step_WF; [done|by eapply unanswered_fresh]|by apply step_armed|done].
Qed.

Lemma timer_fires_timed_out t' w :
  timed_out id p w -> timed_out id p (timer_fires t' w).
Proof.
  intros [Hgone Hrej]. destruct (timers w !! t') as [tm|] eqn:Ht'.
  - rewrite (timer_fires_take_out t' tm) by done. split.
    + unfold take_out. unfold_world. simpl.
      destruct (promises w !! timer_reject tm) as [[]|]; simpl;
        by apply lookup_delete_None; right.
    + by apply take_out_settled.
  - unfold timer_fires. by rewrite Ht'.
Qed.

Lemma foldl_timer_fires_timed_out ts w :
  timed_out id p w -> timed_out id p (foldl (fun w' t' => timer_fires t' w') w ts).
Proof.
  revert w. induction ts as [|t' ts IH]; intros w Hdone; [done|].
  simpl. by apply IH, timer_fires_timed_out.
Qed.

Lemma foldl_timer_fires_fires ts w :
  WF w -> armed id p t due_at w -> t ∈ ts ->
  timed_out id p (foldl (fun w' t' => timer_fires t' w') w ts).
Proof.
  revert w. induction ts as [|t' ts IH]; intros w Hwf Harmed Hin.
  { by apply elem_of_nil in Hin. }
  simpl. destruct (decide (t' = t)) as [->|Hne].
  - apply foldl_timer_fires_timed_out.
    destruct Harmed as [Hreq Htimer].
    destruct (wf_entry w Hwf id _ Hreq) as [Hp _]. simpl in Hp.
    rewrite (timer_fires_take_out t _ w Htimer). simpl.
    rewrite take_out_fields by done. split; simpl.
    + by rewrite lookup_delete_eq.
    + by rewrite lookup_insert_eq.
  - apply IH; [by apply timer_fires_WF|by apply timer_fires_armed|].
    apply elem_of_cons in Hin as [?|?]; [congruence|done].
Qed.

Lemma elapse_timed_out w :
  WF w -> armed id p t due_at w -> timed_out id p (elapse due_at w).
Proof.
  intros Hwf Harmed.
  assert (t ∈ due due_at w) as Hin.
  { apply elem_of_due. destruct Harmed as [_ Ht]. eexists. split; [done|]. simpl. lia. }
  pose proof (foldl_timer_fires_fires (due due_at w) w Hwf Harmed Hin) as [A B].
  split; simpl; done.
Qed.

End Outstanding.


Lemma callTool_start_awaiting tool args now random proc w :
  connected w = true -> mcpProcess w = Some proc ->
  callTool_start tool args now random true w =
  ((waitForResponse (requestId_of now random)
      (do_io (StdinWrite proc (tools_call tool args (requestId_of now random))) w)).1,
   Awaiting (requestId_of now random) (next_promise w)).
Proof. intros Hc Hp. unfold callTool_start. by rewrite Hc, Hp. Qed.

(** ** The claims on time-outs and on the death of the subprocess *)

(** C3.  A call whose matching response does not arrive stays suspended,
    with its request in [pendingRequests], as long as the event loop has
    not reached the deadline, 45000 ms after the call; when the loop reaches
    the deadline the request leaves [pendingRequests] and [callTool] returns
    the Tool Result [{success: false, error: 'MCP request timeout'}] instead
    of throwing. *)
Theorem callTool_times_out_at_deadline
    (w : World) (tool : jsstring) (args : json) (now : Z) (random : Qc)
    (proc : ChildProcess) (evs : list Event) :
  WF w -> connected w = true -> mcpProcess w = Some proc ->
  pendingRequests w !! requestId_of now random = None ->
  let id := requestId_of now random in
  let due_at := (clock w + 45000)%Z in
  let started := callTool_start tool args now random true w in
  along (unanswered id due_at) started.1 evs ->
  let before := run started.1 evs in
  let after := elapse due_at before in
  (exists p, started.2 = Awaiting id p) /\
  callTool_result tool started.2 before = None /\
  is_Some (pendingRequests before !! id) /\
  pendingRequests after !! id = None /\
  callTool_result tool started.2 after =
    Some (inr {| success := false; data := None;
                 error := Some (jstr "MCP request timeout");
                 imageData := None; toolName := Some tool; content := None |}).
Proof.
  intros Hwf Hc Hproc Hfresh.
  rewrite (callTool_start_awaiting _ _ _ _ proc) by done.
  intros id due_at started. subst started. cbn [fst snd]. fold id.
  set (w0 := do_io (StdinWrite proc (tools_call tool args id)) w).
  intros Hevs.
  set (before := run (waitForResponse id w0).1 evs).
  set (after := elapse due_at before).
  assert (WF w0) as Hwf0 by (by eapply WF_books; [..|exact Hwf]).
  assert (WF (waitForResponse id w0).1) as Hwf1 by (by apply waitForResponse_WF).
  assert (armed id (next_promise w) (next_timer w) due_at (waitForResponse id w0).1)
    as Harmed.
  { rewrite waitForResponse_fields. split; simpl; by rewrite lookup_insert_eq. }
  destruct (run_armed id _ _ due_at evs _ Hwf1 Harmed Hevs) as [Hwf2 Harmed2].
  fold before in Hwf2, Harmed2.
  destruct (elapse_timed_out id _ _ due_at before Hwf2 Harmed2) as [Hgone Hrej].
  fold after in Hgone, Hrej.
  destruct Harmed2 as [Hreq Htimer].
  destruct (wf_entry before Hwf2 id _ Hreq) as [Hpending _]. simpl in Hpending.
  split_and!.
  - by eexists.
  - unfold callTool_result. by rewrite Hpending.
  - by eexists.
  - done.
  - unfold callTool_result. by rewrite Hrej.
Qed.



(** ** The claim on correlation *)

(** Rounding to binary64 keeps a number that is at least [1] away from
    [0]. *)
Lemma round_half_even_floor n d : (n / Z.pos d <= round_half_even n d)%Z.
Proof.
  unfold round_half_even. cbv zeta.
  destruct (2 * (n mod Z.pos d) ?= Z.pos d)%Z; [destruct (Z.even _)|..]; lia.
Qed.

Lemma exponent_reached (n : Z) (d : positive) :
  (Z.pos d <= n)%Z ->
  (0 <= exponent n d)%Z /\ (Z.pos d * 2 ^ exponent n d <= n)%Z.
Proof.
  intros Hle. unfold exponent. cbv zeta. rewrite Z.abs_eq by lia.
  set (e := (Z.log2 n - Z.log2 (Z.pos d))%Z).
  assert (0 <= e)%Z as He.
  { pose proof (Z.log2_le_mono _ _ Hle). lia. }
  unfold reaches. rewrite (proj2 (Z.leb_le 0 e)) by done.
  destruct (Z.leb_spec (Z.pos d * 2 ^ e) n) as [Hreach|Hshort]; [done|].
  assert (e <> 0)%Z as Hne.
  { intros He0. rewrite He0 in Hshort. simpl in Hshort. lia. }
  split; [lia|].
  pose proof (Z.log2_spec n ltac:(lia)) as [Hlow _].
  pose proof (Z.log2_spec (Z.pos d) ltac:(lia)) as [_ Hhigh].
  pose proof (Z.log2_nonneg (Z.pos d)) as Hd.
  assert (2 ^ Z.log2 n = 2 ^ Z.succ (Z.log2 (Z.pos d)) * 2 ^ (e - 1))%Z as Hsplit.
  { rewrite <- Z.pow_add_r by lia. f_equal. lia. }
  assert (0 < 2 ^ (e - 1))%Z as Hpos by (apply Z.pow_pos_nonneg; lia).
  nia.
Qed.

Lemma Q2Qc_nonzero q : (0 < Qnum q)%Z -> Q2Qc q <> Q2Qc 0.
Proof.
  intros Hpos Heq. apply (f_equal this) in Heq. simpl in Heq.
  assert (q == 0)%Q as Hq.
  { rewrite <- (Qred_correct q), Heq. apply Qred_correct. }
  unfold Qeq in Hq. simpl in Hq. lia.
Qed.

Lemma binary64_nonzero x : (1 <= x)%Qc -> binary64 x <> Q2Qc 0.
Proof.
  intros Hle. destruct x as [[n d] Hcanon].
  assert (Z.pos d <= n)%Z as Hdn.
  { unfold Qcle, Qle in Hle. simpl in Hle. lia. }
  unfold binary64. cbn [this Qnum Qden].
  destruct (Z.eqb_spec n 0) as [->|_]; [lia|]. cbv zeta.
  destruct (exponent_reached n d Hdn) as [He Hreach].
  set (e := exponent n d) in *.
  set (u := Z.max (e - 52) (-1074)).
  assert (u <= e)%Z as Hue by lia.
  destruct (Z.leb_spec 0 u) as [Hu|Hu].
  - apply Q2Qc_nonzero. simpl.
    assert (0 < 2 ^ u)%Z as Hpow by (apply Z.pow_pos_nonneg; lia).
    assert (2 ^ u <= 2 ^ e)%Z as Hmono by (apply Z.pow_le_mono_r; lia).
    pose proof (round_half_even_floor n (d * Z.to_pos (2 ^ u))) as Hfloor.
    rewrite Pos2Z.inj_mul, Z2Pos.id in Hfloor by done.
    assert (1 <= n / (Z.pos d * 2 ^ u))%Z as Hone.
    { apply Z.div_le_lower_bound; nia. }
    set (m := round_half_even n (d * Z.to_pos (2 ^ u))) in *.
    assert (0 < 2 ^ 1024)%Z by done.
    nia.
  - apply Q2Qc_nonzero. simpl.
    assert (0 < 2 ^ (- u))%Z as Hpow by (apply Z.pow_pos_nonneg; lia).
    pose proof (round_half_even_floor (n * 2 ^ (- u)) d) as Hfloor.
    assert (1 <= n * 2 ^ (- u) / Z.pos d)%Z as Hone.
    { apply Z.div_le_lower_bound; nia. }
    lia.
Qed.

(** [Date.now()] is positive and [Math.random()] is not negative, so a
    request id is never [0] (which [handleResponse] would take for a missing
    id). *)
Lemma requestId_of_nonzero now random :
  (0 < now)%Z -> (0 <= random)%Qc -> requestId_of now random <> Q2Qc 0.
Proof.
  intros Hnow Hrandom. apply binary64_nonzero.
  assert (1 <= Q2Qc (inject_Z now))%Qc as Hone.
  { unfold Qcle. simpl. rewrite !Qred_correct. unfold Qle. simpl. lia. }
  rewrite <- (Qcplus_0_r 1). by apply Qcplus_le_compat.
Qed.

(** Two calls in the same millisecond whose random parts differ by less
    than the sum can hold get one and the same request id. *)
Lemma requestId_of_rounds :
  requestId_of 1762109000000 (Q2Qc (1 # 2)) =
  requestId_of 1762109000000 (Q2Qc (1 # 2) + Q2Qc (1 # 1073741824)).
Proof. apply Qc_is_canon. by vm_compute. Qed.

Lemma invoke_unfold c proc w :
  connected w = true -> mcpProcess w = Some proc ->
  invoke c w =
  ((waitForResponse (inv_id c)
      (do_io (StdinWrite proc (tools_call (inv_tool c) (inv_args c) (inv_id c))) w)).1,
   Awaiting (inv_id c) (next_promise w)).
Proof. intros. unfold invoke. by erewrite callTool_start_awaiting. Qed.

(** After the callers have entered, each is suspended on a promise of its
    own, entered in [pendingRequests] under its request id. *)
Lemma invoke_all_spec cs proc w :
  WF w -> connected w = true -> mcpProcess w = Some proc ->
  NoDup (inv_id <$> cs) ->
  (forall c, c ∈ cs -> pendingRequests w !! inv_id c = None) ->
  let w1 := (invoke_all cs w).1 in
  let started := (invoke_all cs w).2 in
  WF w1 /\
  pendingRequests w ⊆ pendingRequests w1 /\
  forall i c, cs !! i = Some c ->
    exists p t, started !! i = Some (Awaiting (inv_id c) p) /\
                pendingRequests w1 !! inv_id c = Some {| promise := p; timeout := t |}.
Proof.
  revert w. induction cs as [|c cs IH]; intros w Hwf Hc Hproc Hnodup Hfresh; simpl.
  { split_and!; try done. }
  apply NoDup_cons in Hnodup as [Hnotin Hnodup]. simpl in Hnotin.
  rewrite (invoke_unfold c proc) by done.
  set (w0 := do_io (StdinWrite proc (tools_call (inv_tool c) (inv_args c) (inv_id c))) w).
  assert (pendingRequests w !! inv_id c = None) as Hfc
    by (apply Hfresh, elem_of_cons; by left).
  assert (WF (waitForResponse (inv_id c) w0).1) as Hwf1.
  { apply waitForResponse_WF; [|done]. by eapply WF_books; [..|exact Hwf]. }
  specialize (IH (waitForResponse (inv_id c) w0).1 Hwf1).
  rewrite waitForResponse_fields in IH, Hwf1 |- *. cbn [fst] in IH, Hwf1 |- *.
  match type of Hwf1 with WF ?x => set (w1 := x) in * end.
  destruct (invoke_all cs w1) as [w2 sts] eqn:Hrest. cbn [fst snd] in *.
  destruct IH as (Hwf2 & Hsub & Hall); try done.
  { intros c' Hc'. subst w1. simpl. rewrite lookup_insert_ne.
    - apply Hfresh, elem_of_cons. by right.
    - intros Heq. apply Hnotin. apply list_elem_of_fmap. by exists c'. }
  split_and!; [done| |].
  - etrans; [|exact Hsub]. subst w1. simpl. by apply insert_subseteq.
  - intros [|i] c' Hi; simpl in Hi.
    + inversion Hi; subst c'. exists (next_promise w), (next_timer w).
      split; [done|]. eapply lookup_weaken; [|exact Hsub].
      subst w1. simpl. by rewrite lookup_insert_eq.
    + by apply Hall.
Qed.

Lemma foldl_deliver_settled responses w q x :
  promises w !! q = Some x -> x <> Pending ->
  promises (foldl deliver w responses) !! q = Some x.
Proof.
  revert w. induction responses as [|r rs IH]; intros w Hq Hx; [done|].
  simpl. apply IH; [|done].
  destruct (deliver_cases r w) as [->|(id & request & _ & _ & _ & ->)]; [done|].
  by apply take_out_settled.
Qed.

(** Responses that arrive, one for each of a set of requests with distinct
    ids, resolve each request's promise with the response that carries its
    id, in whatever order they arrive. *)
Lemma deliver_all (arrival : list (Invocation * json)) w :
  WF w -> NoDup (inv_id <$> arrival.*1) ->
  (forall c r, (c, r) ∈ arrival ->
     id_of r = Some (JNum (inv_id c)) /\ inv_id c <> Q2Qc 0) ->
  forall c r request, (c, r) ∈ arrival ->
    pendingRequests w !! inv_id c = Some request ->
    promises (foldl deliver w arrival.*2) !! promise request = Some (Fulfilled r).
Proof.
  revert w. induction arrival as [|[c0 r0] arrival IH];
    intros w Hwf Hnodup Hids c r request Hin Hreq.
  { by apply elem_of_nil in Hin. }
  simpl in *. apply NoDup_cons in Hnodup as [Hnotin Hnodup].
  destruct (Hids c0 r0) as [Hid0 Hnz0]; [apply elem_of_cons; by left|].
  apply elem_of_cons in Hin as [[= -> ->]|Hin].
  - unfold deliver at 2. rewrite (handleResponse_match r0 (inv_id c0) request) by done.
    simpl. apply foldl_deliver_settled; [|done].
    destruct (wf_entry w Hwf _ _ Hreq) as [Hp _].
    rewrite take_out_fields by done. simpl. by rewrite lookup_insert_eq.
  - assert (inv_id c <> inv_id c0) as Hne.
    { intros Heq. apply Hnotin. rewrite <- Heq. apply list_elem_of_fmap.
      exists c. split; [done|]. apply list_elem_of_fmap. by exists (c, r). }
    apply (IH (deliver w r0)) with (c := c); try done.
    + by apply deliver_WF.
    + intros c' r' Hin'. apply Hids, elem_of_cons. by right.
    + destruct (deliver_cases r0 w) as [->|(id & request' & Hid & _ & Hreq' & ->)];
        [done|].
      rewrite Hid0 in Hid. inversion Hid; subst id.
      destruct (wf_entry w Hwf _ _ Hreq') as [Hp' _].
      rewrite take_out_fields by done. simpl. by rewrite lookup_delete_ne.
Qed.

(** ** The samples are states the client reaches *)

Lemma connected_client_WF : WF Samples.connected_client.
Proof. eapply WF_books; [..|apply (new_WF 1000)]; done. Qed.

Lemma two_waiting_WF : WF Samples.two_waiting.
Proof.
  unfold Samples.two_waiting.
  eapply (proj1 (invoke_all_spec [Samples.screenshot_call; Samples.click_call]
                   {| pid := 1 |} Samples.connected_client _ _ _ _ _)).
  Unshelve.
  1: apply connected_client_WF. 1, 2: done.
  - refine (bool_decide_unpack _ _). by vm_compute.
  - intros c Hc. apply elem_of_cons in Hc as [->|Hc];
      [|apply elem_of_cons in Hc as [->|Hc]; [|by apply elem_of_nil in Hc]];
      by vm_compute.
Qed.

Lemma callTool_times_out_at_deadline_witness :
  let w := Samples.connected_client in
  let tool := lit "remote_macos_get_screen" in
  let id := requestId_of 1700 (Q2Qc (1 # 4)) in
  let started := callTool_start tool (JObj []) 1700 (Q2Qc (1 # 4)) true w in
  let evs := [Elapse 30000; Stdout Samples.click_line; Elapse 45999] in
  let before := run started.1 evs in
  let after := elapse 46000 before in
  (exists p, started.2 = Awaiting id p) /\
  callTool_result tool started.2 before = None /\
  is_Some (pendingRequests before !! id) /\
  pendingRequests after !! id = None /\
  callTool_result tool started.2 after =
    Some (inr {| success := false; data := None;
                 error := Some (jstr "MCP request timeout");
                 imageData := None; toolName := Some tool; content := None |}).
Proof.
  apply (callTool_times_out_at_deadline Samples.connected_client
           (lit "remote_macos_get_screen") (JObj []) 1700 (Q2Qc (1 # 4))
           {| pid := 1 |} [Elapse 30000; Stdout Samples.click_line; Elapse 45999]).
  - apply connected_client_WF.
  - reflexivity.
  - reflexivity.
  - reflexivity.
  - simpl. split_and!; try done.
    apply Forall_forall. intros r Hr.
    vm_compute in Hr. apply elem_of_cons in Hr as [->|Hr];
      [|by apply elem_of_nil in Hr].
    intros Heq. apply (f_equal (fun v => match v with
                                         | Some (JNum q) => Qnum (this q)
                                         | _ => 0%Z
                                         end)) in Heq.
    vm_compute in Heq. discriminate.
Defined.



End MCPClientFacts.

(* ===================================================================== *)
(** * Part VIII.  Line framing                                            *)
(* ===================================================================== *)

Module Framing.
Import JS MCP MCPClient.

Definition last_line (text : jsstring) : jsstring := default [] (last (split_nl text)).

Lemma split_nl_nonempty s : split_nl s <> [].
Proof.
  destruct s as [|c s]; simpl; [done|].
  destruct (c =? LF)%N; [done|]. by destruct (split_nl s).
Qed.

Lemma removelast_cons {A} (x : A) l : l <> [] -> removelast (x :: l) = x :: removelast l.
Proof. by destruct l. Qed.

Lemma last_cons_nonempty {A} (x : A) l : l <> [] -> last (x :: l) = last l.
Proof. by destruct l. Qed.

(** Splitting a text that arrives in two parts: the complete lines of the
    first part, then the lines of what was left of it followed by the
    second part. *)
Lemma split_nl_app a b :
  split_nl (a ++ b) = complete_lines a ++ split_nl (last_line a ++ b).
Proof.
  unfold complete_lines, last_line.
  induction a as [|c a IH]; simpl; [done|].
  pose proof (split_nl_nonempty a) as Hne.
  destruct (c =? LF)%N eqn:Hc.
  - rewrite IH. rewrite removelast_cons by done.
    by rewrite last_cons_nonempty.
  - rewrite IH. destruct (split_nl a) as [|l ls] eqn:Hsplit; [done|].
    destruct ls as [|l' ls]; simpl.
    + by rewrite Hc.
    + done.
Qed.

Lemma removelast_app_nonempty {A} (l k : list A) :
  k <> [] -> removelast (l ++ k) = l ++ removelast k.
Proof. intros. by apply removelast_app. Qed.

Lemma complete_lines_app a b :
  complete_lines (a ++ b) = complete_lines a ++ complete_lines (last_line a ++ b).
Proof.
  unfold complete_lines at 1. rewrite split_nl_app.
  rewrite removelast_app_nonempty by apply split_nl_nonempty. done.
Qed.

Lemma last_line_app a b : last_line (a ++ b) = last_line (last_line a ++ b).
Proof.
  unfold last_line at 1. rewrite split_nl_app, last_app.
  unfold last_line at 2.
  destruct (last (split_nl (last_line a ++ b))) eqn:Hl; [done|].
  apply last_None in Hl. by apply split_nl_nonempty in Hl.
Qed.

Lemma responses_in_app a b :
  responses_in (a ++ b) = responses_in a ++ responses_in (last_line a ++ b).
Proof. unfold responses_in. by rewrite complete_lines_app, omap_app. Qed.

Lemma split_nl_no_LF s : LF ∉ s -> split_nl s = [s].
Proof.
  induction s as [|c s IH]; intros Hno; simpl; [done|].
  apply not_elem_of_cons in Hno as [Hc Hs].
  destruct (c =? LF)%N eqn:Heq; [apply N.eqb_eq in Heq; congruence|].
  by rewrite IH.
Qed.

Lemma last_line_no_LF s : LF ∉ last_line s.
Proof.
  unfold last_line. induction s as [|c s IH]; simpl.
  { apply not_elem_of_nil. }
  pose proof (split_nl_nonempty s) as Hne.
  destruct (c =? LF)%N eqn:Heq.
  - by rewrite last_cons_nonempty.
  - destruct (split_nl s) as [|l [|l' ls]] eqn:Hs; [done| |done].
    simpl in *. apply not_elem_of_cons. split; [|done].
    intros <-. by rewrite N.eqb_refl in Heq.
Qed.

(** What a sequence of chunks dispatches, and the fragment it leaves in the
    buffer, depend on the concatenation of the decoded chunks only. *)
Lemma feed_texts chunks buffer :
  LF ∉ buffer ->
  feed buffer chunks =
  (responses_in (buffer ++ mjoin (Buffer_toString <$> chunks)),
   last_line (buffer ++ mjoin (Buffer_toString <$> chunks))).
Proof.
  revert buffer. induction chunks as [|data chunks IH]; intros buffer Hno; simpl.
  - rewrite app_nil_r. unfold responses_in, complete_lines, last_line.
    by rewrite split_nl_no_LF.
  - fold (last_line (buffer ++ Buffer_toString data)).
    rewrite IH by apply last_line_no_LF.
    rewrite app_assoc.
    by rewrite (responses_in_app (buffer ++ _)), (last_line_app (buffer ++ _)).
Qed.

(** Decoding chunk by chunk is decoding the whole stream when no character
    is cut in two, as in a stream of ASCII. *)
Lemma utf8_run_ascii bs :
  Forall (fun b => (b < 128)%N) bs -> utf8_run None bs = bs.
Proof.
  induction 1 as [|b bs Hb _ IH]; simpl; [done|].
  unfold utf8_lead.
  assert ((b <=? 127)%N = true) as -> by (apply N.leb_le; lia).
  simpl. by rewrite IH.
Qed.

Definition ascii (data : list byte) : Prop :=
  Forall (fun b => (Byte.to_N b < 128)%N) data.

Lemma Buffer_toString_ascii data :
  ascii data -> Buffer_toString data = Byte.to_N <$> data.
Proof.
  intros Ha. unfold Buffer_toString. apply utf8_run_ascii.
  by apply Forall_fmap.
Qed.

Lemma decode_chunks_ascii chunks :
  ascii (mjoin chunks) ->
  mjoin (Buffer_toString <$> chunks) = Buffer_toString (mjoin chunks).
Proof.
  induction chunks as [|data chunks IH]; intros Ha; [done|].
  change (mjoin (data :: chunks)) with (data ++ mjoin chunks) in *.
  change (mjoin (Buffer_toString <$> data :: chunks))
    with (Buffer_toString data ++ mjoin (Buffer_toString <$> chunks)).
  apply Forall_app in Ha as [Hd Hrest].
  rewrite IH by done.
  rewrite !Buffer_toString_ascii; [|by apply Forall_app|done|done].
  by rewrite fmap_app.
Qed.

(** A line feed ends whatever character was being decoded, so the text of
    lines that follow one another is the texts of the lines. *)
Definition settled (st : option utf8_partial) : Prop :=
  match st with Some p => (128 <= up_lower p)%N | None => True end.

Lemma utf8_lead_settled b : settled (utf8_lead b).2.
Proof.
  unfold utf8_lead. destruct (b <=? 127)%N; [done|].
  destruct (_ && _); [simpl; lia|].
  destruct (_ && _); [simpl; destruct (b =? 224)%N; lia|].
  destruct (_ && _); [simpl; destruct (b =? 240)%N; lia|done].
Qed.

Lemma utf8_run_LF st l rest :
  settled st ->
  utf8_run st (l ++ LF :: rest) = utf8_run st l ++ LF :: utf8_run None rest.
Proof.
  revert st. induction l as [|b l IH]; intros st Hst.
  - destruct st as [p|]; [|done]. simpl in *.
    assert ((up_lower p <=? LF)%N = false) as ->; [|done].
    apply N.leb_gt. unfold LF. lia.
  - cbn [app utf8_run]. destruct st as [p|].
    + destruct (_ && _).
      * destruct (up_needed p) as [|[|k]].
        -- by rewrite IH.
        -- by rewrite IH.
        -- by rewrite IH by (simpl; lia).
      * pose proof (utf8_lead_settled b) as Hb.
        destruct (utf8_lead b) as [out st']. rewrite IH by done.
        cbn [app]. by rewrite app_assoc.
    + pose proof (utf8_lead_settled b) as Hb.
      destruct (utf8_lead b) as [out st']. rewrite IH by done.
      by rewrite app_assoc.
Qed.

Lemma Buffer_toString_stream lines :
  Buffer_toString (stream_of lines) =
  mjoin ((fun line => Buffer_toString line ++ [LF]) <$> lines).
Proof.
  induction lines as [|line lines IH]; [done|].
  change (stream_of (line :: lines)) with ((line ++ [x0a]) ++ stream_of lines).
  change (mjoin ((fun line => Buffer_toString line ++ [LF]) <$> line :: lines))
    with ((Buffer_toString line ++ [LF])
          ++ mjoin ((fun line => Buffer_toString line ++ [LF]) <$> lines)).
  rewrite <- IH.
  unfold Buffer_toString. rewrite <- !app_assoc, !fmap_app.
  cbn [fmap list_fmap app]. change (Byte.to_N x0a) with LF.
  by rewrite utf8_run_LF.
Qed.

Lemma split_nl_line text rest :
  LF ∉ text -> split_nl (text ++ LF :: rest) = text :: split_nl rest.
Proof.
  induction text as [|c text IH]; intros Hno; [done|].
  apply not_elem_of_cons in Hno as [Hc Hno]. cbn [app split_nl].
  destruct (c =? LF)%N eqn:Heq; [apply N.eqb_eq in Heq; congruence|].
  by rewrite IH.
Qed.

(** The text of whole lines dispatches what each line parses to, and
    leaves nothing in the buffer. *)
Lemma responses_in_lines texts :
  Forall (fun text => LF ∉ text) texts ->
  responses_in (mjoin ((fun text => text ++ [LF]) <$> texts)) = omap parse_line texts /\
  last_line (mjoin ((fun text => text ++ [LF]) <$> texts)) = [].
Proof.
  unfold responses_in, complete_lines, last_line.
  induction 1 as [|text texts Hno _ [IH1 IH2]]; [done|].
  change (mjoin ((fun text => text ++ [LF]) <$> text :: texts))
    with ((text ++ [LF]) ++ mjoin ((fun text => text ++ [LF]) <$> texts)).
  rewrite <- app_assoc. cbn [app].
  rewrite split_nl_line by done.
  rewrite removelast_cons, last_cons_nonempty by apply split_nl_nonempty.
  cbn [omap list_omap]. by rewrite IH1, IH2.
Qed.

(** Line buffering for ASCII streams: however the stream is cut into
    chunks, the same responses are dispatched and the same fragment is
    left in the buffer. *)
Theorem chunking_irrelevant_ascii (chunks chunks' : list (list byte)) :
  mjoin chunks = mjoin chunks' -> ascii (mjoin chunks) ->
  feed [] chunks = feed [] chunks'.
Proof.
  intros Heq Ha.
  rewrite !feed_texts by apply not_elem_of_nil.
  rewrite !decode_chunks_ascii; [by rewrite Heq|by rewrite <- Heq|done].
Qed.

Lemma chunking_irrelevant_ascii_witness :
  feed [] [take 10 Samples.click_line; drop 10 Samples.click_line] =
  feed [] [Samples.click_line].
Proof.
  apply chunking_irrelevant_ascii.
  - by vm_compute.
  - refine (bool_decide_unpack _ _). by vm_compute.
Defined.

(** [feed] is what the client does on [data] events. *)
Lemma deliver_buffer b w r :
  deliver (with_responseBuffer b w) r = with_responseBuffer b (deliver w r).
Proof.
  unfold deliver, handleResponse.
  destruct (prop (Some r) (lit "id")) as [e|v]; [done|]. simpl.
  destruct (truthy v); [|done].
  destruct v as [[| |q| | |]|]; try done. simpl.
  destruct (pendingRequests w !! q) as [request|]; [|done].
  unfold resolve, settle, clearTimeout, with_timers, with_pendingRequests,
    with_promises, with_responseBuffer. simpl.
  by destruct (promises w !! promise request) as [[]|].
Qed.

Lemma foldl_deliver_buffer b rs w :
  foldl deliver (with_responseBuffer b w) rs = with_responseBuffer b (foldl deliver w rs).
Proof.
  revert w. induction rs as [|r rs IH]; intros w; [done|].
  simpl. by rewrite deliver_buffer, IH.
Qed.

Lemma run_stdout chunks w :
  run w (Stdout <$> chunks) =
  with_responseBuffer (feed (responseBuffer w) chunks).2
    (foldl deliver w (feed (responseBuffer w) chunks).1).
Proof.
  revert w. induction chunks as [|data chunks IH]; intros w; simpl.
  { by destruct w. }
  rewrite IH. rewrite MCPClientFacts.handleProcessOutput_dispatched.
  rewrite foldl_deliver_buffer. simpl.
  unfold dispatched. fold (last_line (responseBuffer w ++ Buffer_toString data)).
  destruct (feed (last_line (responseBuffer w ++ Buffer_toString data)) chunks)
    as [later final]. simpl.
  rewrite foldl_app, foldl_deliver_buffer. by destruct (foldl deliver _ later).
Qed.

(** C2.  A response line that holds a character of two bytes arrives once
    whole and once cut between the two bytes.  The chunks add up to the same
    stream, yet the caller gets the text [Café] in the first case and [Caf]
    followed by two U+FFFD in the second: [handleProcessOutput] decodes each
    chunk on its own. *)
Theorem cut_character_changes_the_response :
  mjoin Samples.cafe_cut = mjoin Samples.cafe_whole /\
  Samples.received Samples.cafe_whole = Some (Some (jstr "Café")) /\
  Samples.received Samples.cafe_cut =
    Some (Some (JStr (lit "Caf" ++ [REPLACEMENT; REPLACEMENT]))) /\
  (feed [] Samples.cafe_whole).2 = [] /\ (feed [] Samples.cafe_cut).2 = [].
Proof. split_and!; by vm_compute. Qed.

End Framing.

(* ===================================================================== *)
(** * Part VIII b.  Correlation of responses                              *)
(* ===================================================================== *)

Module Correlation.
Import JS MCP MCPClient.

Lemma callTool_start_buffer tool args now random writable w :
  responseBuffer (callTool_start tool args now random writable w).1 = responseBuffer w.
Proof.
  unfold callTool_start.
  destruct (connected w); [|done]. destruct (mcpProcess w) as [proc|]; [|done].
  destruct writable; [|done].
  match goal with |- responseBuffer (let '(_, _) := ?c in _).1 = _ =>
    change (responseBuffer c.1 = responseBuffer w) end.
  by rewrite MCPClientFacts.waitForResponse_fields.
Qed.

Lemma invoke_all_buffer cs w : responseBuffer (invoke_all cs w).1 = responseBuffer w.
Proof.
  revert w. induction cs as [|c cs IH]; intros w; [done|].
  simpl. unfold invoke at 1.
  pose proof (callTool_start_buffer (inv_tool c) (inv_args c) (inv_now c)
                (inv_random c) true w) as Hb.
  destruct (callTool_start _ _ _ _ _ w) as [w1 st]. simpl in Hb.
  specialize (IH w1). destruct (invoke_all cs w1) as [w2 sts]. simpl in *. congruence.
Qed.

(** What the lines of [lines] are read as, one response for each line. *)
Definition read (line : list byte) : json :=
  default JNull (parse_line (Buffer_toString line)).

Lemma carries_read line r : carries line r -> read line = r.
Proof. intros [_ Hr]. unfold read. by rewrite Hr. Qed.

(** The output that consists of whole response lines hands the responses
    of the lines to [handleResponse], in the order of the lines, however it
    is cut into chunks that hold whole characters. *)
Lemma run_lines (lines : list (list byte)) (chunks : list (list byte)) w :
  responseBuffer w = [] ->
  Forall (fun line => exists r, carries line r) lines ->
  mjoin chunks = stream_of lines -> whole_characters chunks ->
  run w (Stdout <$> chunks) = foldl deliver w (read <$> lines).
Proof.
  intros Hbuf Hlines Hstream Hwhole.
  rewrite Framing.run_stdout, Hbuf.
  rewrite Framing.feed_texts by apply not_elem_of_nil. cbn [app fst snd].
  rewrite Hwhole, Hstream, Framing.Buffer_toString_stream.
  assert (mjoin ((fun line => Buffer_toString line ++ [LF]) <$> lines) =
          mjoin ((fun text => text ++ [LF]) <$> (Buffer_toString <$> lines))) as ->
    by (by rewrite <- list_fmap_compose).
  destruct (Framing.responses_in_lines (Buffer_toString <$> lines)) as [-> ->].
  { apply Forall_fmap. eapply Forall_impl; [exact Hlines|].
    by intros line (r & Hno & _). }
  assert (omap parse_line (Buffer_toString <$> lines) = read <$> lines) as ->.
  { clear -Hlines. induction Hlines as [|line lines (r & Hno & Hr) _ IH]; [done|].
    cbn [fmap list_fmap omap list_omap]. unfold read at 1. rewrite Hr, IH. done. }
  set (w' := foldl deliver w (read <$> lines)).
  rewrite <- Hbuf.
  assert (responseBuffer w' = responseBuffer w) as <-.
  { subst w'. generalize (read <$> lines). intros rs. revert w Hbuf.
    induction rs as [|r rs IH]; intros w Hbuf; [done|]. simpl.
    assert (responseBuffer (deliver w r) = responseBuffer w) as Hd.
    { destruct (MCPClientFacts.deliver_cases r w)
        as [->|(id & request & _ & _ & _ & ->)]; [done|].
      unfold MCPClientFacts.take_out. MCPClientFacts.unfold_world. simpl.
      by destruct (promises w !! promise request) as [[]|]. }
    rewrite IH; [done|]. by rewrite Hd. }
  by destruct w'.
Qed.

(** C1.  Callers enter [callTool] with pairwise distinct request ids, and
    the subprocess writes one response line for each request, carrying its
    id, the lines in any order and the output cut into chunks anywhere
    between two characters.  Then the promise each caller is suspended on is
    resolved with exactly the response read from the line that carries the
    caller's request id, and the caller gets the Tool Result made from that
    response. *)
Theorem responses_correlate_by_id
    (w : World) (proc : ChildProcess)
    (pairs arrival : list (Invocation * list byte)) (chunks : list (list byte)) :
  WF w -> connected w = true -> mcpProcess w = Some proc ->
  responseBuffer w = [] ->
  NoDup (inv_id <$> pairs.*1) ->
  (forall c line, (c, line) ∈ pairs ->
     (0 < inv_now c)%Z /\ (0 <= inv_random c)%Qc /\
     pendingRequests w !! inv_id c = None /\
     exists r, carries line r /\ id_of r = Some (JNum (inv_id c))) ->
  arrival ≡ₚ pairs ->
  mjoin chunks = stream_of arrival.*2 -> whole_characters chunks ->
  let entered := invoke_all pairs.*1 w in
  let final := run entered.1 (Stdout <$> chunks) in
  forall i c line, pairs !! i = Some (c, line) ->
    exists p r, entered.2 !! i = Some (Awaiting (inv_id c) p) /\
                carries line r /\ id_of r = Some (JNum (inv_id c)) /\
                promises final !! p = Some (Fulfilled r) /\
                callTool_result (inv_tool c) (Awaiting (inv_id c) p) final =
                  Some (inr (callTool_resume (inv_tool c) (inr r))).
Proof.
  intros Hwf Hc Hproc Hbuf Hnodup Hpairs Hperm Hstream Hwhole entered final i c line Hi.
  destruct (MCPClientFacts.invoke_all_spec pairs.*1 proc w Hwf Hc Hproc Hnodup)
    as (Hwf1 & _ & Hall).
  { intros c' Hc'. apply list_elem_of_fmap in Hc' as [[c'' line'] [-> Hin]].
    by apply (Hpairs c'' line'). }
  fold entered in Hwf1, Hall.
  destruct (Hall i c) as (p & t & Hst & Hreq).
  { rewrite list_lookup_fmap, Hi. done. }
  destruct (Hpairs c line) as (_ & _ & _ & r & Hcarries & Hid).
  { by eapply list_elem_of_lookup_2. }
  assert (final = foldl deliver entered.1 (read <$> arrival.*2)) as Hfinal.
  { subst final. apply run_lines; try done.
    - subst entered. by rewrite invoke_all_buffer.
    - apply Forall_forall. intros line' Hin.
      apply list_elem_of_fmap in Hin as [[c' line''] [-> Hin]].
      rewrite Hperm in Hin. destruct (Hpairs c' line'' Hin) as (_ & _ & _ & r' & ? & _).
      by exists r'. }
  set (answered := (fun cl : Invocation * list byte => (cl.1, read cl.2)) <$> arrival).
  assert (answered.*1 = arrival.*1) as H1.
  { subst answered. rewrite <- list_fmap_compose. done. }
  assert (answered.*2 = read <$> arrival.*2) as H2.
  { subst answered. rewrite <- !list_fmap_compose. done. }
  assert (promises final !! p = Some (Fulfilled r)) as Hp.
  { rewrite Hfinal, <- H2.
    apply (MCPClientFacts.deliver_all answered entered.1 Hwf1) with (c := c)
      (request := {| promise := p; timeout := t |}); try done.
    - rewrite H1, Hperm. done.
    - intros c' r' Hin. subst answered.
      apply list_elem_of_fmap in Hin as [[c'' line'] [[= -> ->] Hin]].
      rewrite Hperm in Hin.
      destruct (Hpairs c'' line' Hin) as (Hnow & Hrandom & _ & r'' & Hc'' & Hid'').
      simpl. rewrite (carries_read _ _ Hc'').
      split; [done|]. by apply MCPClientFacts.requestId_of_nonzero.
    - subst answered. apply list_elem_of_fmap. exists (c, line). simpl.
      rewrite (carries_read _ _ Hcarries). split; [done|].
      rewrite Hperm. by eapply list_elem_of_lookup_2. }
  exists p, r. split_and!; try done.
  unfold callTool_result. by rewrite Hp.
Qed.

(** The two callers of the samples: the response to the click arrives
    first, and the output is cut in the middle of the second line. *)
Lemma responses_correlate_by_id_witness :
  let pairs := [(Samples.screenshot_call, Samples.screenshot_reply);
                (Samples.click_call, Samples.click_reply)] in
  let arrival := [(Samples.click_call, Samples.click_reply);
                  (Samples.screenshot_call, Samples.screenshot_reply)] in
  let output := stream_of arrival.*2 in
  let chunks := [take 100 output; drop 100 output] in
  let entered := invoke_all pairs.*1 Samples.connected_client in
  let final := run entered.1 (Stdout <$> chunks) in
  arrival ≡ₚ pairs /\
  forall i c line, pairs !! i = Some (c, line) ->
    exists p r, entered.2 !! i = Some (Awaiting (inv_id c) p) /\
                carries line r /\ id_of r = Some (JNum (inv_id c)) /\
                promises final !! p = Some (Fulfilled r) /\
                callTool_result (inv_tool c) (Awaiting (inv_id c) p) final =
                  Some (inr (callTool_resume (inv_tool c) (inr r))).
Proof.
  split; [apply perm_swap|].
  apply (responses_correlate_by_id Samples.connected_client {| pid := 1 |}
           [(Samples.screenshot_call, Samples.screenshot_reply);
            (Samples.click_call, Samples.click_reply)]
           [(Samples.click_call, Samples.click_reply);
            (Samples.screenshot_call, Samples.screenshot_reply)]).
  - apply MCPClientFacts.connected_client_WF.
  - reflexivity.
  - reflexivity.
  - reflexivity.
  - refine (bool_decide_unpack _ _). by vm_compute.
  - intros c line Hin.
    apply elem_of_cons in Hin as [[= -> ->]|Hin];
      [|apply elem_of_cons in Hin as [[= -> ->]|Hin]; [|by apply elem_of_nil in Hin]].
    + split_and!; try done. eexists. split; [split|].
      * refine (bool_decide_unpack _ _). by vm_compute.
      * vm_compute. reflexivity.
      * vm_compute. do 2 f_equal; try (apply Qc_is_canon; reflexivity).
    + split_and!; try done. eexists. split; [split|].
      * refine (bool_decide_unpack _ _). by vm_compute.
      * vm_compute. reflexivity.
      * vm_compute. do 2 f_equal; try (apply Qc_is_canon; reflexivity).
  - apply perm_swap.
  - by vm_compute.
  - by vm_compute.
Defined.

End Correlation.

(* ===================================================================== *)
(** * Part IX.  The handshake and the payload of Tool Results             *)
(* ===================================================================== *)

Module Handshake.
Import JS MCP MCPClient.

(** C5.  [connect] on a subprocess that started: the client ends up
    connected without having written anything to the subprocess (no
    [initialize], no [notifications/initialized], no [tools/list]), and its
    catalog is the list of eight tools that [loadTools] holds. *)
Theorem connect_sends_no_handshake (now : Z) (proc : ChildProcess) :
  exists w,
    connect (inr proc) (new now) = inr w /\
    isConnected w = true /\
    written w = [] /\
    sends "initialize" w = false /\
    sends "notifications/initialized" w = false /\
    sends "tools/list" w = false /\
    listTools w = builtin_tools /\
    length (listTools w) = 8.
Proof. eexists. split_and!; reflexivity. Qed.

End Handshake.

Module Payload.
Import JS MCP.

Lemma or_else_populated a b : populated b = true -> populated (or_else a b) = true.
Proof.
  intros Hb. unfold or_else. destruct (truthy a) eqn:Ht; [|done].
  by destruct a.
Qed.

(** ** The subprocess-backed client *)

Lemma exactly_one_not_none r : exactly_one_payload r = true -> no_payload r = false.
Proof.
  unfold exactly_one_payload, no_payload, only_error.
  destruct (success r), (populated (error r)), (populated (content r)),
    (populated (imageData r)); done.
Qed.

Lemma failed_exactly_one tool e :
  populated e = true -> exactly_one_payload (MCPClient.failed tool e) = true.
Proof. intros He. unfold exactly_one_payload, only_error. simpl. by rewrite He. Qed.

(** What [callTool] makes of a response populates exactly one payload
    field, unless the first content item is an image without data. *)
Lemma callTool_resume_payload tool response :
  if MCPClient.image_without_data response
  then no_payload (MCPClient.callTool_resume tool (inr response)) = true
  else exactly_one_payload (MCPClient.callTool_resume tool (inr response)) = true.
Proof.
  unfold MCPClient.callTool_resume. simpl.
  unfold MCPClient.translate, MCPClient.image_without_data.
  destruct (prop (Some response) (lit "error")) as [e|err]; simpl; [done|].
  destruct (truthy err); simpl.
  { destruct (prop err (lit "message")) as [e|msg]; simpl; [done|].
    apply failed_exactly_one. by apply or_else_populated. }
  destruct (prop (Some response) (lit "result")) as [e|result]; simpl; [done|].
  destruct (truthy result); simpl; [|done].
  destruct (prop result (lit "content")) as [e|items]; simpl; [done|].
  destruct (truthy items); simpl; [|done].
  destruct (index0 items) as [e|item]; simpl; [done|].
  destruct (prop item (lit "type")) as [e|type]; simpl; [done|].
  destruct (is_string type (lit "image")); simpl.
  - destruct (prop item (lit "data")) as [e|[image|]]; done.
  - destruct (prop item (lit "text")) as [e|text]; simpl; [done|].
    destruct (prop item (lit "data")) as [e|payload]; simpl; [done|].
    unfold exactly_one_payload. cbn [success error content MCP.imageData populated negb andb].
    by rewrite or_else_populated.
Qed.

Lemma MCPClient_produces_payload r :
  MCPClient.produces r ->
  exactly_one_payload r = true \/
  exists tool response,
    r = MCPClient.callTool_resume tool (inr response) /\
    MCPClient.image_without_data response = true /\ no_payload r = true.
Proof.
  intros (tool & args & now & random & writable & w0 & w & Hr).
  unfold MCPClient.callTool_start in Hr.
  destruct (MCPClient.connected w0); [|done].
  destruct (MCPClient.mcpProcess w0); [|done].
  destruct writable; simpl in Hr.
  - destruct (MCPClient.promises w !! MCPClient.next_promise w0) as [[|response|e]|];
      try done; injection Hr as <-.
    + pose proof (callTool_resume_payload tool response) as Hp.
      destruct (MCPClient.image_without_data response) eqn:Himage; [|by left].
      right. by exists tool, response.
    + by left.
  - injection Hr as <-. by left.
Qed.

(** ** The local client *)

Section Local.
Context `{Builtins} {W : Type} (host : LocalMacOSClient.Host (W := W)).

(** Whatever [m] returns satisfies [P]. *)
Definition returns {A} (m : Eff W A) (P : A -> Prop) : Prop :=
  forall w w' a, m w = (w', inr a) -> P a.

Lemma returns_mret {A} (a : A) (P : A -> Prop) : P a -> returns (mret a) P.
Proof. intros Ha w w' a' [= _ <-]. done. Qed.

Lemma returns_throw {A} e (P : A -> Prop) : returns (throw e) P.
Proof. by intros w w' a. Qed.

Lemma returns_bind {A B} (m : Eff W A) (f : A -> Eff W B) (P : B -> Prop) :
  (forall a, returns (f a) P) -> returns (m ≫= f) P.
Proof.
  intros Hf w w' b. unfold mbind, Eff_bind.
  destruct (m w) as [w1 [e|a]]; [done|]. apply Hf.
Qed.

Lemma returns_catch {A} (m : Eff W A) h (P : A -> Prop) :
  returns m P -> (forall e, returns (h e) P) -> returns (catch m h) P.
Proof.
  intros Hm Hh w w' a. unfold catch.
  destruct (m w) as [w1 [e|a']] eqn:Hmw.
  - apply Hh.
  - intros [= <- <-]. by eapply Hm.
Qed.

Lemma returns_rethrow {A} prefix suffix (m : Eff W A) (P : A -> Prop) :
  returns m P -> returns (LocalMacOSClient.rethrow prefix suffix m) P.
Proof. intros Hm. apply returns_catch; [done|]. intros e. apply returns_throw. Qed.

(** Success with [content] alone. *)
Definition text_only (r : MCPToolResult) : Prop :=
  success r = true /\ error r = None /\ imageData r = None /\ is_Some (content r).

(** Success with both [content] and [imageData]. *)
Definition text_and_image (r : MCPToolResult) : Prop :=
  success r = true /\ error r = None /\ is_Some (imageData r) /\ is_Some (content r).

Lemma succeeded_text_only text : text_only (LocalMacOSClient.succeeded text).
Proof. by repeat split. Qed.

Ltac step_returns :=
  first [ apply returns_throw
        | apply returns_mret
        | apply returns_catch
        | apply returns_rethrow
        | apply returns_bind; intros ? ].

Lemma takeScreenshot_returns :
  returns (LocalMacOSClient.takeScreenshot host) text_and_image.
Proof.
  unfold LocalMacOSClient.takeScreenshot.
  repeat step_returns; by repeat split.
Qed.

Lemma mouseClick_returns args :
  returns (LocalMacOSClient.mouseClick host args) text_only.
Proof.
  unfold LocalMacOSClient.mouseClick.
  do 4 step_returns. case_match; [apply returns_throw|].
  apply returns_catch.
  - repeat step_returns; apply succeeded_text_only.
  - intros e. apply returns_catch.
    + repeat step_returns; apply succeeded_text_only.
    + intros e'. apply returns_throw.
Qed.

Lemma sendKeys_returns args :
  returns (LocalMacOSClient.sendKeys host args) text_only.
Proof.
  unfold LocalMacOSClient.sendKeys.
  do 3 step_returns. apply returns_rethrow.
  repeat case_match; repeat step_returns; apply succeeded_text_only.
Qed.

Lemma openApplication_returns args :
  returns (LocalMacOSClient.openApplication host args) text_only.
Proof.
  unfold LocalMacOSClient.openApplication.
  step_returns. case_match; [|apply returns_throw].
  apply returns_catch; [|intros e; apply returns_throw].
  repeat step_returns; apply succeeded_text_only.
Qed.

Lemma Local_produces_shape tool r :
  LocalMacOSClient.produces host tool r ->
  LocalMacOSClient.payload_shape tool r = true.
Proof.
  intros (connected & args & w & w' & Hr). revert w w' r Hr.
  change (returns (LocalMacOSClient.callTool host connected tool args)
            (fun r => LocalMacOSClient.payload_shape tool r = true)).
  unfold LocalMacOSClient.callTool.
  destruct (negb connected); [apply returns_throw|].
  apply returns_catch; [|intros e; by apply returns_mret].
  unfold LocalMacOSClient.payload_shape.
  case_bool_decide as Hscreen.
  { intros w w' r Hr. apply takeScreenshot_returns in Hr as (-> & -> & [? ->] & [? ->]).
    done. }
  assert (forall m, returns m text_only ->
            returns m (fun r : MCPToolResult =>
              (if success r
               then negb (populated (error r)) && populated (content r)
                    && eqb (populated (imageData r)) false
               else only_error r) = true)) as Htext.
  { intros m Hm w w' r Hr. apply Hm in Hr as (-> & -> & -> & [? ->]). done. }
  repeat case_bool_decide.
  - apply Htext, mouseClick_returns.
  - apply Htext, sendKeys_returns.
  - apply Htext, openApplication_returns.
  - apply returns_throw.
Qed.

End Local.

(** C6 (amended).  A Tool Result of the subprocess-backed client populates
    exactly one of [content], [imageData] and [error] ([content] or
    [imageData] when [success] is true, [error] when it is false), except
    when it is made from a response whose first content item is an image
    without data: then, and only then, [success] is true and none of the
    three is populated.  A Tool Result of the local client populates [error]
    alone when [success] is false; when [success] is true it populates no
    [error], always [content], and [imageData] as well exactly when the tool
    is the screenshot tool. *)
Theorem tool_result_payload `{Builtins} {W : Type}
    (host : LocalMacOSClient.Host (W := W)) (tool : jsstring) (r : MCPToolResult) :
  (MCPClient.produces r ->
   exactly_one_payload r = true \/
   exists tool' response,
     r = MCPClient.callTool_resume tool' (inr response) /\
     MCPClient.image_without_data response = true /\ no_payload r = true) /\
  (forall response,
     no_payload (MCPClient.callTool_resume tool (inr response)) =
       MCPClient.image_without_data response /\
     exactly_one_payload (MCPClient.callTool_resume tool (inr response)) =
       negb (MCPClient.image_without_data response)) /\
  (LocalMacOSClient.produces host tool r ->
   LocalMacOSClient.payload_shape tool r = true).
Proof.
  split_and!; [apply MCPClient_produces_payload| |apply Local_produces_shape].
  intros response. pose proof (callTool_resume_payload tool response) as Hp.
  destruct (MCPClient.image_without_data response).
  - split; [done|]. unfold no_payload in Hp. unfold exactly_one_payload.
    destruct (success _), (populated (error _)), (populated (content _)),
      (populated (MCP.imageData _)); done.
  - split; [|done]. by apply exactly_one_not_none.
Qed.

Import Samples.

(** The screenshot of the local client populates both [content] and
    [imageData]; the subprocess-backed client, answered with an image item
    that has no [data], populates none of the three. *)
Lemma two_payloads_or_none :
  (exists r,
     LocalMacOSClient.callTool Samples.healthy_mac true
       (lit "remote_macos_get_screen") (JObj []) () = ((), inr r) /\
     success r = true /\
     content r = Some (jstr "Screenshot taken successfully. Screen resolution: 1920x1080") /\
     MCP.imageData r = Some (jstr "iVBORw==") /\
     exactly_one_payload r = false) /\
  (exists r,
     Samples.answer_to_screenshot_call [Samples.bare_image_reply] = Some (inr r) /\
     success r = true /\ content r = None /\ MCP.imageData r = None /\ error r = None /\
     exactly_one_payload r = false).
Proof. split; eexists; split_and!; by vm_compute. Qed.

Lemma tool_result_payload_witness :
  exactly_one_payload
    (MCPClient.callTool_resume (lit "remote_macos_get_screen")
       (inr Samples.screenshot_response)) = true /\
  (forall r,
     LocalMacOSClient.callTool healthy_mac true
       (lit "remote_macos_get_screen") (JObj []) () = ((), inr r) ->
     LocalMacOSClient.payload_shape (lit "remote_macos_get_screen") r = true).
Proof.
  split.
  - destruct (tool_result_payload healthy_mac (lit "remote_macos_get_screen")
                (MCPClient.callTool_resume (lit "remote_macos_get_screen")
                   (inr Samples.screenshot_response))) as (Hmcp & _ & _).
    destruct Hmcp as [Hone|(tool' & response & _ & _ & Hnone)]; [|done|by vm_compute in Hnone].
    exists (lit "remote_macos_get_screen"), (JObj []), 1700%Z, (Q2Qc (1 # 4)), true,
      connected_client,
      (MCPClient.deliver one_waiting screenshot_response).
    by vm_compute.
  - intros r Hr.
    apply (tool_result_payload healthy_mac (lit "remote_macos_get_screen")).
    by exists true, (JObj []), (), ().
Defined.

End Payload.

(* ===================================================================== *)
(** * Part X.  Conversation history                                       *)
(* ===================================================================== *)

Module History.
Import JS LLMService.

(** The [n] last elements of [l]. *)
Definition most_recent {A} (n : nat) (l : list A) : list A := drop (length l - n) l.

Lemma most_recent_length {A} n (l : list A) : length (most_recent n l) <= n.
Proof. unfold most_recent. rewrite length_drop. lia. Qed.

Lemma most_recent_snoc {A} n (l : list A) x :
  0 < n -> most_recent n (most_recent n l ++ [x]) = most_recent n (l ++ [x]).
Proof.
  intros Hn. unfold most_recent.
  rewrite !length_app, !length_drop. simpl.
  destruct (decide (length l <= n)) as [Hle|Hgt].
  - replace (length l - n) with 0 by lia. simpl.
    by replace (length l - 0 + 1 - n) with (length l + 1 - n) by lia.
  - replace (length l - (length l - n) + 1 - n) with 1 by lia.
    replace (length l + 1 - n) with (S (length l - n)) by lia.
    rewrite drop_app_le by (rewrite length_drop; lia).
    rewrite drop_drop. rewrite drop_app_le by lia.
    by replace (length l - n + 1) with (S (length l - n)) by lia.
Qed.

Lemma addToConversationContext_lookup sessionId message conversations :
  addToConversationContext sessionId message conversations !! sessionId =
  Some (most_recent MAX_CONTEXT_MESSAGES
          (getConversationContext sessionId conversations ++ [message])).
Proof.
  unfold addToConversationContext, getConversationContext, most_recent.
  rewrite lookup_insert_eq. f_equal.
  destruct (MAX_CONTEXT_MESSAGES <? _) eqn:Hlt; [done|].
  apply Nat.ltb_ge in Hlt.
  by replace (_ - MAX_CONTEXT_MESSAGES) with 0 by lia.
Qed.

(** Appends to the histories of any sessions, in the order they are made. *)
Definition appendAll (appends : list (jsstring * ConversationMessage))
    (conversations : Conversations) : Conversations :=
  foldl (fun c a => addToConversationContext a.1 a.2 c) conversations appends.

(** The messages appended to [sessionId], in the order they were appended. *)
Definition appended_to (sessionId : jsstring)
    (appends : list (jsstring * ConversationMessage)) : list ConversationMessage :=
  (filter (fun a => a.1 = sessionId) appends).*2.

(** C9.  Whatever is appended, to whichever sessions, starting from the
    empty history of a new service: the history kept for a session holds at
    most [MAX_CONTEXT_MESSAGES] = 20 messages, and they are the most recent
    of the messages appended to that session, in the order they were
    appended. *)
Theorem history_keeps_the_most_recent
    (appends : list (jsstring * ConversationMessage)) (sessionId : jsstring) :
  let kept := getConversationContext sessionId (appendAll appends ∅) in
  length kept <= 20 /\
  kept = most_recent 20 (appended_to sessionId appends).
Proof.
  cbv zeta.
  assert (getConversationContext sessionId (appendAll appends ∅) =
          most_recent 20 (appended_to sessionId appends)) as Hkept.
  { induction appends as [|[s m] appends IH] using rev_ind.
    { done. }
    unfold appendAll, appended_to in *. rewrite foldl_app, filter_app, fmap_app.
    simpl. destruct (decide (s = sessionId)) as [->|Hne].
    - rewrite filter_cons_True by done. simpl.
      unfold getConversationContext at 1.
      rewrite addToConversationContext_lookup. simpl. rewrite IH.
      unfold MAX_CONTEXT_MESSAGES. apply most_recent_snoc. lia.
    - rewrite filter_cons_False by done. simpl. rewrite app_nil_r.
      rewrite <- IH. unfold getConversationContext, addToConversationContext.
      by rewrite lookup_insert_ne. }
  rewrite Hkept. split; [apply most_recent_length|done].
Qed.

End History.

(* ===================================================================== *)
(** * Part XI.  The orchestrator                                          *)
(* ===================================================================== *)

Module Orchestrator.
Import JS ChatService.
Import LLMService (LLMResponse, response_content, toolCalls, requiresTools).
Import MCP (MCPTool, MCPToolCall, MCPToolResult, call_name, call_arguments).

Section Facts.
Context `{Builtins} {W : Type} (env : Collaborators (W := W)).

Local Abbreviation St := (State (W := W)).

Ltac unfold_eff :=
  unfold log, record, listTools, callTool, llmProcessMessage,
    generateFollowUpResponse, call, now, catch, throw, mbind, Eff_bind, mret,
    Eff_ret in *.

(** ** One turn of the loop of [executeTools] *)

(** The Tool Result kept for a call: what [callTool] returned, or the
    failure made from what it threw. *)
Definition result_of (tool : jsstring) (outcome : res MCPToolResult) : MCPToolResult :=
  match outcome with
  | inr r => r
  | inl e => failed tool e
  end.

Definition logged_outcome (tool : jsstring) (outcome : res MCPToolResult) : LogEntry :=
  match outcome with
  | inr r => if MCP.success r then ToolSucceeded tool else ToolFailed tool (MCP.error r)
  | inl e => ToolError tool e
  end.

Definition record_result (b : Batch) (cr : MCPToolCall * MCPToolResult) : Batch :=
  {| toolResults := toolResults b ++ [cr.2];
     hasScreenshot := if captured cr.1 cr.2 then true else hasScreenshot b;
     screenshotData := if captured cr.1 cr.2 then MCP.imageData cr.2
                       else screenshotData b |}.

Lemma captured_failed toolCall tool e : captured toolCall (failed tool e) = false.
Proof. unfold captured. simpl. by rewrite andb_false_r. Qed.

Lemma executeTool_run b toolCall st :
  executeTool env b toolCall st =
  let outcome := mcp_callTool env (call_name toolCall) (call_arguments toolCall) (world st) in
  ({| world := outcome.1; sessions := sessions st;
      trace := trace st ++ [Logged (ExecutingTool toolCall);
                            Called (CallTool (call_name toolCall) (call_arguments toolCall));
                            Logged (logged_outcome (call_name toolCall) outcome.2)] |},
   inr (record_result b (toolCall, result_of (call_name toolCall) outcome.2))).
Proof.
  unfold executeTool. unfold_eff. simpl.
  destruct (mcp_callTool env _ _ (world st)) as [w' [e|r]]; simpl.
  - rewrite <- !app_assoc. simpl. unfold record_result. simpl.
    by rewrite captured_failed.
  - rewrite <- !app_assoc. simpl. done.
Qed.

(** The Tool Results that the loop of [executeTools] keeps for [calls] when
    it starts in world [w]: for each call in turn, what [callTool] returned,
    or the failure made from what it threw. *)
Fixpoint kept (calls : list MCPToolCall) (w : W) : list MCPToolResult :=
  match calls with
  | [] => []
  | toolCall :: rest =>
    let outcome := mcp_callTool env (call_name toolCall) (call_arguments toolCall) w in
    result_of (call_name toolCall) outcome.2 :: kept rest outcome.1
  end.

Lemma kept_length calls w : length (kept calls w) = length calls.
Proof.
  revert w. induction calls as [|c calls IH]; intros w; simpl; [done|]. by rewrite IH.
Qed.


(** ** What a piece of the service adds to the record *)

(** At most [c] entries into the continuation branch, [d] requests for a
    decision and [f] requests for a follow-up. *)
Definition within (c d f : nat) (tr : list Entry) : Prop :=
  continuations tr <= c /\ decisions tr <= d /\ follow_ups tr <= f.

(** Running [m] appends to the record entries that satisfy [P]. *)
Definition emits (P : list Entry -> Prop) {A} (m : Eff St A) : Prop :=
  forall st, exists tr, trace (m st).1 = trace st ++ tr /\ P tr.

Lemma within_nil : within 0 0 0 [].
Proof. by repeat split. Qed.

Lemma within_app c1 d1 f1 c2 d2 f2 t1 t2 :
  within c1 d1 f1 t1 -> within c2 d2 f2 t2 ->
  within (c1 + c2) (d1 + d2) (f1 + f2) (t1 ++ t2).
Proof.
  unfold within, continuations, decisions, follow_ups.
  rewrite !filter_app, !length_app. lia.
Qed.

Lemma emits_weaken {A} (m : Eff St A) c d f c' d' f' :
  emits (within c d f) m -> c <= c' -> d <= d' -> f <= f' ->
  emits (within c' d' f') m.
Proof.
  intros Hm ??? st. destruct (Hm st) as (tr & Htr & ? & ? & ?).
  exists tr. unfold within. split; [done|]. lia.
Qed.

Lemma emits_mret {A} (a : A) : emits (within 0 0 0) (mret a : Eff St A).
Proof. intros st. exists []. simpl. by rewrite app_nil_r. Qed.

Lemma emits_throw {A} e : emits (within 0 0 0) (throw e : Eff St A).
Proof. intros st. exists []. simpl. by rewrite app_nil_r. Qed.

Lemma emits_now : emits (within 0 0 0) (now env).
Proof.
  intros st. exists []. unfold now. destruct (Date_now env (world st)).
  simpl. by rewrite app_nil_r.
Qed.

Lemma emits_updateSessionActivity session :
  emits (within 0 0 0) (updateSessionActivity env session).
Proof.
  intros st. exists []. unfold updateSessionActivity.
  destruct (Date_now env (world st)). simpl. by rewrite app_nil_r.
Qed.

Lemma emits_log e :
  emits (within (if is_continuation (Logged e) then 1 else 0) 0 0) (log e).
Proof.
  intros st. exists [Logged e]. split; [done|].
  unfold within, continuations, decisions, follow_ups. simpl.
  destruct e; simpl; lia.
Qed.

Lemma emits_call {A} c (op : Eff W A) :
  emits (within 0 (if is_decision (Called c) then 1 else 0)
                  (if is_follow_up (Called c) then 1 else 0)) (call c op).
Proof.
  intros st. exists [Called c]. unfold call. destruct (op (world st)).
  split; [done|].
  unfold within, continuations, decisions, follow_ups. simpl.
  destruct c; simpl; lia.
Qed.

Lemma emits_bind {A B} (m : Eff St A) (g : A -> Eff St B) c1 d1 f1 c2 d2 f2 :
  emits (within c1 d1 f1) m -> (forall a, emits (within c2 d2 f2) (g a)) ->
  emits (within (c1 + c2) (d1 + d2) (f1 + f2)) (m ≫= g).
Proof.
  intros Hm Hg st. destruct (Hm st) as (t1 & Ht1 & Hw1).
  unfold mbind, Eff_bind. destruct (m st) as [s1 [e|a]]; simpl in *.
  - exists t1. split; [done|].
    replace t1 with (t1 ++ []) by apply app_nil_r.
    apply within_app; [done|]. unfold within, continuations, decisions, follow_ups.
    simpl. lia.
  - destruct (Hg a s1) as (t2 & Ht2 & Hw2). exists (t1 ++ t2).
    split; [by rewrite Ht2, Ht1, app_assoc|by apply within_app].
Qed.

Lemma emits_catch {A} (m : Eff St A) h c1 d1 f1 c2 d2 f2 :
  emits (within c1 d1 f1) m -> (forall e, emits (within c2 d2 f2) (h e)) ->
  emits (within (c1 + c2) (d1 + d2) (f1 + f2)) (catch m h).
Proof.
  intros Hm Hh st. destruct (Hm st) as (t1 & Ht1 & Hw1).
  unfold catch. destruct (m st) as [s1 [e|a]]; simpl in *.
  - destruct (Hh e s1) as (t2 & Ht2 & Hw2). exists (t1 ++ t2).
    split; [by rewrite Ht2, Ht1, app_assoc|by apply within_app].
  - exists t1. split; [done|].
    replace t1 with (t1 ++ []) by apply app_nil_r.
    apply within_app; [done|]. unfold within, continuations, decisions, follow_ups.
    simpl. lia.
Qed.

Lemma emits_for_each {A B} (body : B -> A -> Eff St B) l b :
  (forall b x, emits (within 0 0 0) (body b x)) ->
  emits (within 0 0 0) (for_each body l b).
Proof.
  intros Hbody. revert b. induction l as [|x l IH]; intros b; simpl.
  - apply emits_mret.
  - apply (emits_bind _ _ 0 0 0 0 0 0); [apply Hbody|apply IH].
Qed.

Lemma emits_log_quiet e :
  is_continuation (Logged e) = false -> emits (within 0 0 0) (log e).
Proof. intros He. pose proof (emits_log e) as Hl. by rewrite He in Hl. Qed.

Lemma emits_listTools : emits (within 0 0 0) (listTools env).
Proof. apply (emits_call ListTools). Qed.

Lemma emits_callTool tool args : emits (within 0 0 0) (callTool env tool args).
Proof. apply (emits_call (CallTool tool args)). Qed.

Lemma emits_llmProcessMessage message tools session :
  emits (within 0 1 0) (llmProcessMessage env message tools session).
Proof. apply (emits_call (LLMProcessMessage message tools session)). Qed.

Lemma emits_generateFollowUpResponse message results tools session :
  emits (within 0 0 1) (generateFollowUpResponse env message results tools session).
Proof. apply (emits_call (GenerateFollowUp message results tools session)). Qed.

(** Composing bounds; the sums are settled at the end. *)
Ltac emits_step :=
  first [ apply emits_mret | apply emits_throw | apply emits_now
        | apply emits_log_quiet; by repeat case_match
        | apply emits_listTools | apply emits_callTool
        | apply emits_llmProcessMessage | apply emits_generateFollowUpResponse
        | apply emits_updateSessionActivity
        | eapply emits_bind; [|intros ?]
        | eapply emits_catch; [|intros ?] ].

Ltac emits_sum :=
  eapply emits_weaken; [repeat emits_step| | |]; simpl; try lia.

Lemma emits_executeTool b toolCall :
  emits (within 0 0 0) (executeTool env b toolCall).
Proof. unfold executeTool. emits_sum. Qed.

Lemma emits_executeContinuationTool results toolCall :
  emits (within 0 0 0) (executeContinuationTool env results toolCall).
Proof. unfold executeContinuationTool. emits_sum. Qed.

Lemma emits_quiet {A} (m : Eff St A) :
  emits (within 0 0 0) m -> emits (within 0 0 0) m.
Proof. done. Qed.

Ltac emits_loop :=
  first [ apply emits_for_each; intros ? ?;
          first [apply emits_executeTool|apply emits_executeContinuationTool]
        | emits_step ].

Ltac emits_all :=
  eapply emits_weaken; [repeat emits_loop| | |]; simpl; try lia.

Lemma emits_continueMultiStepWorkflow message results data session :
  emits (within 0 1 0) (continueMultiStepWorkflow env message results data session).
Proof.
  unfold continueMultiStepWorkflow.
  eapply emits_weaken.
  - repeat emits_loop. apply emits_quiet.
    match goal with |- context [requiresTools ?r] =>
      destruct (requiresTools r), (toolCalls r) end; emits_all.
  - simpl. lia.
  - simpl. lia.
  - simpl. lia.
Qed.

(** The part of [executeTools] that follows the loop. *)
Definition conclude (originalMessage session : jsstring) (b : Batch)
  : Eff St ChatResponse :=
  let wasMultiStepRequest := isMultiStepRequest originalMessage in
  let onlyScreenshotExecuted := (length (toolResults b) =? 1) && hasScreenshot b in
  if wasMultiStepRequest && onlyScreenshotExecuted then
    _ ← log MultiStepDetected;
    continueMultiStepWorkflow env originalMessage (toolResults b) (screenshotData b) session
  else if hasScreenshot b && truthy (screenshotData b) && negb wasMultiStepRequest then
    t ← now env;
    mret {| content := generateScreenshotMessage (toolResults b);
            type := type_image; imageData := screenshotData b;
            toolName := Some SCREENSHOT;
            sessionId := Some session; timestamp := Some t |}
  else
    availableTools ← listTools env;
    followUpResponse ←
      generateFollowUpResponse env originalMessage (toolResults b) availableTools session;
    t ← now env;
    mret {| content := response_content followUpResponse; type := type_text;
            imageData := None; toolName := None;
            sessionId := Some session; timestamp := Some t |}.

Lemma executeTools_conclude llmResponse calls message session :
  toolCalls llmResponse = Some calls ->
  executeTools env llmResponse message session =
  for_each (executeTool env) calls no_results ≫= conclude message session.
Proof. intros Hcalls. unfold executeTools. by rewrite Hcalls. Qed.

Lemma emits_conclude message session b :
  emits (within 1 1 1) (conclude message session b).
Proof.
  unfold conclude. cbv zeta.
  destruct (_ && _).
  - eapply emits_weaken.
    + eapply emits_bind; [apply emits_log|intros _].
      apply emits_continueMultiStepWorkflow.
    + simpl. lia.
    + simpl. lia.
    + simpl. lia.
  - destruct (_ && _); emits_all.
Qed.

Lemma emits_executeTools llmResponse message session :
  emits (within 1 1 1) (executeTools env llmResponse message session).
Proof.
  unfold executeTools. destruct (toolCalls llmResponse) as [calls|].
  - eapply emits_weaken.
    + eapply emits_bind; [|intros b; apply emits_conclude].
      apply emits_for_each. intros ? ?. apply emits_executeTool.
    + simpl. lia.
    + simpl. lia.
    + simpl. lia.
  - emits_all.
Qed.

Lemma emits_processMessage message session :
  emits (within 1 2 1) (processMessage env message session).
Proof.
  unfold processMessage, processMessage_try.
  eapply emits_weaken.
  - repeat emits_loop.
    apply (emits_weaken _ 1 1 1 1 1 1); [|lia..].
    destruct (_ && _); [apply emits_executeTools|emits_all].
  - simpl. lia.
  - simpl. lia.
  - simpl. lia.
Qed.


(** ** The loop of [executeTools] *)

Lemma batch_kept calls b st :
  exists st1,
    for_each (executeTool env) calls b st =
      (st1, inr (foldl record_result b (zip calls (kept calls (world st))))).
Proof.
  revert b st. induction calls as [|c calls IH]; intros b st.
  { by exists st. }
  cbn [for_each]. unfold mbind at 1, Eff_bind at 1. rewrite executeTool_run.
  cbv zeta. cbn [fst snd].
  match goal with |- context [for_each _ calls ?b' ?st'] =>
    destruct (IH b' st') as (st1 & ->) end.
  by exists st1.
Qed.

Lemma batch_run calls b st :
  exists st1 rs,
    for_each (executeTool env) calls b st =
      (st1, inr (foldl record_result b (zip calls rs))) /\
    length rs = length calls.
Proof.
  destruct (batch_kept calls b st) as (st1 & Hrun).
  exists st1, (kept calls (world st)). split; [done|apply kept_length].
Qed.

Lemma batch_single toolCall b st :
  (for_each (executeTool env) [toolCall] b st).2 =
  inr (record_result b
         (toolCall,
          result_of (call_name toolCall)
            (mcp_callTool env (call_name toolCall) (call_arguments toolCall)
               (world st)).2)).
Proof.
  cbn [for_each]. unfold mbind at 1, Eff_bind at 1. by rewrite executeTool_run.
Qed.

Lemma batch_toolResults crs b :
  toolResults (foldl record_result b crs) = toolResults b ++ crs.*2.
Proof.
  revert b. induction crs as [|cr crs IH]; intros b; simpl.
  - by rewrite app_nil_r.
  - rewrite IH. simpl. by rewrite <- app_assoc.
Qed.

Lemma batch_no_screenshot crs b :
  Forall (fun cr => captured cr.1 cr.2 = false) crs ->
  hasScreenshot (foldl record_result b crs) = hasScreenshot b /\
  screenshotData (foldl record_result b crs) = screenshotData b.
Proof.
  revert b. induction crs as [|cr crs IH]; intros b Hall; simpl; [done|].
  apply Forall_cons in Hall as [Hcr Hall].
  destruct (IH (record_result b cr) Hall) as [-> ->].
  unfold record_result. simpl. by rewrite Hcr.
Qed.

(** Once a call has been taken for a screenshot, the loop ends with
    [hasScreenshot] set and [screenshotData] holding the image of such a
    call. *)
Lemma batch_screenshot crs b :
  Exists (fun cr => captured cr.1 cr.2 = true) crs ->
  hasScreenshot (foldl record_result b crs) = true /\
  exists cr, cr ∈ crs /\ captured cr.1 cr.2 = true /\
             screenshotData (foldl record_result b crs) = MCP.imageData cr.2.
Proof.
  revert b. induction crs as [|cr crs IH]; intros b Hex.
  { by apply Exists_nil in Hex. }
  simpl. destruct (decide (Exists (fun cr => captured cr.1 cr.2 = true) crs)) as [Hlater|Hnone].
  - destruct (IH (record_result b cr) Hlater) as (Hhas & cr' & Hin & Hcap & Hdata).
    split; [done|]. exists cr'. split_and!; try done. apply elem_of_cons. by right.
  - apply Exists_cons in Hex as [Hcr|?]; [|done].
    apply not_Exists_Forall in Hnone; [|intros ?; apply _].
    assert (Forall (fun cr => captured cr.1 cr.2 = false) crs) as Hall.
    { eapply Forall_impl; [exact Hnone|]. simpl. intros cr' Hn.
      by destruct (captured cr'.1 cr'.2). }
    destruct (batch_no_screenshot crs (record_result b cr) Hall) as [-> ->].
    unfold record_result. simpl. rewrite Hcr. split; [done|].
    exists cr. split_and!; try done. apply elem_of_cons. by left.
Qed.

(** [screenshotData] holds the image of the last call that was taken for a
    screenshot. *)
Lemma batch_screenshot_last crs b :
  Exists (fun cr => captured cr.1 cr.2 = true) crs ->
  hasScreenshot (foldl record_result b crs) = true /\
  exists i cr,
    crs !! i = Some cr /\ captured cr.1 cr.2 = true /\
    (forall j cr', i < j -> crs !! j = Some cr' -> captured cr'.1 cr'.2 = false) /\
    screenshotData (foldl record_result b crs) = MCP.imageData cr.2.
Proof.
  revert b. induction crs as [|cr crs IH]; intros b Hex.
  { by apply Exists_nil in Hex. }
  simpl. destruct (decide (Exists (fun cr => captured cr.1 cr.2 = true) crs)) as [Hlater|Hnone].
  - destruct (IH (record_result b cr) Hlater) as (Hhas & i & cr' & Hi & Hcap & Hlast & Hdata).
    split; [done|]. exists (S i), cr'. split_and!; try done.
    intros [|j] cr'' Hlt Hj; [lia|]. apply (Hlast j); [lia|done].
  - apply Exists_cons in Hex as [Hcr|?]; [|done].
    apply not_Exists_Forall in Hnone; [|intros ?; apply _].
    assert (Forall (fun cr => captured cr.1 cr.2 = false) crs) as Hall.
    { eapply Forall_impl; [exact Hnone|]. simpl. intros cr' Hn.
      by destruct (captured cr'.1 cr'.2). }
    destruct (batch_no_screenshot crs (record_result b cr) Hall) as [-> ->].
    unfold record_result. simpl. rewrite Hcr. split; [done|].
    exists 0, cr. split_and!; try done.
    intros [|j] cr' Hlt Hj; [lia|]. simpl in Hj.
    rewrite Forall_forall in Hall. apply Hall. by eapply list_elem_of_lookup_2.
Qed.

(** Without such a call, the loop leaves [hasScreenshot] as it was. *)
Lemma batch_has_screenshot crs :
  hasScreenshot (foldl record_result no_results crs) = true ->
  Exists (fun cr => captured cr.1 cr.2 = true) crs.
Proof.
  intros Hhas.
  destruct (decide (Exists (fun cr => captured cr.1 cr.2 = true) crs)) as [|Hnone]; [done|].
  apply not_Exists_Forall in Hnone; [|intros ?; apply _].
  assert (Forall (fun cr => captured cr.1 cr.2 = false) crs) as Hall.
  { eapply Forall_impl; [exact Hnone|]. simpl. intros cr' Hn.
    by destruct (captured cr'.1 cr'.2). }
  destruct (batch_no_screenshot crs no_results Hall) as [Hno _].
  rewrite Hno in Hhas. done.
Qed.

Lemma captured_truthy toolCall r :
  captured toolCall r = true ->
  call_name toolCall = SCREENSHOT /\ MCP.success r = true /\
  truthy (MCP.imageData r) = true.
Proof.
  unfold captured. intros Hc.
  apply andb_prop in Hc as [Hc Ht]. apply andb_prop in Hc as [Hn Hs].
  apply bool_decide_eq_true in Hn. done.
Qed.

Lemma since_app (st st' : St) tr : trace st' = trace st ++ tr -> since st st' = tr.
Proof. intros Heq. unfold since. rewrite Heq. apply drop_app_length. Qed.


Lemma since_refl (st st' : St) : trace st' = trace st -> since st st' = [].
Proof. intros Heq. apply since_app. by rewrite app_nil_r. Qed.

Lemma emits_since {A} (m : Eff St A) P st : emits P m -> P (since st (m st).1).
Proof.
  intros Hm. destruct (Hm st) as (tr & Htr & HP). by rewrite (since_app _ _ _ Htr).
Qed.

Lemma continuations_app t1 t2 :
  continuations (t1 ++ t2) = continuations t1 + continuations t2.
Proof. unfold continuations. by rewrite filter_app, length_app. Qed.

Lemma decisions_app t1 t2 : decisions (t1 ++ t2) = decisions t1 + decisions t2.
Proof. unfold decisions. by rewrite filter_app, length_app. Qed.

Lemma follow_ups_app t1 t2 : follow_ups (t1 ++ t2) = follow_ups t1 + follow_ups t2.
Proof. unfold follow_ups. by rewrite filter_app, length_app. Qed.

(** The record only grows: what [m] adds after [st1] comes after what was
    added between [st] and [st1]. *)
Lemma since_then {A} (m : Eff St A) P (st st1 : St) t1 :
  trace st1 = trace st ++ t1 -> emits P m ->
  since st (m st1).1 = t1 ++ since st1 (m st1).1.
Proof.
  intros H1 Hm. destruct (Hm st1) as (t2 & H2 & _).
  rewrite (since_app _ _ _ H2). apply since_app. by rewrite H2, H1, app_assoc.
Qed.

Lemma emits_batch calls b : emits (within 0 0 0) (for_each (executeTool env) calls b).
Proof. apply emits_for_each. intros ? ?. apply emits_executeTool. Qed.

(** The loop of [executeTools] never throws, and keeps one Tool Result for
    each call. *)
Lemma batch_returns calls st :
  exists st1 b,
    for_each (executeTool env) calls no_results st = (st1, inr b) /\
    length (toolResults b) = length calls /\
    exists t1, trace st1 = trace st ++ t1 /\ within 0 0 0 t1.
Proof.
  destruct (batch_run calls no_results st) as (st1 & rs & Hrun & Hlen).
  eexists st1, _. split; [exact Hrun|]. split.
  - rewrite batch_toolResults. simpl. rewrite snd_zip by lia. done.
  - destruct (emits_batch calls no_results st) as (t1 & Ht1 & Hw).
    rewrite Hrun in Ht1. by exists t1.
Qed.

(** ** When the continuation branch is entered *)

Lemma conclude_continuations message session b st :
  0 < continuations (since st (conclude message session b st).1) <->
  isMultiStepRequest message = true /\ length (toolResults b) = 1 /\
  hasScreenshot b = true.
Proof.
  unfold conclude. cbv zeta.
  destruct (isMultiStepRequest message && _) eqn:Hcond.
  - apply andb_prop in Hcond as [Hm Hcond]. apply andb_prop in Hcond as [Hl Hs].
    apply Nat.eqb_eq in Hl. split; [done|intros _].
    unfold mbind at 1, Eff_bind at 1. unfold log, record. cbn [fst snd].
    match goal with |- context [continueMultiStepWorkflow env ?a ?r ?c ?s ?st'] =>
      destruct (emits_continueMultiStepWorkflow a r c s st') as (tr & Htr & _) end.
    cbn [trace] in Htr. rewrite <- app_assoc in Htr.
    rewrite (since_app _ _ _ Htr). rewrite continuations_app.
    unfold continuations at 1. simpl. lia.
  - split.
    + intros Hpos. exfalso.
      match type of Hpos with context [since st (?m st).1] =>
        assert (emits (within 0 1 1) m) as Hm end.
      { clear Hcond Hpos. destruct (_ && _); emits_all. }
      apply (emits_since _ _ st) in Hm as (? & _). lia.
    + intros (Hm & Hl & Hs). rewrite Hm, Hl, Hs in Hcond. done.
Qed.

Lemma captured_result_of toolCall outcome :
  captured toolCall (result_of (call_name toolCall) outcome) = true <->
  exists r, outcome = inr r /\ call_name toolCall = SCREENSHOT /\
            MCP.success r = true /\ truthy (MCP.imageData r) = true.
Proof.
  split.
  - destruct outcome as [e|r]; simpl.
    + by rewrite captured_failed.
    + intros Hc. apply captured_truthy in Hc. by exists r.
  - intros (r & -> & Hn & Hs & Hi). simpl. unfold captured.
    rewrite Hs, Hi. by rewrite bool_decide_eq_true_2.
Qed.

Lemma executeTools_continuations llmResponse calls message session st :
  toolCalls llmResponse = Some calls ->
  0 < continuations (since st (executeTools env llmResponse message session st).1) <->
  isMultiStepRequest message = true /\
  exists toolCall r,
    calls = [toolCall] /\
    (mcp_callTool env (call_name toolCall) (call_arguments toolCall) (world st)).2 = inr r /\
    call_name toolCall = SCREENSHOT /\ MCP.success r = true /\
    truthy (MCP.imageData r) = true.
Proof.
  intros Hcalls. rewrite (executeTools_conclude _ _ _ _ Hcalls).
  unfold mbind, Eff_bind.
  destruct (batch_returns calls st) as (st1 & b & Hrun & Hlen & t1 & Ht1 & Hq & _).
  rewrite Hrun.
  rewrite (since_then (conclude message session b) _ st st1 t1 Ht1
             (emits_conclude message session b)).
  rewrite continuations_app. replace (continuations t1) with 0 by lia.
  rewrite Nat.add_0_l, conclude_continuations, Hlen.
  split.
  - intros (Hm & Hone & Hs). split; [done|].
    destruct calls as [|toolCall [|]]; simpl in Hone; try lia.
    pose proof (batch_single toolCall no_results st) as Hb.
    rewrite Hrun in Hb. simpl in Hb. injection Hb as ->.
    unfold record_result in Hs. simpl in Hs.
    destruct (captured _ _) eqn:Hc; [|done].
    apply captured_result_of in Hc as (r & ? & ? & ? & ?). by exists toolCall, r.
  - intros (Hm & toolCall & r & -> & Hout & Hn & Hs & Hi). split_and!; try done.
    pose proof (batch_single toolCall no_results st) as Hb.
    rewrite Hrun in Hb. simpl in Hb. injection Hb as ->.
    unfold record_result. simpl.
    rewrite (proj2 (captured_result_of toolCall _)); [done|]. by exists r.
Qed.

(** ** The first decision, and what is made of it *)

Definition decide_first (message session : jsstring) : Eff St LLMResponse :=
  _ ← updateSessionActivity env session;
  availableTools ← listTools env;
  _ ← log (AvailableTools availableTools);
  llmProcessMessage env message availableTools session.

Definition respond (message session : jsstring) (llmResponse : LLMResponse)
  : Eff St ChatResponse :=
  if requiresTools llmResponse && bool_decide (is_Some (toolCalls llmResponse)) then
    executeTools env llmResponse message session
  else
    t ← now env;
    mret {| content := response_content llmResponse; type := type_text;
            imageData := None; toolName := None;
            sessionId := Some session; timestamp := Some t |}.

(** The [catch] block of [processMessage]. *)
Definition apologise (session : jsstring) (e : Error) : Eff St ChatResponse :=
  _ ← log (ProcessingError e);
  t ← now env;
  mret {| content := APOLOGY; type := type_error; imageData := None;
          toolName := None; sessionId := Some session; timestamp := Some t |}.

Lemma processMessage_try_decide message session st :
  processMessage_try env message session st =
  (decide_first message session ≫= respond message session) st.
Proof.
  unfold processMessage_try, decide_first, respond, mbind, Eff_bind.
  destruct (updateSessionActivity env session st) as [s1 [e|[]]]; [done|].
  destruct (listTools env s1) as [s2 [e|tools]]; [done|].
  destruct (log (AvailableTools tools) s2) as [s3 [e|[]]]; [done|].
  by destruct (llmProcessMessage env message tools session s3) as [s4 [e|r]].
Qed.

Lemma processMessage_catch message session :
  processMessage env message session =
  catch (processMessage_try env message session) (apologise session).
Proof. done. Qed.

Lemma emits_decide_first message session :
  emits (within 0 1 0) (decide_first message session).
Proof. unfold decide_first. emits_all. Qed.

Lemma emits_respond message session llmResponse :
  emits (within 1 1 1) (respond message session llmResponse).
Proof.
  unfold respond. destruct (_ && _); [apply emits_executeTools|emits_all].
Qed.

Lemma emits_apologise session e : emits (within 0 0 0) (apologise session e).
Proof. unfold apologise. emits_all. Qed.

Lemma emits_processMessage_try message session :
  emits (within 1 2 1) (processMessage_try env message session).
Proof.
  intros st. rewrite processMessage_try_decide. revert st.
  apply (emits_bind _ _ 0 1 0 1 1 1);
    [apply emits_decide_first|intros ?; apply emits_respond].
Qed.


(** ** Pieces that never throw *)

Definition safe {A} (m : Eff St A) : Prop :=
  forall st, exists st' a, m st = (st', inr a).

(** A collaborator's operation that never throws. *)
Definition total {A} (op : Eff W A) : Prop :=
  forall w, exists a, (op w).2 = inr a.

Lemma safe_mret {A} (a : A) : safe (mret a : Eff St A).
Proof. intros st. by eexists _, _. Qed.

Lemma safe_log e : safe (log e).
Proof. intros st. by eexists _, _. Qed.

Lemma safe_now : safe (now env).
Proof. intros st. unfold now. destruct (Date_now env (world st)). by eexists _, _. Qed.

Lemma safe_updateSessionActivity session : safe (updateSessionActivity env session).
Proof.
  intros st. unfold updateSessionActivity.
  destruct (Date_now env (world st)). by eexists _, _.
Qed.

Lemma safe_call {A} c (op : Eff W A) : total op -> safe (call c op).
Proof.
  intros Hop st. unfold call. destruct (Hop (world st)) as [a Ha].
  destruct (op (world st)) as [w r]. simpl in Ha. subst r. by eexists _, _.
Qed.

Lemma safe_bind {A B} (m : Eff St A) (g : A -> Eff St B) :
  safe m -> (forall a, safe (g a)) -> safe (m ≫= g).
Proof.
  intros Hm Hg st. unfold mbind, Eff_bind.
  destruct (Hm st) as (s1 & a & ->). apply Hg.
Qed.

Lemma safe_catch {A} (m : Eff St A) h : (forall e, safe (h e)) -> safe (catch m h).
Proof.
  intros Hh st. unfold catch. destruct (m st) as [s1 [e|a]]; [apply Hh|].
  by eexists _, _.
Qed.

Lemma safe_for_each {A B} (body : B -> A -> Eff St B) l b :
  (forall b x, safe (body b x)) -> safe (for_each body l b).
Proof.
  intros Hbody. revert b. induction l as [|x l IH]; intros b; simpl.
  - apply safe_mret.
  - apply safe_bind; [apply Hbody|apply IH].
Qed.

Ltac safe_step :=
  first [ apply safe_mret | apply safe_log | apply safe_now
        | apply safe_updateSessionActivity
        | apply safe_catch; intros ?
        | apply safe_bind; [|intros ?] ].

Lemma safe_executeTool b toolCall : safe (executeTool env b toolCall).
Proof. unfold executeTool. repeat safe_step. Qed.

Lemma safe_continueMultiStepWorkflow message results data session :
  safe (continueMultiStepWorkflow env message results data session).
Proof. unfold continueMultiStepWorkflow. repeat safe_step. Qed.

Lemma safe_conclude message session b :
  total (mcp_listTools env) ->
  (forall m rs ts s, total (llm_generateFollowUpResponse env m rs ts s)) ->
  safe (conclude message session b).
Proof.
  intros Hlist Hfollow. unfold conclude. cbv zeta.
  destruct (_ && _).
  { apply safe_bind; [apply safe_log|intros _]. apply safe_continueMultiStepWorkflow. }
  destruct (_ && _); [by repeat safe_step|].
  apply safe_bind; [by apply safe_call|intros tools].
  apply safe_bind; [apply safe_call, Hfollow|intros ?]. by repeat safe_step.
Qed.

Lemma safe_respond message session llmResponse :
  total (mcp_listTools env) ->
  (forall m rs ts s, total (llm_generateFollowUpResponse env m rs ts s)) ->
  safe (respond message session llmResponse).
Proof.
  intros Hlist Hfollow. unfold respond.
  destruct (requiresTools llmResponse); simpl; [|by repeat safe_step].
  destruct (toolCalls llmResponse) as [calls|] eqn:Hcalls; simpl;
    [|by repeat safe_step].
  intros st. rewrite (executeTools_conclude _ _ _ _ Hcalls). revert st.
  apply safe_bind; [|intros b; by apply safe_conclude].
  apply safe_for_each. intros ? ?. apply safe_executeTool.
Qed.

(** ** What is returned *)

Definition yields {A} (P : A -> Prop) (m : Eff St A) : Prop :=
  forall st st' a, m st = (st', inr a) -> P a.

Lemma yields_mret {A} (P : A -> Prop) a : P a -> yields P (mret a : Eff St A).
Proof. intros HP st st' a' [= _ <-]. done. Qed.

Lemma yields_throw {A} (P : A -> Prop) e : yields P (throw e : Eff St A).
Proof. intros st st' a' [=]. Qed.

Lemma yields_bind {A B} (P : B -> Prop) (m : Eff St A) (g : A -> Eff St B) :
  (forall a, yields P (g a)) -> yields P (m ≫= g).
Proof.
  intros Hg st st' b. unfold mbind, Eff_bind.
  destruct (m st) as [s1 [e|a]]; [intros [=]|apply Hg].
Qed.

Lemma yields_catch {A} (P : A -> Prop) (m : Eff St A) h :
  yields P m -> (forall e, yields P (h e)) -> yields P (catch m h).
Proof.
  intros Hm Hh st st' a. unfold catch.
  destruct (m st) as [s1 [e|a']] eqn:Hrun; [apply Hh|].
  intros [= <- <-]. by eapply Hm.
Qed.

(** A response for [session] that is not the apology's. *)
Definition answers (session : jsstring) (out : ChatResponse) : Prop :=
  sessionId out = Some session /\ type out <> type_error.

Ltac yields_step :=
  first [ apply yields_mret; by split
        | apply yields_bind; intros ?
        | apply yields_catch; [|intros ?]
        | apply yields_throw ].

Lemma yields_continueMultiStepWorkflow message results data session :
  yields (answers session)
    (continueMultiStepWorkflow env message results data session).
Proof.
  unfold continueMultiStepWorkflow.
  apply yields_catch; [|intros ?; by repeat yields_step].
  do 4 yields_step.
  match goal with |- context [requiresTools ?r] =>
    destruct (requiresTools r), (toolCalls r) end; by repeat yields_step.
Qed.

Lemma yields_executeTools llmResponse message session :
  yields (answers session) (executeTools env llmResponse message session).
Proof.
  unfold executeTools. destruct (toolCalls llmResponse); [|apply yields_throw].
  apply yields_bind; intros b. cbv zeta.
  destruct (_ && _).
  { apply yields_bind; intros _. apply yields_continueMultiStepWorkflow. }
  destruct (_ && _); by repeat yields_step.
Qed.

Lemma yields_processMessage_try message session :
  yields (answers session) (processMessage_try env message session).
Proof.
  unfold processMessage_try. do 4 yields_step.
  destruct (_ && _); [apply yields_executeTools|by repeat yields_step].
Qed.

(** [processMessage] returns what its [try] block returns, and the apology
    when that throws. *)
Lemma processMessage_run message session st :
  exists st' out,
    processMessage env message session st = (st', inr out) /\
    sessionId out = Some session /\
    (forall e, (processMessage_try env message session st).2 = inl e ->
       type out = type_error /\ content out = APOLOGY /\ imageData out = None /\
       last (trace st') = Some (Logged (ProcessingError e))) /\
    (forall s r, processMessage_try env message session st = (s, inr r) ->
       st' = s /\ out = r /\ type out <> type_error).
Proof.
  rewrite processMessage_catch. unfold catch.
  destruct (processMessage_try env message session st) as [s1 [e|r]] eqn:Hrun.
  - unfold apologise, log, record, now, mbind, Eff_bind, mret, Eff_ret.
    cbn [fst snd world]. destruct (Date_now env (world s1)) as [w t].
    eexists _, _. split; [done|]. cbn [fst snd sessionId type content imageData trace].
    split_and!; try done.
    intros e' [= <-]. split_and!; try done. apply last_snoc.
  - exists s1, r. split; [done|].
    destruct (yields_processMessage_try _ _ _ _ _ Hrun) as [Hs Ht].
    split_and!; try done. by intros s' r' [= <- <-].
Qed.

Lemma processMessage_continuations message session st :
  continuations (since st (processMessage env message session st).1) =
  continuations (since st (processMessage_try env message session st).1).
Proof.
  rewrite processMessage_catch. unfold catch.
  destruct (emits_processMessage_try message session st) as (t1 & Ht1 & _).
  destruct (processMessage_try env message session st) as [s1 [e|r]]; [|done].
  cbn [fst] in *.
  rewrite (since_then (apologise session e) _ st s1 t1 Ht1 (emits_apologise session e)).
  rewrite (since_app _ _ _ Ht1), continuations_app.
  destruct (emits_since (apologise session e) _ s1 (emits_apologise session e)) as (? & _).
  lia.
Qed.

(** ** The outcome of a message, case by case *)

(** The two tests that [executeTools] makes after its loop. *)
Definition continues (message : jsstring) (b : Batch) : bool :=
  isMultiStepRequest message && ((length (toolResults b) =? 1) && hasScreenshot b).

Definition shows (message : jsstring) (b : Batch) : bool :=
  hasScreenshot b && truthy (screenshotData b) && negb (isMultiStepRequest message).

(** The last branch of [executeTools]: the tool catalog, the follow-up and
    the text response made of it. *)
Definition follow_up (message session : jsstring) (b : Batch) : Eff St ChatResponse :=
  availableTools ← listTools env;
  followUpResponse ←
    generateFollowUpResponse env message (toolResults b) availableTools session;
  t ← now env;
  mret {| content := response_content followUpResponse; type := type_text;
          imageData := None; toolName := None;
          sessionId := Some session; timestamp := Some t |}.

(** The state in which [continueMultiStepWorkflow] is entered. *)
Definition detected (st : St) : St := (log MultiStepDetected st).1.

(** The part of [continueMultiStepWorkflow] that can throw: the tool
    catalog and the second decision. *)
Definition decide_next (message session : jsstring) : Eff St LLMResponse :=
  _ ← log (ContinuationPrompt (continuationPrompt message));
  availableTools ← listTools env;
  continuationResponse ←
    llmProcessMessage env (continuationPrompt message) availableTools session;
  _ ← log (ContinuationResponse continuationResponse);
  mret continuationResponse.

(** An exception that reaches the [catch] of [processMessage]: one thrown
    before the first decision is there, or one thrown by the last branch of
    [executeTools]. *)
Definition escapes (message session : jsstring) (st : St) (e : Error) : Prop :=
  (decide_first message session st).2 = inl e \/
  exists st0 llmResponse calls st1 b,
    decide_first message session st = (st0, inr llmResponse) /\
    requiresTools llmResponse = true /\ toolCalls llmResponse = Some calls /\
    for_each (executeTool env) calls no_results st0 = (st1, inr b) /\
    continues message b = false /\ shows message b = false /\
    (follow_up message session b st1).2 = inl e.

Lemma batch_results calls st st1 b :
  for_each (executeTool env) calls no_results st = (st1, inr b) ->
  b = foldl record_result no_results (zip calls (kept calls (world st))) /\
  toolResults b = kept calls (world st).
Proof.
  intros Hrun. destruct (batch_kept calls no_results st) as (st1' & Hrun').
  rewrite Hrun in Hrun'. injection Hrun' as _ ->. split; [done|].
  rewrite batch_toolResults. simpl. apply snd_zip. rewrite kept_length. lia.
Qed.

Lemma conclude_continues message session b st :
  continues message b = true ->
  conclude message session b st =
  continueMultiStepWorkflow env message (toolResults b) (screenshotData b) session
    (detected st).
Proof. intros Hc. unfold conclude, continues in *. cbv zeta. by rewrite Hc. Qed.

Lemma conclude_shows message session b st :
  continues message b = false -> shows message b = true ->
  exists st' out,
    conclude message session b st = (st', inr out) /\ trace st' = trace st /\
    type out = type_image /\ imageData out = screenshotData b /\
    content out = generateScreenshotMessage (toolResults b).
Proof.
  intros Hc Hs. unfold conclude, continues, shows in *. cbv zeta. rewrite Hc, Hs.
  unfold now, mbind, Eff_bind, mret, Eff_ret.
  destruct (Date_now env (world st)) as [w t]. by eexists _, _.
Qed.

Lemma conclude_follow_up message session b :
  continues message b = false -> shows message b = false ->
  conclude message session b = follow_up message session b.
Proof. intros Hc Hs. unfold conclude, continues, shows in *. cbv zeta. by rewrite Hc, Hs. Qed.

Lemma follow_up_run message session b st st' out :
  follow_up message session b st = (st', inr out) ->
  type out = type_text /\ imageData out = None /\ sessionId out = Some session /\
  exists tools,
    trace st' = trace st ++ [Called ListTools;
                             Called (GenerateFollowUp message (toolResults b) tools session)].
Proof.
  unfold follow_up, listTools, generateFollowUpResponse, call, now, mbind, Eff_bind,
    mret, Eff_ret.
  destruct (mcp_listTools env (world st)) as [w1 [e|tools]]; [done|]. cbn [world].
  destruct (llm_generateFollowUpResponse env _ _ _ _ w1) as [w2 [e|r]]; [done|].
  cbn [world]. destruct (Date_now env w2) as [w3 t]. intros [= <- <-].
  split_and!; try done. exists tools. cbn [trace]. by rewrite <- app_assoc.
Qed.

Lemma safe_executeContinuationTool results toolCall :
  safe (executeContinuationTool env results toolCall).
Proof. unfold executeContinuationTool. repeat safe_step. Qed.

(** [continueMultiStepWorkflow] never throws.  When its catalog or its
    decision throws, it answers with the screenshot it was given; when they
    return, it answers with a text. *)
Lemma continuation_run message results data session st :
  exists st' out,
    continueMultiStepWorkflow env message results data session st = (st', inr out) /\
    (forall s e, decide_next message session st = (s, inl e) ->
       type out = type_image /\ imageData out = or_else data None /\
       last (trace st') = Some (Logged (ContinuationError e))) /\
    (forall s r, decide_next message session st = (s, inr r) ->
       type out = type_text /\ imageData out = None).
Proof.
  assert (forall e s, exists st' out,
            (_ ← log (ContinuationError e); t ← now env;
             mret {| content := lit "📸 I took a screenshot as requested, but encountered an issue continuing with the remaining steps. Please let me know what you'd like me to do next!";
                     type := type_image; imageData := or_else data None;
                     toolName := Some SCREENSHOT;
                     sessionId := Some session; timestamp := Some t |}) s
            = (st', inr out) /\
            type out = type_image /\ imageData out = or_else data None /\
            last (trace st') = Some (Logged (ContinuationError e))) as Hfallback.
  { intros e s. unfold log, record, now, mbind, Eff_bind, mret, Eff_ret.
    cbn [world trace sessions]. destruct (Date_now env (world s)) as [w t].
    eexists _, _. split; [done|]. split_and!; try done. apply last_snoc. }
  unfold continueMultiStepWorkflow, decide_next, catch, mbind, Eff_bind.
  destruct (log (ContinuationPrompt _) st) as [s1 [e1|[]]] eqn:H1.
  { by unfold log, record in H1. }
  destruct (listTools env s1) as [s2 [e2|tools]].
  { destruct (Hfallback e2 s2) as (st' & out & Hrun & ? & ? & ?).
    exists st', out. split; [exact Hrun|].
    split; [by intros ? ? [= <- <-]|by intros ? ? [=]]. }
  destruct (llmProcessMessage env _ tools session s2) as [s3 [e3|r]].
  { destruct (Hfallback e3 s3) as (st' & out & Hrun & ? & ? & ?).
    exists st', out. split; [exact Hrun|].
    split; [by intros ? ? [= <- <-]|by intros ? ? [=]]. }
  destruct (log (ContinuationResponse r) s3) as [s4 [e4|[]]] eqn:H4.
  { by unfold log, record in H4. }
  match goal with |- exists st' out, (let (s', s0) := ?m in _) = _ /\ _ =>
    assert (exists st' out, m = (st', inr out) /\ type out = type_text /\
                            imageData out = None) as (st' & out & -> & Ht & Hi)
  end.
  { destruct (requiresTools r), (toolCalls r) as [calls|].
    - destruct (safe_for_each (executeContinuationTool env) calls []
                  safe_executeContinuationTool s4) as (s5 & rs & ->).
      unfold log, record, now, mret, Eff_ret. cbn [world].
      destruct (Date_now env (world s5)) as [w t]. by eexists _, _.
    - unfold log, record, now, mret, Eff_ret. cbn [world].
      destruct (Date_now env (world s4)) as [w t]. by eexists _, _.
    - unfold log, record, now, mret, Eff_ret. cbn [world].
      destruct (Date_now env (world s4)) as [w t]. by eexists _, _.
    - unfold log, record, now, mret, Eff_ret. cbn [world].
      destruct (Date_now env (world s4)) as [w t]. by eexists _, _. }
  exists st', out. split; [done|]. split; [by intros ? ? [=]|by intros ? ? _].
Qed.

Lemma batch_truthy calls st st1 b :
  for_each (executeTool env) calls no_results st = (st1, inr b) ->
  hasScreenshot b = true -> truthy (screenshotData b) = true.
Proof.
  intros Hrun Hhas. apply batch_results in Hrun as [-> _].
  apply batch_has_screenshot in Hhas.
  destruct (batch_screenshot_last _ no_results Hhas) as (_ & i & cr & _ & Hcap & _ & ->).
  by apply captured_truthy in Hcap as (_ & _ & ?).
Qed.

Lemma respond_tools message session llmResponse calls st0 :
  requiresTools llmResponse = true -> toolCalls llmResponse = Some calls ->
  exists st1 b,
    for_each (executeTool env) calls no_results st0 = (st1, inr b) /\
    respond message session llmResponse st0 = conclude message session b st1.
Proof.
  intros Hreq Hcalls. destruct (batch_kept calls no_results st0) as (st1 & Hrun).
  eexists st1, _. split; [exact Hrun|].
  unfold respond. rewrite Hreq, bool_decide_eq_true_2 by (rewrite Hcalls; eauto).
  cbn [andb]. rewrite (executeTools_conclude _ _ _ _ Hcalls).
  unfold mbind, Eff_bind. by rewrite Hrun.
Qed.

Lemma respond_text message session llmResponse st0 :
  requiresTools llmResponse && bool_decide (is_Some (toolCalls llmResponse)) = false ->
  exists st1 out,
    respond message session llmResponse st0 = (st1, inr out) /\
    type out = type_text /\ imageData out = None /\
    content out = response_content llmResponse.
Proof.
  intros Hno. unfold respond. rewrite Hno.
  unfold now, mbind, Eff_bind, mret, Eff_ret.
  destruct (Date_now env (world st0)) as [w t]. by eexists _, _.
Qed.

Lemma try_respond message session st st0 llmResponse :
  decide_first message session st = (st0, inr llmResponse) ->
  processMessage_try env message session st = respond message session llmResponse st0.
Proof.
  intros Hd. rewrite processMessage_try_decide. unfold mbind, Eff_bind. by rewrite Hd.
Qed.

(** After a batch, only the last branch can throw. *)
Lemma conclude_throws message session b st e :
  (conclude message session b st).2 = inl e <->
  continues message b = false /\ shows message b = false /\
  (follow_up message session b st).2 = inl e.
Proof.
  destruct (continues message b) eqn:Hc.
  { rewrite conclude_continues by done.
    destruct (continuation_run message (toolResults b) (screenshotData b) session
                (detected st)) as (? & ? & -> & _).
    split; [done|]. by intros ([=] & _). }
  destruct (shows message b) eqn:Hs.
  { destruct (conclude_shows message session b st Hc Hs) as (? & ? & -> & _).
    split; [done|]. by intros (_ & [=] & _). }
  rewrite conclude_follow_up by done. split; [done|]. by intros (_ & _ & ?).
Qed.

Lemma try_escapes message session st e :
  (processMessage_try env message session st).2 = inl e <->
  escapes message session st e.
Proof.
  unfold escapes.
  destruct (decide_first message session st) as [st0 [e0|llmResponse]] eqn:Hd.
  { rewrite processMessage_try_decide. unfold mbind, Eff_bind. rewrite Hd. cbn [snd].
    split; [intros [= ->]; by left|]. by intros [[= ->]|(? & ? & ? & ? & ? & [=] & _)]. }
  rewrite (try_respond _ _ _ _ _ Hd). cbn [snd]. split.
  - intros Hthrow. right.
    destruct (requiresTools llmResponse && bool_decide (is_Some (toolCalls llmResponse)))
      eqn:Hcond.
    + apply andb_prop in Hcond as [Hreq Hsome].
      apply bool_decide_eq_true in Hsome as [calls Hcalls].
      destruct (respond_tools message session llmResponse calls st0 Hreq Hcalls)
        as (st1 & b & Hrun & Hresp).
      rewrite Hresp in Hthrow. apply conclude_throws in Hthrow as (? & ? & ?).
      by exists st0, llmResponse, calls, st1, b.
    + destruct (respond_text message session llmResponse st0 Hcond) as (? & ? & Hr & _).
      by rewrite Hr in Hthrow.
  - intros [[=]|(st0' & llm' & calls & st1 & b & [= <- <-] & Hreq & Hcalls & Hrun
                 & Hc & Hs & Hthrow)].
    destruct (respond_tools message session llmResponse calls st0 Hreq Hcalls)
      as (st1' & b' & Hrun' & ->).
    rewrite Hrun in Hrun'. injection Hrun' as <- <-.
    by apply conclude_throws.
Qed.

End Facts.

Lemma isMultiStepRequest_indicator `{Builtins} (message : jsstring) :
  isMultiStepRequest message = true <->
  exists indicator, indicator ∈ multiStepIndicators /\
                    includes (toLowerCase message) indicator = true.
Proof.
  unfold isMultiStepRequest. rewrite existsb_exists.
  split; intros (indicator & Hin & Hinc); exists indicator;
    (split; [by apply list_elem_of_In|done]).
Qed.

(** C7 (amended).  A batch has been executed in which some call named the
    screenshot tool, succeeded and returned image data.  When the message
    holds no multi-step indicator, [executeTools] returns an image-typed
    response that carries the image data of the last such call and the
    screenshot caption, and after the loop nothing is logged or called: no
    follow-up is requested from the Model Gateway, the continuation branch
    is not entered, no decision is requested.  When the message holds an
    indicator and the batch has not exactly one call, so that the
    continuation branch is not taken, [executeTools] goes on with its last
    branch: it asks for the tool catalog and for one follow-up and returns
    the text of the follow-up, with type text and without image data (or
    throws what one of the two threw). *)
Theorem screenshot_answered_with_image `{Builtins} {W : Type}
    (env : Collaborators (W := W)) (llmResponse : LLMResponse)
    (calls : list MCPToolCall) (message session : jsstring)
    (st st1 : State) (b : Batch) :
  toolCalls llmResponse = Some calls ->
  for_each (executeTool env) calls no_results st = (st1, inr b) ->
  (exists i toolCall r,
     calls !! i = Some toolCall /\ toolResults b !! i = Some r /\
     captured toolCall r = true) ->
  (isMultiStepRequest message = false ->
   exists st2 out,
     executeTools env llmResponse message session st = (st2, inr out) /\
     type out = type_image /\
     (exists i toolCall r,
        calls !! i = Some toolCall /\ toolResults b !! i = Some r /\
        captured toolCall r = true /\
        (forall j toolCall' r',
           i < j -> calls !! j = Some toolCall' -> toolResults b !! j = Some r' ->
           captured toolCall' r' = false) /\
        imageData out = MCP.imageData r) /\
     content out = generateScreenshotMessage (toolResults b) /\
     trace st2 = trace st1 /\
     follow_ups (since st st2) = 0 /\
     continuations (since st st2) = 0 /\
     decisions (since st st2) = 0) /\
  (isMultiStepRequest message = true -> length calls <> 1 ->
   executeTools env llmResponse message session st =
     follow_up env message session b st1 /\
   forall st2 out,
     follow_up env message session b st1 = (st2, inr out) ->
     type out = type_text /\ imageData out = None /\
     follow_ups (since st st2) = 1 /\
     continuations (since st st2) = 0 /\
     decisions (since st st2) = 0).
Proof.
  intros Hcalls Hrun (i & toolCall & r & Hcall & Hr & Hcap).
  destruct (batch_results env calls st st1 b Hrun) as [Hb Hres].
  set (rs := kept env calls (world st)) in *.
  assert (length rs = length calls) as Hlen by apply kept_length.
  destruct (emits_batch env calls no_results st) as (t1 & Ht1 & Hc & Hd & Hf).
  rewrite Hrun in Ht1. cbn [fst] in Ht1.
  assert (executeTools env llmResponse message session st =
          conclude env message session b st1) as Hexec.
  { rewrite (executeTools_conclude env _ _ _ _ Hcalls).
    unfold mbind, Eff_bind. by rewrite Hrun. }
  assert (Exists (fun cr => captured cr.1 cr.2 = true) (zip calls rs)) as Hex.
  { apply Exists_exists. exists (toolCall, r). split; [|done].
    apply list_elem_of_lookup_2 with i. apply lookup_zip_with_Some.
    rewrite Hres in Hr. eauto. }
  destruct (batch_screenshot_last (zip calls rs) no_results Hex)
    as (Hhas & i' & [toolCall' r'] & Hi' & Hcap' & Hlast & Hdata).
  rewrite <- Hb in Hhas, Hdata. simpl in Hcap', Hdata.
  apply lookup_zip_with_Some in Hi' as (? & ? & [= <- <-] & Hcall' & Hr').
  destruct (captured_truthy _ _ Hcap') as (_ & _ & Htruthy).
  split.
  - intros Hmulti.
    destruct (conclude_shows env message session b st1) as (st2 & out & Hcon & Htr & Ht & Hi & Hcontent).
    { unfold continues. by rewrite Hmulti. }
    { unfold shows. by rewrite Hhas, Hdata, Htruthy, Hmulti. }
    exists st2, out. rewrite Hexec. split; [done|].
    rewrite (since_app st st2 t1) by (by rewrite Htr).
    split_and!; try done; try lia.
    exists i', toolCall', r'. rewrite Hres. split_and!; try done; [|by rewrite Hi].
    intros j tc rj Hlt Hj Hrj.
    apply (Hlast j (tc, rj)); [done|]. apply lookup_zip_with_Some. eauto.
  - intros Hmulti Hlength.
    assert (conclude env message session b = follow_up env message session b) as Hfollow.
    { apply conclude_follow_up.
      - unfold continues. rewrite Hres, Hlen.
        destruct (Nat.eqb_spec (length calls) 1) as [?|_]; [done|].
        by rewrite andb_false_r.
      - unfold shows. rewrite Hmulti. by rewrite andb_false_r. }
    rewrite Hexec, Hfollow. split; [done|].
    intros st2 out Hout.
    apply follow_up_run in Hout as (Ht & Hi & _ & tools & Htr).
    rewrite (since_app st st2 (t1 ++ [Called ListTools;
               Called (GenerateFollowUp message (toolResults b) tools session)]))
      by (by rewrite Htr, Ht1, app_assoc).
    rewrite follow_ups_app, continuations_app, decisions_app.
    unfold follow_ups, continuations, decisions in *. simpl.
    split_and!; try done; lia.
Qed.

(** C8 (amended).  While a message is processed the continuation branch is
    entered exactly when the lower-cased message contains one of the
    indicators, the first decision required tools and asked for exactly
    one call, that call named the screenshot tool, and it returned a
    successful Tool Result with image data.  The branch is entered at most
    once, and the Model Gateway is asked for at most two decisions. *)
Theorem continuation_taken_iff `{Builtins} {W : Type}
    (env : Collaborators (W := W)) (message session : jsstring) (st : State) :
  let entries := since st (processMessage env message session st).1 in
  (0 < continuations entries <->
   (exists indicator,
      indicator ∈ multiStepIndicators /\
      includes (toLowerCase message) indicator = true) /\
   exists st0 llmResponse toolCall r,
     decide_first env message session st = (st0, inr llmResponse) /\
     requiresTools llmResponse = true /\
     toolCalls llmResponse = Some [toolCall] /\
     call_name toolCall = SCREENSHOT /\
     (mcp_callTool env (call_name toolCall) (call_arguments toolCall) (world st0)).2
       = inr r /\
     MCP.success r = true /\ truthy (MCP.imageData r) = true) /\
  continuations entries <= 1 /\ decisions entries <= 2.
Proof.
  intros entries. subst entries.
  destruct (emits_since _ _ st (emits_processMessage env message session))
    as (Hc & Hd & _).
  split; [|done]. clear Hc Hd.
  rewrite processMessage_continuations, processMessage_try_decide.
  rewrite <- isMultiStepRequest_indicator.
  unfold mbind, Eff_bind.
  destruct (emits_decide_first env message session st) as (t0 & Ht0 & Hq & _).
  destruct (decide_first env message session st) as [st0 [e|llmResponse]];
    cbn [fst] in *.
  { rewrite (since_app _ _ _ Ht0). split; [lia|]. by intros (_ & ? & ? & ? & ? & [=] & _). }
  rewrite (since_then _ _ st st0 t0 Ht0 (emits_respond env message session llmResponse)).
  rewrite continuations_app. replace (continuations t0) with 0 by lia.
  rewrite Nat.add_0_l. unfold respond.
  destruct (requiresTools llmResponse) eqn:Hreq;
    [destruct (toolCalls llmResponse) as [calls|] eqn:Hcalls|]; cbn [andb].
  - rewrite bool_decide_eq_true_2 by eauto.
    rewrite (executeTools_continuations env _ _ _ _ _ Hcalls).
    split.
    + intros (Hm & toolCall & r & -> & Hout & Hn & Hs & Hi). split; [done|].
      exists st0, llmResponse, toolCall, r. by split_and!.
    + intros (Hm & ? & ? & toolCall & r & [= <- <-] & _ & Hone & Hn & Hout & Hs & Hi).
      split; [done|]. rewrite Hcalls in Hone. injection Hone as ->.
      exists toolCall, r. by split_and!.
  - rewrite bool_decide_eq_false_2 by (by intros [? [=]]).
    rewrite since_refl.
    + split; [by inversion 1|]. intros (_ & ? & ? & ? & ? & [= <- <-] & _ & Hone & _).
      by rewrite Hcalls in Hone.
    + unfold now, mbind, Eff_bind. by destruct (Date_now env (world st0)).
  - rewrite since_refl.
    + split; [by inversion 1|]. intros (_ & ? & ? & ? & ? & [= <- <-] & Hr & _).
      by rewrite Hreq in Hr.
    + unfold now, mbind, Eff_bind. by destruct (Date_now env (world st0)).
Qed.

(** C10 (amended).  [processMessage] never throws: it returns one response,
    for the session it was called with.  The response has type [error]
    exactly when an exception escapes the [try] block; it is then the
    apology, and the exception is logged.  An exception escapes exactly when
    the first stage throws (the tool catalog or the first decision), or
    when, after a batch that leads neither to the continuation nor to the
    image, the last branch throws (the tool catalog or the follow-up).
    Otherwise the response is: the text of the decision when it asks for no
    tools; after a batch, whose loop never throws and keeps a failed Tool
    Result for a call that threw, in the continuation branch an image-typed
    response with the screenshot when the catalog or the second decision
    throws and a text response when they return; in the image branch the
    image-typed response; in the last branch what that branch returns, of
    type text. *)
Theorem processMessage_never_throws `{Builtins} {W : Type}
    (env : Collaborators (W := W)) (message session : jsstring) (st : State) :
  exists st' out,
    processMessage env message session st = (st', inr out) /\
    sessionId out = Some session /\
    (type out = type_error <-> exists e, escapes env message session st e) /\
    (forall e, escapes env message session st e ->
       content out = APOLOGY /\ imageData out = None /\
       last (trace st') = Some (Logged (ProcessingError e))) /\
    (forall st0 llmResponse,
       decide_first env message session st = (st0, inr llmResponse) ->
       requiresTools llmResponse && bool_decide (is_Some (toolCalls llmResponse)) = false ->
       type out = type_text /\ imageData out = None /\
       content out = response_content llmResponse) /\
    (forall st0 llmResponse calls,
       decide_first env message session st = (st0, inr llmResponse) ->
       requiresTools llmResponse = true -> toolCalls llmResponse = Some calls ->
       exists st1 b,
         for_each (executeTool env) calls no_results st0 = (st1, inr b) /\
         toolResults b = kept env calls (world st0) /\
         (continues message b = true ->
          (forall s e,
             decide_next env message session (detected st1) = (s, inl e) ->
             type out = type_image /\ imageData out = screenshotData b /\
             truthy (screenshotData b) = true /\
             last (trace st') = Some (Logged (ContinuationError e))) /\
          (forall s r,
             decide_next env message session (detected st1) = (s, inr r) ->
             type out = type_text /\ imageData out = None)) /\
         (continues message b = false -> shows message b = true ->
          type out = type_image /\ imageData out = screenshotData b) /\
         (continues message b = false -> shows message b = false ->
          forall s r,
            follow_up env message session b st1 = (s, inr r) ->
            out = r /\ type out = type_text /\ imageData out = None)).
Proof.
  destruct (processMessage_run env message session st)
    as (st' & out & Hrun & Hs & He & Hr).
  exists st', out. split_and!; try done.
  - split.
    + intros Htype.
      destruct (processMessage_try env message session st) as [s [e|r]] eqn:Htry.
      * exists e. apply try_escapes. by rewrite Htry.
      * by destruct (Hr s r) as (_ & _ & Hne).
    + intros [e Hesc]. apply try_escapes in Hesc. by destruct (He e Hesc).
  - intros e Hesc. apply try_escapes in Hesc. by destruct (He e Hesc) as (? & ? & ? & ?).
  - intros st0 llmResponse Hd Hno.
    destruct (respond_text env message session llmResponse st0 Hno)
      as (s1 & r & Hresp & Ht & Hi & Hc).
    destruct (Hr s1 r) as (_ & -> & _); [|done].
    by rewrite (try_respond env _ _ _ _ _ Hd).
  - intros st0 llmResponse calls Hd Hreq Hcalls.
    destruct (respond_tools env message session llmResponse calls st0 Hreq Hcalls)
      as (st1 & b & Hbatch & Hresp).
    exists st1, b. split; [done|].
    split; [by apply batch_results in Hbatch as [_ ?]|].
    pose proof (try_respond env _ _ _ _ _ Hd) as Htry. rewrite Hresp in Htry.
    split_and!.
    + intros Hc. rewrite conclude_continues in Htry by done.
      destruct (continuation_run env message (toolResults b) (screenshotData b)
                  session (detected st1)) as (s2 & r & Hcont & Hfail & Hok).
      rewrite Hcont in Htry. destruct (Hr s2 r Htry) as (-> & -> & _).
      split; [|exact Hok].
      intros s e Hn. destruct (Hfail s e Hn) as (Ht & Hi & Hl).
      assert (truthy (screenshotData b) = true) as Htruthy.
      { apply (batch_truthy env calls st0 st1 b Hbatch).
        unfold continues in Hc. apply andb_prop in Hc as [_ Hc].
        by apply andb_prop in Hc as [_ ?]. }
      split_and!; try done. rewrite Hi. unfold or_else. by rewrite Htruthy.
    + intros Hc Hsh.
      destruct (conclude_shows env message session b st1 Hc Hsh)
        as (s2 & r & Hcon & _ & Ht & Hi & _).
      rewrite Hcon in Htry. by destruct (Hr s2 r Htry) as (_ & -> & _).
    + intros Hc Hsh s r Hf. rewrite conclude_follow_up in Htry by done.
      rewrite Hf in Htry. destruct (Hr s r Htry) as (_ & -> & _).
      by apply follow_up_run in Hf as (? & ? & _).
Qed.

Import Samples.

(** A message with an indicator, answered by a decision for two calls: the
    continuation branch is not entered, the screenshot call succeeded with
    image data, and the response is the text of a follow-up. *)
Lemma indicator_message_gets_follow_up :
  exists st1 b st2 out,
    for_each (executeTool (scripted (wants [screenshot; click]) (wants []) tools_work))
      [screenshot; click] no_results fresh_service = (st1, inr b) /\
    toolResults b !! 0 = Some image_result /\
    captured screenshot image_result = true /\
    executeTools (scripted (wants [screenshot; click]) (wants []) tools_work)
      (asks_for [screenshot; click]) (lit "Take a screenshot, then click")
      (lit "s1") fresh_service = (st2, inr out) /\
    continuations (since fresh_service st2) = 0 /\
    type out = type_text /\
    imageData out = None /\
    follow_ups (since fresh_service st2) = 1.
Proof. eexists _, _, _, _. split_and!; by vm_compute. Qed.

Lemma screenshot_answered_with_image_witness :
  exists st2 out,
    executeTools (scripted (wants [screenshot]) (wants []) tools_work)
      (asks_for [screenshot]) (lit "Take a screenshot") (lit "s1") fresh_service
      = (st2, inr out) /\
    type out = type_image /\
    imageData out = Some (jstr "iVBORw==") /\
    follow_ups (since fresh_service st2) = 0.
Proof.
  pose (env := scripted (wants [screenshot]) (wants []) tools_work).
  pose (run := for_each (executeTool env) [screenshot] no_results fresh_service).
  destruct (screenshot_answered_with_image env (asks_for [screenshot]) [screenshot]
              (lit "Take a screenshot") (lit "s1") fresh_service run.1
              (match run.2 with inr b => b | inl _ => no_results end))
    as [Himage _].
  - reflexivity.
  - by vm_compute.
  - exists 0, screenshot, image_result. by vm_compute.
  - destruct Himage
      as (st2 & out & Hrun & Htype & (i & toolCall & r & Hcall & Hr & _ & _ & Hdata)
          & _ & _ & Hfollow & _).
    + by vm_compute.
    + exists st2, out. split_and!; try done.
      rewrite Hdata. destruct i as [|[|i]]; [|done..].
      vm_compute in Hr. by injection Hr as <-.
Defined.

(** A message with an indicator, one call of the screenshot tool, and a
    successful Tool Result that carries text and no image data: the
    continuation branch is not entered. *)
Lemma screenshot_without_image_not_continued :
  exists st2 out,
    includes (lit "Take a screenshot, then click") (lit "then") = true /\
    processMessage (scripted (wants [screenshot]) (wants [click]) tools_answer_text)
      (lit "Take a screenshot, then click") (lit "s1") fresh_service
      = (st2, inr out) /\
    tools_called (trace st2) = [SCREENSHOT] /\
    tools_answer_text SCREENSHOT = inr (text_result SCREENSHOT) /\
    MCP.success (text_result SCREENSHOT) = true /\
    continuations (trace st2) = 0 /\
    decisions (trace st2) = 1 /\
    type out = type_text.
Proof. eexists _, _. split_and!; by vm_compute. Qed.

(** Exceptions that do not give the apology.  The second decision throws:
    the response is the screenshot, of type [image].  A tool call throws:
    the response is the text of the follow-up.  A tool call throws next to
    a captured screenshot: the response is the screenshot.  A tool call of
    the continuation throws: the response is the continuation's text. *)
Lemma inner_failures_are_not_apologies :
  (exists st2 out,
     processMessage
       (scripted (wants [screenshot]) (inl {| message := lit "503" |}) tools_work)
       (lit "Take a screenshot, then click") (lit "s1") fresh_service
       = (st2, inr out) /\
     last (trace st2) = Some (Logged (ContinuationError {| message := lit "503" |})) /\
     type out = type_image /\
     imageData out = Some (jstr "iVBORw==")) /\
  (exists st2 out,
     processMessage
       (scripted (wants [click]) (wants [])
          (fun _ => inl {| message := lit "MCP client is not connected" |}))
       (lit "Click the button") (lit "s1") fresh_service = (st2, inr out) /\
     length (filter is_tool_error (trace st2)) = 1 /\
     type out = type_text /\
     content out = lit "Done.") /\
  (exists st2 out,
     processMessage (scripted (wants [screenshot; click]) (wants []) only_screenshot_works)
       (lit "Capture the screen & click") (lit "s1") fresh_service = (st2, inr out) /\
     length (filter is_tool_error (trace st2)) = 1 /\
     follow_ups (trace st2) = 0 /\
     type out = type_image /\
     imageData out = Some (jstr "iVBORw==")) /\
  (exists st2 out,
     processMessage (scripted (wants [screenshot]) (wants [click]) only_screenshot_works)
       (lit "Take a screenshot, then click") (lit "s1") fresh_service = (st2, inr out) /\
     continuations (trace st2) = 1 /\
     length (filter is_tool_error (trace st2)) = 1 /\
     type out = type_text /\
     imageData out = None).
Proof. split_and!; eexists _, _; split_and!; by vm_compute. Qed.

End Orchestrator.

(* ===================================================================== *)
(** * Part XII.  More on the protocol client                              *)
(* ===================================================================== *)

Module MCPClientMore.
Import JS MCP MCPClient MCPClientFacts.

(** ** A settled promise stays as it is *)

Lemma waitForResponse_settled id w q x :
  WF w -> promises w !! q = Some x ->
  promises (waitForResponse id w).1 !! q = Some x.
Proof.
  intros Hwf Hq. rewrite waitForResponse_fields. simpl.
  rewrite lookup_insert_ne; [done|].
  intros <-. by rewrite (WF_fresh_promise w Hwf) in Hq.
Qed.

Lemma callTool_start_settled tool args now random writable w q x :
  WF w -> promises w !! q = Some x ->
  promises (callTool_start tool args now random writable w).1 !! q = Some x.
Proof.
  intros Hwf Hq. unfold callTool_start.
  destruct (connected w); [|done].
  destruct (mcpProcess w) as [proc|]; [|done].
  destruct writable; [|done].
  match goal with |- context [waitForResponse ?id ?w0] =>
    pose proof (waitForResponse_settled id w0 q x) as Hs;
    destruct (waitForResponse id w0) as [w' p] end.
  apply Hs; [|done]. by eapply WF_books; [..|exact Hwf].
Qed.

Lemma timer_fires_settled t w q x :
  promises w !! q = Some x -> x <> Pending ->
  promises (timer_fires t w) !! q = Some x.
Proof.
  intros Hq Hx. destruct (timers w !! t) as [tm|] eqn:Ht.
  - rewrite (timer_fires_take_out _ _ _ Ht). by apply take_out_settled.
  - unfold timer_fires. by rewrite Ht.
Qed.

Lemma foldl_timer_fires_settled ts w q x :
  promises w !! q = Some x -> x <> Pending ->
  promises (foldl (fun w' t => timer_fires t w') w ts) !! q = Some x.
Proof.
  revert w. induction ts as [|t ts IH]; intros w Hq Hx; simpl; [done|].
  apply IH; [|done]. by apply timer_fires_settled.
Qed.

Lemma rejectPendingRequests_settled e w q x :
  promises w !! q = Some x -> x <> Pending ->
  promises (rejectPendingRequests e w) !! q = Some x.
Proof.
  intros Hq Hx. rewrite rejectPendingRequests_unfold.
  change (promises (reject_entries e w (map_to_list (pendingRequests w))) !! q = Some x).
  by apply reject_entries_settled.
Qed.

Lemma step_settled w ev q x :
  WF w -> promises w !! q = Some x -> x <> Pending ->
  promises (step w ev) !! q = Some x.
Proof.
  intros Hwf Hq Hx. destruct ev as [[e|proc]| | | | | | |]; cbn [step].
  - done.
  - done.
  - done.
  - by apply callTool_start_settled.
  - rewrite handleProcessOutput_dispatched. by apply foldl_deliver_settled.
  - unfold elapse. change (promises (foldl (fun w' t => timer_fires t w') w (due now w)) !! q = Some x).
    by apply foldl_timer_fires_settled.
  - by apply rejectPendingRequests_settled.
  - by apply rejectPendingRequests_settled.
  - unfold disconnect. apply rejectPendingRequests_settled; [|done].
    by destruct (mcpProcess w).
Qed.

Lemma run_settled evs w q x :
  WF w -> along fresh_call w evs ->
  promises w !! q = Some x -> x <> Pending ->
  promises (run w evs) !! q = Some x.
Proof.
  revert w. induction evs as [|ev evs IH]; intros w Hwf Hfresh Hq Hx; [done|].
  destruct Hfresh as [Hev Hrest]. cbn [run foldl].
  apply IH; [by apply step_WF|done| |done]. by apply step_settled.
Qed.



(** ** Output that answers no pending request *)

Lemma foldl_deliver_unmatched responses w :
  Forall (fun r => forall id, id_of r = Some (JNum id) -> pendingRequests w !! id = None)
         responses ->
  foldl deliver w responses = w.
Proof.
  induction 1 as [|r rs Hr _ IH]; simpl; [done|].
  by rewrite (handleResponse_no_match r w Hr).
Qed.

Definition answers_nobody (w : World) (r : json) : bool :=
  match id_of r with
  | Some (JNum id) =>
    match pendingRequests w !! id with Some _ => false | None => true end
  | _ => true
  end.

Lemma answers_nobody_all w responses :
  forallb (answers_nobody w) responses = true ->
  Forall (fun r => forall id, id_of r = Some (JNum id) -> pendingRequests w !! id = None)
         responses.
Proof.
  intros Hall. apply Forall_forall. intros r Hr id Hid.
  rewrite forallb_forall in Hall. specialize (Hall r).
  unfold answers_nobody in Hall. rewrite Hid in Hall.
  destruct (pendingRequests w !! id); [|done].
  discriminate Hall. by apply list_elem_of_In.
Qed.

(** A chunk none of whose lines answers a pending request changes nothing
    but the buffer: lines that are blank or do not parse, values without an
    [id], ids that are not numbers, ids of requests that are not (or no
    longer) pending are all dropped. *)
Theorem unmatched_output_changes_only_the_buffer (data : list byte) (w : World) :
  Forall (fun r => forall id, id_of r = Some (JNum id) -> pendingRequests w !! id = None)
         (dispatched w data) ->
  handleProcessOutput data w =
  with_responseBuffer
    (default [] (last (split_nl (responseBuffer w ++ Buffer_toString data)))) w.
Proof.
  intros Hall. rewrite handleProcessOutput_dispatched.
  by apply foldl_deliver_unmatched.
Qed.

Lemma unmatched_output_changes_only_the_buffer_witness :
  let noise :=
    Samples.quoted "not json" ++ [x0a; x0a]
    ++ Samples.quoted "{'id':'abc','result':{}}" ++ [x0a]
    ++ Samples.quoted "{'jsonrpc':'2.0','method':'notifications/progress'}" ++ [x0a]
    ++ Samples.quoted "{'id':17" in
  length (dispatched Samples.two_waiting noise) = 2 /\
  handleProcessOutput noise Samples.two_waiting =
  with_responseBuffer (Byte.to_N <$> Samples.quoted "{'id':17") Samples.two_waiting.
Proof.
  cbv zeta. split; [by vm_compute|].
  rewrite unmatched_output_changes_only_the_buffer.
  - by vm_compute.
  - apply answers_nobody_all. by vm_compute.
Defined.

(** ** The buffer *)

Lemma lines_join text :
  text = mjoin ((fun line => line ++ [LF]) <$> complete_lines text)
         ++ Framing.last_line text.
Proof.
  unfold complete_lines, Framing.last_line.
  induction text as [|c text IH]; simpl; [done|].
  pose proof (Framing.split_nl_nonempty text) as Hne.
  destruct (c =? LF)%N eqn:Hc.
  - apply N.eqb_eq in Hc as ->.
    rewrite Framing.removelast_cons, Framing.last_cons_nonempty by done.
    change (LF :: text = LF :: (mjoin ((fun line => line ++ [LF]) <$> removelast (split_nl text))
                                ++ default [] (last (split_nl text)))).
    f_equal. exact IH.
  - destruct (split_nl text) as [|l [|l' ls]] eqn:Hs; [done|..].
    + change (c :: text = c :: l). f_equal.
      etrans; [exact IH|]. done.
    + change (c :: text =
              c :: (((l ++ [LF]) ++ mjoin ((fun line => line ++ [LF]) <$> removelast (l' :: ls)))
                    ++ default [] (last (l' :: ls)))).
      f_equal. etrans; [exact IH|]. done.
Qed.

(** After a chunk the buffer holds the text that follows the last line
    feed received so far, and no line feed; no character is lost: the old
    buffer and the chunk are the complete lines, each with its line feed,
    followed by the new buffer. *)
Theorem buffer_keeps_the_unfinished_line (data : list byte) (w : World) :
  let text := responseBuffer w ++ Buffer_toString data in
  let w' := handleProcessOutput data w in
  (LF ∉ responseBuffer w') /\
  text = mjoin ((fun line => line ++ [LF]) <$> complete_lines text)
         ++ responseBuffer w'.
Proof.
  intros text w'.
  assert (responseBuffer w' = Framing.last_line text) as ->.
  { subst w'. rewrite handleProcessOutput_dispatched.
    by rewrite Framing.foldl_deliver_buffer. }
  split; [apply Framing.last_line_no_LF|apply lines_join].
Qed.

(** ** What is written to the subprocess *)

Definition request_of (w : World) (ev : Event) : list json :=
  match ev with
  | CallTool tool args now random writable =>
    match connected w, mcpProcess w with
    | true, Some _ =>
      if writable then [tools_call tool args (requestId_of now random)] else []
    | _, _ => []
    end
  | _ => []
  end.

Definition is_call (ev : Event) : bool :=
  match ev with CallTool _ _ _ _ _ => true | _ => false end.

Lemma written_io w w' : io w' = io w -> written w' = written w.
Proof. unfold written. by intros ->. Qed.

Lemma step_written w ev : written (step w ev) = written w ++ request_of w ev.
Proof.
  destruct ev as [[e|proc]| |tool args now random writable|data|now|e|code|];
    cbn [step request_of]; rewrite ?app_nil_r.
  - done.
  - done.
  - done.
  - unfold callTool_start.
    destruct (connected w); [|by rewrite app_nil_r].
    destruct (mcpProcess w) as [proc|]; [|by rewrite app_nil_r].
    destruct writable; [|by rewrite app_nil_r].
    rewrite waitForResponse_fields. cbn [fst].
    rewrite <- (written_app w (StdinWrite proc _)). by apply written_io.
  - apply written_io. rewrite handleProcessOutput_dispatched.
    by destruct (foldl_deliver_link (dispatched w data)
                   (with_responseBuffer
                      (default [] (last (split_nl (responseBuffer w ++ Buffer_toString data))))
                      w)) as (_ & _ & -> & _).
  - apply written_io. unfold elapse.
    by destruct (foldl_timer_fires_link (due now w) w) as (_ & _ & <- & _).
  - apply written_io. unfold on_error.
    by destruct (rejectPendingRequests_link e (with_connected false w)) as (_ & _ & -> & _).
  - apply written_io. unfold on_exit.
    match goal with |- context [rejectPendingRequests ?e ?w0] =>
      by destruct (rejectPendingRequests_link e w0) as (_ & _ & -> & _) end.
  - unfold disconnect.
    match goal with |- context [rejectPendingRequests ?e ?w0] =>
      destruct (rejectPendingRequests_link e w0) as (_ & _ & Hio & _) end.
    unfold written at 1. rewrite Hio. fold (written (with_connected false
      match mcpProcess w with
      | Some proc => with_mcpProcess None (do_io (Kill proc) w)
      | None => w
      end)).
    destruct (mcpProcess w) as [proc|]; [|done].
    change (written (do_io (Kill proc) w) = written w).
    by rewrite written_app, app_nil_r.
Qed.

(** Whatever happens, the only thing the client ever writes to the
    subprocess is a [tools/call] request, at most one for each call of
    [callTool]: no handshake, no notification, no cancellation of a request
    that timed out. *)
Theorem only_tool_calls_are_written (w : World) (evs : list Event) :
  exists requests,
    written (run w evs) = written w ++ requests /\
    Forall (fun request => exists tool args id, request = tools_call tool args id)
           requests /\
    length requests <= length (filter is_call evs).
Proof.
  revert w. induction evs as [|ev evs IH]; intros w.
  { exists []. by rewrite app_nil_r. }
  destruct (IH (step w ev)) as (requests & Hw & Hall & Hlen).
  exists (request_of w ev ++ requests). cbn [run foldl].
  split_and!.
  - unfold run in Hw. by rewrite Hw, step_written, app_assoc.
  - apply Forall_app. split; [|done].
    destruct ev; simpl; try by constructor.
    destruct (connected w), (mcpProcess w), writable; repeat constructor. eauto.
  - rewrite length_app.
    assert (length (request_of w ev) <= if is_call ev then 1 else 0).
    { destruct ev; simpl; try lia.
      destruct (connected w), (mcpProcess w), writable; simpl; lia. }
    rewrite filter_cons. destruct ev; simpl in *; lia.
Qed.

(** ** Disconnecting *)

Lemma rejectPendingRequests_none e w :
  pendingRequests w = ∅ -> rejectPendingRequests e w = w.
Proof.
  intros Hnone. unfold rejectPendingRequests. rewrite Hnone, map_to_list_empty.
  simpl. destruct w. simpl in *. by subst.
Qed.

(** [disconnect] kills the subprocess if there is one, forgets it, and
    leaves no request pending; a second [disconnect] does nothing at all,
    in particular it does not kill again. *)
Theorem disconnect_twice_is_disconnect (w : World) :
  let w' := disconnect w in
  mcpProcess w' = None /\ connected w' = false /\ pendingRequests w' = ∅ /\
  io w' = io w ++ match mcpProcess w with Some proc => [Kill proc] | None => [] end /\
  disconnect w' = w'.
Proof.
  intros w'.
  assert (mcpProcess w' = None /\ connected w' = false /\ pendingRequests w' = ∅ /\
          io w' = io w ++ match mcpProcess w with Some proc => [Kill proc] | None => [] end)
    as (Hproc & Hconn & Hpending & Hio).
  { subst w'. unfold disconnect.
    match goal with |- context [rejectPendingRequests ?e ?w0] =>
      destruct (rejectPendingRequests_link e w0) as (-> & -> & -> & _) end.
    split_and!; try done.
    - by destruct (mcpProcess w) eqn:Hp.
    - destruct (mcpProcess w); [done|]. simpl. by rewrite app_nil_r. }
  split_and!; try done.
  unfold disconnect at 1. rewrite Hproc.
  rewrite rejectPendingRequests_none by done.
  destruct w'. simpl in *. by subst.
Qed.

(** ** Responses that [callTool] cannot read *)

(** A response without [error] whose [result.content] is an empty list
    makes [callTool] fail: reading [content[0].type] throws, and the
    exception becomes the [error] of a failed Tool Result. *)
Theorem empty_content_list_is_a_failure
    (tool : jsstring) (fields rfields : list (jsstring * json)) :
  truthy (assoc (lit "error") fields) = false ->
  assoc (lit "result") fields = Some (JObj rfields) ->
  assoc (lit "content") rfields = Some (JArr []) ->
  callTool_resume tool (inr (JObj fields)) =
  failed tool (Some (jstr "Cannot read properties of undefined (reading 'type')")).
Proof.
  intros Herr Hres Hcontent.
  unfold callTool_resume, translate, prop, index0.
  cbn [mbind res_bind try_catch]. rewrite Herr, Hres. cbn [truthy].
  rewrite Hcontent. cbn [truthy head mbind res_bind try_catch].
  unfold failed. do 3 f_equal.
Qed.

Lemma empty_content_list_is_a_failure_witness :
  callTool_resume (lit "remote_macos_get_screen")
    (inr (JObj [(lit "jsonrpc", jstr "2.0"); (lit "id", jnum 7);
                (lit "result", JObj [(lit "content", JArr [])])])) =
  failed (lit "remote_macos_get_screen")
    (Some (jstr "Cannot read properties of undefined (reading 'type')")).
Proof. by apply (empty_content_list_is_a_failure _ _ [(lit "content", JArr [])]). Defined.

(** ** [getScreenDimensions] *)

(** A successful Tool Result of [callTool] carries in [data] the [result]
    of a response that has no [error]. *)
Lemma translate_success tool response r :
  translate tool response = inr r -> success r = true ->
  prop (Some response) (lit "result") = inr (data r) /\
  exists err, prop (Some response) (lit "error") = inr err /\ truthy err = false.
Proof.
  unfold translate.
  destruct (prop (Some response) (lit "error")) as [e|err]; simpl; [done|].
  destruct (truthy err) eqn:Herr; simpl.
  { destruct (prop err (lit "message")); simpl; [done|]. by intros [= <-]. }
  destruct (prop (Some response) (lit "result")) as [e|result]; simpl; [done|].
  assert (forall r', r' = r -> data r' = result ->
            (inr result : res jsval) = inr (data r) /\
            exists err0, (inr err : res jsval) = inr err0 /\ truthy err0 = false)
    as Hdone.
  { intros r' <- <-. split; [done|]. by exists err. }
  destruct (truthy result); simpl; [|intros [= Hr] _; by eapply Hdone].
  destruct (prop result (lit "content")) as [e|items]; simpl; [done|].
  destruct (truthy items); simpl; [|intros [= Hr] _; by eapply Hdone].
  destruct (index0 items) as [e|item]; simpl; [done|].
  destruct (prop item (lit "type")) as [e|type]; simpl; [done|].
  destruct (is_string type (lit "image")); simpl.
  - destruct (prop item (lit "data")) as [e|image]; simpl; [done|].
    intros [= Hr] _; by eapply Hdone.
  - destruct (prop item (lit "text")) as [e|text]; simpl; [done|].
    destruct (prop item (lit "data")) as [e|payload]; simpl; [done|].
    intros [= Hr] _; by eapply Hdone.
Qed.



End MCPClientMore.
